(** * refactor_forge: the analysis core, embedded and verified

    The development follows the layout of the repository:

    - [Py]: the Python values the analysis works on (text as a list of
      code points, exceptions, indexing and slicing, the [str] methods used);
    - [Re]: a backtracking matcher for the [re] patterns of the sources;
    - [Ast]: the part of Python's [ast] trees the analysis inspects, and
      [ast.walk];
    - one module per source file: [types] (src/core/types.py), [utils]
      (src/core/utils.py), [module_detector], [import_analyzer],
      [dependency_analyzer], [semantic_analyzer] (src/analyzer/),
      [import_manager] (src/transformer/) and [analyzer], the class
      [CodeAnalyzer] of src/analyzer.py;
    - [scenarios]: concrete sources with their trees.

    The properties follow the definitions. *)

From Stdlib Require Import Ascii String.
From stdpp Require Import gmap list sorting.

Set Warnings "-register-all,-clear-no-such-hyp".

(** ** Python values *)
Module Py.

(** A Python [str] is a sequence of Unicode code points. *)
Definition str : Type := list N.

(** ASCII literals. *)
Definition py (x : string) : str := N_of_ascii <$> list_ascii_of_string x.

(** The line feed, written [\n] in the sources. *)
Definition nl : N := 10%N.

(** The exceptions the analysis can meet; [ValueError] stands for its
    subclasses too. *)
Inductive exn : Type := SyntaxError | ValueError | AttributeError | IndexError.

(** A computation either raises or returns. *)
Definition result (A : Type) : Type := exn + A.

Definition raise {A} (e : exn) : result A := inl e.

#[export] Instance result_ret : MRet result := fun A x => inr x.
#[export] Instance result_bind : MBind result := fun A B k c =>
  match c with
  | inl e => inl e
  | inr x => k x
  end.

(** [for x in l: acc = f acc x], where the body may raise. *)
Fixpoint for_each {A B} (f : B -> A -> result B) (l : list A) (acc : B) : result B :=
  match l with
  | [] => mret acc
  | x :: l' => f acc x ≫= for_each f l'
  end.

(** [enumerate(l)] *)
Definition enumerate {A} (l : list A) : list (nat * A) := imap pair l.
Global Arguments enumerate : simpl never.

(** [l[i]]: a negative index counts from the end, an index out of range
    raises [IndexError]. *)
Definition getitem {A} (l : list A) (i : Z) : result A :=
  let n := Z.of_nat (length l) in
  let j := (if bool_decide (i < 0) then n + i else i)%Z in
  if bool_decide (0 <= j < n)%Z then
    match l !! Z.to_nat j with
    | Some x => mret x
    | None => raise IndexError
    end
  else raise IndexError.

(** A slice bound, clamped the way [l[a:b]] does. *)
Definition slice_bound (n i : Z) : nat :=
  Z.to_nat (if bool_decide (i < 0) then Z.max 0 (n + i) else Z.min i n)%Z.

(** [l[a:b]] *)
Definition slice {A} (l : list A) (a b : Z) : list A :=
  let n := Z.of_nat (length l) in
  let a' := slice_bound n a in
  let b' := slice_bound n b in
  take (b' - a') (drop a' l).

(** [sorted(set(l))] on integers: insertion into a strictly increasing list. *)
Fixpoint insert_sorted (x : Z) (l : list Z) : list Z :=
  match l with
  | [] => [x]
  | y :: l' =>
      if bool_decide (x < y)%Z then x :: l
      else if bool_decide (x = y) then l
      else y :: insert_sorted x l'
  end.

Definition sorted_set (l : list Z) : list Z := foldr insert_sorted [] l.

(** *** The [str] methods of the sources *)

Definition in_range (a b c : N) : bool := ((a <=? c) && (c <=? b))%N.

(** [str.isspace] on one code point: the white space of the Unicode
    database. *)
Definition isspace (c : N) : bool :=
  in_range 9 13 c || in_range 28 32 c || (c =? 133)%N || (c =? 160)%N
  || (c =? 5760)%N || in_range 8192 8202 c || (c =? 8232)%N || (c =? 8233)%N
  || (c =? 8239)%N || (c =? 8287)%N || (c =? 12288)%N.

Definition is_upper (c : N) : bool := in_range 65 90 c.
Definition is_lower (c : N) : bool := in_range 97 122 c.
Definition is_letter (c : N) : bool := is_upper c || is_lower c.
Definition is_digit (c : N) : bool := in_range 48 57 c.

(** Case mapping follows the ASCII letters, where it is CPython's; the
    other code points are kept. The names the analysis lowers come out of
    ASCII character classes. *)
Definition lower_cp (c : N) : N := if is_upper c then (c + 32)%N else c.
Definition upper_cp (c : N) : N := if is_lower c then (c - 32)%N else c.

(** [s.lower()] *)
Definition lower (s : str) : str := lower_cp <$> s.

(** [s.capitalize()] *)
Definition capitalize (s : str) : str :=
  match s with
  | [] => []
  | c :: s' => upper_cp c :: lower s'
  end.

(** [s.title()]: a letter after a letter is lowered, a letter after
    anything else is raised. *)
Fixpoint title_from (prev_cased : bool) (s : str) : str :=
  match s with
  | [] => []
  | c :: s' =>
      if is_letter c
      then (if prev_cased then lower_cp c else upper_cp c) :: title_from true s'
      else c :: title_from false s'
  end.

Definition title (s : str) : str := title_from false s.

(** [s.replace(old, new)] for one-character [old] and [new]. *)
Definition replace (old new : N) (s : str) : str :=
  (fun c => if (c =? old)%N then new else c) <$> s.

(** [s.startswith(p)] *)
Fixpoint startswith (s p : str) : bool :=
  match p, s with
  | [], _ => true
  | _ :: _, [] => false
  | a :: p', c :: s' => (a =? c)%N && startswith s' p'
  end.

(** [sub in s] *)
Fixpoint contains (sub s : str) : bool :=
  startswith s sub ||
  match s with
  | [] => false
  | _ :: s' => contains sub s'
  end.

(** [s.count(sub)] for a non-empty [sub]: occurrences that do not overlap,
    from the left; [skip] is what is left of the occurrence just counted. *)
Fixpoint count_from (sub : str) (skip : nat) (s : str) : nat :=
  match s with
  | [] => 0
  | _ :: s' =>
      match skip with
      | S k => count_from sub k s'
      | O =>
          if startswith s sub
          then S (count_from sub (length sub - 1) s')
          else count_from sub 0 s'
      end
  end.

Definition count (sub s : str) : nat := count_from sub 0 s.

(** [s.split(sep)] for a one-character [sep]. *)
Fixpoint split (sep : N) (s : str) : list str :=
  match s with
  | [] => [[]]
  | c :: s' =>
      if (c =? sep)%N then [] :: split sep s'
      else match split sep s' with
           | [] => [[c]]
           | w :: ws => (c :: w) :: ws
           end
  end.

(** [sep.join(l)] *)
Fixpoint join (sep : str) (l : list str) : str :=
  match l with
  | [] => []
  | [x] => x
  | x :: l' => x ++ sep ++ join sep l'
  end.

(** [s.lstrip(...)], [s.rstrip(...)] and [s.strip(...)] for the characters
    [drop_it] tells to drop. *)
Fixpoint lstrip_by (drop_it : N -> bool) (s : str) : str :=
  match s with
  | [] => []
  | c :: s' => if drop_it c then lstrip_by drop_it s' else s
  end.

Definition rstrip_by (drop_it : N -> bool) (s : str) : str :=
  reverse (lstrip_by drop_it (reverse s)).

Definition strip_by (drop_it : N -> bool) (s : str) : str :=
  rstrip_by drop_it (lstrip_by drop_it s).

(** [s.strip()] *)
Definition strip (s : str) : str := strip_by isspace s.

(** [s.strip(chars)] *)
Definition strip_chars (chars : str) (s : str) : str :=
  strip_by (fun c => bool_decide (c ∈ chars)) s.

(** [str(n)] for a natural number. *)
Fixpoint str_of_uint (d : Decimal.uint) : str :=
  match d with
  | Decimal.Nil => []
  | Decimal.D0 d' => 48%N :: str_of_uint d'
  | Decimal.D1 d' => 49%N :: str_of_uint d'
  | Decimal.D2 d' => 50%N :: str_of_uint d'
  | Decimal.D3 d' => 51%N :: str_of_uint d'
  | Decimal.D4 d' => 52%N :: str_of_uint d'
  | Decimal.D5 d' => 53%N :: str_of_uint d'
  | Decimal.D6 d' => 54%N :: str_of_uint d'
  | Decimal.D7 d' => 55%N :: str_of_uint d'
  | Decimal.D8 d' => 56%N :: str_of_uint d'
  | Decimal.D9 d' => 57%N :: str_of_uint d'
  end.

Definition str_of_nat (n : nat) : str := str_of_uint (Nat.to_uint n).

(** A [dict] with [str] keys: its items in the order of insertion, no
    key twice. *)
Definition dict (V : Type) : Type := list (str * V).

(** [d[k] = v]: the value of a key that is there is replaced in place, a
    new key comes last. *)
Fixpoint dict_set {V} (d : dict V) (k : str) (v : V) : dict V :=
  match d with
  | [] => [(k, v)]
  | (k', v') :: d' =>
      if bool_decide (k' = k) then (k, v) :: d' else (k', v') :: dict_set d' k v
  end.

(** [d.get(k)] *)
Definition dict_get {V} (d : dict V) (k : str) : option V :=
  snd <$> List.find (fun item => bool_decide (item.1 = k)) d.

(** [l.remove(x)] for an [x] that is in [l]: the first one goes. *)
Fixpoint list_remove (x : str) (l : list str) : list str :=
  match l with
  | [] => []
  | y :: l' => if bool_decide (y = x) then l' else y :: list_remove x l'
  end.

End Py.

Export Py.

(** ** The [re] patterns of the sources

    [re] matches by backtracking: of two alternatives the left one is tried
    first, a greedy repetition tries one more round before it stops, a lazy
    one stops before it tries one more round, and the first way that
    reaches the end of the pattern is the match. [run r st] lists the ways
    [r] can match from the state [st] in that order. *)
Module Re.

Inductive regex : Type :=
  | Eps
  | Chr (p : N -> bool)
  | Seq (r1 r2 : regex)
  | Alt (r1 r2 : regex)
  | Star (greedy : bool) (r : regex)
  | Group (i : nat) (r : regex)
  | WordB (w : N -> bool).

(** The matcher's state: the character before the position (for [\b]), the
    text from the position on, and the groups captured so far. *)
Record mstate : Type := MState {
  m_prev : option N;
  m_rest : str;
  m_groups : list (nat * str)
}.

(** What was read between two states. *)
Definition consumed (st st' : mstate) : str :=
  take (length (m_rest st) - length (m_rest st')) (m_rest st).

Definition is_word_at (w : N -> bool) (c : option N) : bool :=
  match c with
  | Some c => w c
  | None => false
  end.

Definition set_group (i : nat) (st st' : mstate) : mstate :=
  MState (m_prev st') (m_rest st') ((i, consumed st st') :: m_groups st').

(** A round of a repetition that reads nothing is not repeated; the
    bodies repeated in the sources always read a character. *)
Definition progress (st st' : mstate) : bool :=
  bool_decide (length (m_rest st') < length (m_rest st)).

(** The rounds of a repetition of [body], at most [n] of them. *)
Fixpoint rounds (body : mstate -> list mstate) (greedy : bool) (n : nat)
    (st : mstate) : list mstate :=
  match n with
  | O => [st]
  | S n' =>
      let more :=
        body st ≫= (fun st' => if progress st st' then rounds body greedy n' st' else []) in
      if greedy then more ++ [st] else st :: more
  end.

Fixpoint run (r : regex) (st : mstate) : list mstate :=
  match r with
  | Eps => [st]
  | Chr p =>
      match m_rest st with
      | c :: s' => if p c then [MState (Some c) s' (m_groups st)] else []
      | [] => []
      end
  | Seq r1 r2 => run r1 st ≫= run r2
  | Alt r1 r2 => run r1 st ++ run r2 st
  | Star greedy r1 => rounds (run r1) greedy (length (m_rest st)) st
  | Group i r1 => set_group i st <$> run r1 st
  | WordB w =>
      if xorb (is_word_at w (m_prev st)) (is_word_at w (head (m_rest st)))
      then [st] else []
  end.

(** The first match of [r] at the position of [s] that follows [prev]:
    how much it reads, and its groups. *)
Definition exec (r : regex) (prev : option N) (s : str) : option (nat * list (nat * str)) :=
  match run r (MState prev s []) with
  | [] => None
  | st' :: _ => Some (length s - length (m_rest st'), m_groups st')
  end.

(** [m.group(i)], for a group that took part in the match. *)
Fixpoint group (g : list (nat * str)) (i : nat) : str :=
  match g with
  | [] => []
  | (j, w) :: g' => if bool_decide (j = i) then w else group g' i
  end.

(** [pattern.match(s)] *)
Definition re_match (r : regex) (s : str) : option (list (nat * str)) :=
  snd <$> exec r None s.

(** [re.search(pattern, s)]: the match at the leftmost position that has
    one. *)
Fixpoint search_from (r : regex) (prev : option N) (s : str) : option (list (nat * str)) :=
  match exec r prev s with
  | Some (_, g) => Some g
  | None =>
      match s with
      | [] => None
      | c :: s' => search_from r (Some c) s'
      end
  end.

Definition re_search (r : regex) (s : str) : option (list (nat * str)) :=
  search_from r None s.

(** [re.findall(pattern, s)] for a pattern with one group: group 1 of the
    matches from left to right, none overlapping the one before; [skip] is
    what is left of the match just found. The patterns of the sources
    match no empty text. *)
Fixpoint findall_from (r : regex) (prev : option N) (s : str) (skip : nat) : list str :=
  match s with
  | [] => []
  | c :: s' =>
      match skip with
      | S k => findall_from r (Some c) s' k
      | O =>
          match exec r prev s with
          | Some (n, g) => group g 1 :: findall_from r (Some c) s' (n - 1)
          | None => findall_from r (Some c) s' 0
          end
      end
  end.

Definition re_findall (r : regex) (s : str) : list str := findall_from r None s 0.

(** [re.sub(pattern, repl, s)]: the text with every match, from left to
    right and none overlapping the one before, replaced by [repl] of its
    groups. A position where the pattern matches only the empty text is
    passed over; the patterns of the sources match no empty text. *)
Fixpoint sub_from (r : regex) (repl : list (nat * str) -> str)
    (prev : option N) (s : str) (skip : nat) : str :=
  match s with
  | [] => []
  | c :: s' =>
      match skip with
      | S k => sub_from r repl (Some c) s' k
      | O =>
          match exec r prev s with
          | Some (S n, g) => repl g ++ sub_from r repl (Some c) s' n
          | _ => c :: sub_from r repl (Some c) s' 0
          end
      end
  end.

Definition re_sub (r : regex) (repl : list (nat * str) -> str) (s : str) : str :=
  sub_from r repl None s 0.

(** The truth value of [pattern.match(s)]. *)
Definition matches (r : regex) (s : str) : bool :=
  match re_match r s with
  | Some _ => true
  | None => false
  end.

(** *** Pattern syntax *)

(** A literal text. *)
Definition lit (s : str) : regex := foldr (fun c r => Seq (Chr (N.eqb c)) r) Eps s.

(** [r+], [r+?] *)
Definition plus (greedy : bool) (r : regex) : regex := Seq r (Star greedy r).

(** [r?] *)
Definition opt (r : regex) : regex := Alt r Eps.

(** [r{2,}] and [r{3,}] *)
Definition at_least_2 (r : regex) : regex := Seq r (plus true r).
Definition at_least_3 (r : regex) : regex := Seq r (at_least_2 r).

(** The patterns of a list one after the other. *)
Definition seqs (rs : list regex) : regex := foldr Seq Eps rs.

(** One given character. *)
Definition chr (c : N) : regex := Chr (N.eqb c).

(** [.] without and with [re.DOTALL] *)
Definition dot : regex := Chr (fun c => negb (c =? nl)%N).
Definition dot_all : regex := Chr (fun _ => true).

(** [[a-zA-Z0-9_]] *)
Definition is_ident_char (c : N) : bool := is_letter c || is_digit c || (c =? 95)%N.

(** [\w] on text: the ASCII word characters, and beyond ASCII what the
    Unicode database [unicode_alnum] counts as alphanumeric. *)
Definition is_word (unicode_alnum : N -> bool) (c : N) : bool :=
  if (c <? 128)%N then is_ident_char c else unicode_alnum c.

End Re.


(** ** Python's [ast] *)
Module Ast.

Inductive expr_context : Type := Load | Store | Del.

(** [alias(name, asname)], an imported name. *)
Record alias : Type := Alias { alias_name : str; alias_asname : option str }.

(** The node classes the analysis tells apart, each with the fields it
    reads and its child nodes; every other node class is an [Other] with
    its child nodes in field order. [params] of a function definition is
    [[arg.arg for arg in node.args.args]] and [args] its [arguments] node
    (annotations and defaults); [type_params] is the field of Python
    3.12, empty before. The [alias] and [expr_context] children are left
    out: no code here looks at them. *)
Inductive node : Type :=
  | Module (body : list node)
  | FunctionDef (name : str) (params : list str) (args : node)
      (body decorator_list : list node) (returns : option node)
      (type_params : list node) (lineno : Z)
  | ClassDef (name : str)
      (bases keywords body decorator_list type_params : list node) (lineno : Z)
  | Assign (targets : list node) (value : node)
  | AnnAssign (target annotation : node) (value : option node)
  | Import (names : list alias) (lineno : Z)
  | ImportFrom (module : option str) (names : list alias) (lineno : Z)
  | Name (id : str) (ctx : expr_context)
  | Call (func : node) (args keywords : list node)
  | Attribute (value : node) (attr : str) (ctx : expr_context)
  | Other (children : list node).

(** [ast.iter_child_nodes(n)] *)
Definition iter_child_nodes (n : node) : list node :=
  match n with
  | Module body => body
  | FunctionDef _ _ args body decorator_list returns type_params _ =>
      args :: body ++ decorator_list ++ option_list returns ++ type_params
  | ClassDef _ bases keywords body decorator_list type_params _ =>
      bases ++ keywords ++ body ++ decorator_list ++ type_params
  | Assign targets value => targets ++ [value]
  | AnnAssign target annotation value => target :: annotation :: option_list value
  | Import _ _ | ImportFrom _ _ _ | Name _ _ => []
  | Call func args keywords => func :: args ++ keywords
  | Attribute value _ _ => [value]
  | Other children => children
  end.

(** The number of nodes of a tree. *)
Fixpoint size (n : node) : nat :=
  S match n with
    | Module body => sum_list_with size body
    | FunctionDef _ _ args body decorator_list returns type_params _ =>
        size args + (sum_list_with size body + (sum_list_with size decorator_list
          + (match returns with Some r => size r | None => 0 end
             + sum_list_with size type_params)))
    | ClassDef _ bases keywords body decorator_list type_params _ =>
        sum_list_with size bases + (sum_list_with size keywords
          + (sum_list_with size body + (sum_list_with size decorator_list
             + sum_list_with size type_params)))
    | Assign targets value => sum_list_with size targets + size value
    | AnnAssign target annotation value =>
        size target + (size annotation
          + match value with Some v => size v | None => 0 end)
    | Import _ _ | ImportFrom _ _ _ | Name _ _ => 0
    | Call func args keywords =>
        size func + (sum_list_with size args + sum_list_with size keywords)
    | Attribute value _ _ => size value
    | Other children => sum_list_with size children
    end.

(** [ast.walk]: a queue that starts with the root; the node at its front
    is yielded and its children join at the back. *)
Fixpoint walk_queue (fuel : nat) (todo : list node) : list node :=
  match fuel, todo with
  | S fuel', n :: todo' => n :: walk_queue fuel' (todo' ++ iter_child_nodes n)
  | _, _ => []
  end.

Definition walk (tree : node) : list node := walk_queue (size tree) [tree].

(** [d] is below [n] in the tree: a child of [n], or below a child. *)
Definition below (n d : node) : Prop :=
  tc (fun parent child => child ∈ iter_child_nodes parent) n d.

(** [ast.parse] is a parameter of what follows: [ast_parse source] is
    the tree CPython builds for a text, or the exception it raises,
    [SyntaxError] for a text that is no Python and [ValueError] for a text
    that is no source at all. *)

End Ast.

Export Ast.

(** ** src/core/types.py *)
Module types.

Record FunctionInfo : Type := {
  fn_name : str;
  fn_lineno : Z;
  fn_args : list str;
  fn_docstring : str
}.

Record ClassInfo : Type := {
  cls_name : str;
  cls_lineno : Z;
  cls_methods : list str;
  cls_docstring : str
}.

(** A candidate module. The detector fills the first four keys, the
    semantic analyzer the others. *)
Record ModuleInfo : Type := {
  name : str;
  start_line : Z;
  end_line : Z;
  content : str;
  purpose : option str;
  docstring : option str;
  functions : option (list FunctionInfo);
  classes : option (list ClassInfo)
}.

End types.

Export types.

(** ** src/core/utils.py *)
Module utils.

Import Re.

(** The pattern of the first substitution: one ASCII capital, as group 1. *)
Definition upper_re : regex := Group 1 (Chr is_upper).

(** The pattern of the second: a run of spaces and hyphens. *)
Definition separators_re : regex :=
  plus true (Chr (fun c => (c =? 32)%N || (c =? 45)%N)).

(** The pattern of the third: a run of underscores. *)
Definition underscores_re : regex := plus true (Chr (N.eqb 95)).

Definition to_snake_case (text : str) : str :=
  let s1 := re_sub upper_re (fun g => py "_" ++ group g 1) text in
  let s2 := re_sub separators_re (fun _ => py "_") s1 in
  lower (strip_chars (py "_") (re_sub underscores_re (fun _ => py "_") s2)).

Definition to_pascal_case (text : str) : str :=
  let snake := to_snake_case text in
  join [] (capitalize <$> split 95 snake).


(** A text without underscore. *)
Definition no_underscore (w : str) : bool := forallb (fun c => negb (95 =? c)%N) w.



(** A text of ASCII characters; on these [lower] and [capitalize] are the
    methods of Python. *)
Definition is_ascii (s : str) : bool := forallb (fun c => c <? 128)%N s.

(** No underscore of the text is followed by another one. *)
Fixpoint single_underscores (s : str) : bool :=
  match s with
  | [] => true
  | c :: s' =>
      negb ((c =? 95)%N && bool_decide (head s' = Some 95%N)) && single_underscores s'
  end.

(** A text as [to_snake_case] leaves it: no ASCII capital, space or
    hyphen, no two underscores in a row, no underscore at either end. *)
Definition in_snake_case (s : str) : bool :=
  forallb (fun c => negb (is_upper c)) s
  && forallb (fun c => negb ((c =? 32)%N || (c =? 45)%N)) s
  && single_underscores s
  && negb (bool_decide (head s = Some 95%N))
  && negb (bool_decide (last s = Some 95%N)).

(** A text as [to_pascal_case] leaves it: no underscore, space or hyphen,
    and no ASCII small letter in front. *)
Definition in_pascal_case (s : str) : bool :=
  forallb (fun c => negb ((c =? 95)%N || (c =? 32)%N || (c =? 45)%N)) s
  && negb (match s with c :: _ => is_lower c | [] => false end).

(** The pattern of [extract_indentation]: as group 1 a greedy run of white
    space; its anchor holds where [re.match] starts. *)
Definition indentation_re : regex := Group 1 (Star true (Chr isspace)).

Definition extract_indentation (line : str) : str :=
  match re_match indentation_re line with
  | Some m => group m 1
  | None => []
  end.

End utils.

(** ** src/analyzer/module_detector.py *)
Module module_detector.

Import Re.
Local Open Scope Z_scope.

(** The class rule: the text [class ] and, as group 1, an ASCII capital
    with the identifier characters that follow it. *)
Definition class_name_re : regex :=
  Seq (lit (py "class ")) (Group 1 (Seq (Chr is_upper) (Star true (Chr is_ident_char)))).

(** The box-drawing characters of the section headers: the vertical bar
    U+2502 and the round corners U+256D, U+256E, U+256F, U+2570. *)
Definition box_vertical : N := 9474.
Definition box_down_right : N := 9581.
Definition box_down_left : N := 9582.
Definition box_up_left : N := 9583.
Definition box_up_right : N := 9584.

Definition one_of (chars : list N) (c : N) : bool := bool_decide (c ∈ chars).

(** The header rule: the text [# ], one of U+2502, U+256D, U+2570, spaces,
    as group 1 a lazy run of one or more ASCII letters and spaces, spaces,
    and one of U+2502, U+256E, U+256F. *)
Definition header_re : regex :=
  Seq (lit (py "# "))
   (Seq (Chr (one_of [box_vertical; box_down_right; box_up_right]))
   (Seq (Star true (Chr (N.eqb 32)))
   (Seq (Group 1 (plus false (Chr (fun c => is_letter c || (c =? 32)%N))))
   (Seq (Star true (Chr (N.eqb 32)))
        (Chr (one_of [box_vertical; box_down_left; box_up_left])))))).

(** The function rule: the text [def ], as group 1 an ASCII small letter
    with the identifier characters that follow it, and an opening
    parenthesis. *)
Definition function_name_re : regex :=
  Seq (lit (py "def "))
   (Seq (Group 1 (Seq (Chr is_lower) (Star true (Chr is_ident_char))))
        (lit (py "("))).

Definition _extract_module_name (content default : str) : str :=
  match re_search class_name_re content with
  | Some class_match => lower (group class_match 1)
  | None =>
      match re_search header_re content with
      | Some header_match =>
          replace 32 95 (lower (strip (group header_match 1)))
      | None =>
          match re_search function_name_re content with
          | Some func_match => group func_match 1
          | None => default
          end
      end
  end.

(** The body of the loop of [_group_related_boundaries]; the state is
    [(grouped, current_group)]. *)
Definition group_step (proximity_threshold : Z)
    (st : list (list Z) * list Z) (boundary : Z) : list (list Z) * list Z :=
  let '(grouped, current_group) := st in
  match last current_group with
  | None => (grouped, current_group ++ [boundary])
  | Some prev =>
      if bool_decide (boundary - prev < proximity_threshold)
      then (grouped, current_group ++ [boundary])
      else (grouped ++ [current_group], [boundary])
  end.

Definition _group_related_boundaries (boundaries : list Z)
    (proximity_threshold : Z) : list (list Z) :=
  let '(grouped, current_group) :=
    foldl (group_step proximity_threshold) ([], []) boundaries in
  match current_group with
  | [] => grouped
  | _ :: _ => grouped ++ [current_group]
  end.

(** The groups a state of the loop stands for: what is returned when the
    loop stops there. *)
Definition close (st : list (list Z) * list Z) : list (list Z) :=
  match st.2 with
  | [] => st.1
  | _ :: _ => st.1 ++ [st.2]
  end.

(** The default of the [proximity_threshold] argument. *)
Definition proximity_threshold_default : Z := 10.

(** The name of a class or function definition, its line. *)
Definition definition_name (n : node) : option str :=
  match n with
  | FunctionDef name _ _ _ _ _ _ _ => Some name
  | ClassDef name _ _ _ _ _ _ => Some name
  | _ => None
  end.

Definition definition_lineno (n : node) : Z :=
  match n with
  | FunctionDef _ _ _ _ _ _ _ lineno => lineno
  | ClassDef _ _ _ _ _ _ lineno => lineno
  | _ => 0
  end.

(** [isinstance(ast.iter_fields(tree), ast.Module)]: [ast.iter_fields]
    returns a generator of pairs, which is no [ast.Module]. *)
Definition iter_fields_is_Module (tree : node) : bool := false.

(** [ast.iter_ancestors(node)]: the [ast] module has no attribute of that
    name, and looking it up raises. *)
Definition ast_iter_ancestors (n : node) : result (list node) :=
  raise AttributeError.

Definition is_Module (n : node) : bool :=
  match n with
  | Module _ => true
  | _ => false
  end.

(** The body of the loop of [_find_definition_boundaries]. *)
Definition definition_step (tree : node) (class_funcs : list Z) (n : node)
    : result (list Z) :=
  match definition_name n with
  | Some name =>
      if negb (startswith name (py "_")) then
        top_level ←
          (if iter_fields_is_Module tree then mret true
           else ancestors ← ast_iter_ancestors n;
                mret (existsb is_Module ancestors));
        if (top_level : bool)
        then mret (class_funcs ++ [definition_lineno n - 1])
        else mret class_funcs
      else mret class_funcs
  | None => mret class_funcs
  end.

Definition _find_definition_boundaries (tree : node) : result (list Z) :=
  for_each (definition_step tree) (walk tree) [].

(** A class or function definition whose name starts with no underscore. *)
Definition is_public_definition (n : node) : bool :=
  match definition_name n with
  | Some name => negb (startswith name (py "_"))
  | None => false
  end.

Section detector.

(** [ast.parse], and the compiled patterns of [core.config]. *)
Variable ast_parse : str -> result node.
Variable COMPILED_BOUNDARY_PATTERNS : list regex.

(** [any(pattern.match(line) for pattern in COMPILED_BOUNDARY_PATTERNS)] *)
Definition matches_boundary (line : str) : bool :=
  existsb (fun pattern => matches pattern line) COMPILED_BOUNDARY_PATTERNS.

(** The index of a line is appended once for every pattern it matches. *)
Definition _find_section_boundaries (lines : list str) : list Z :=
  '(i, line) ← enumerate lines;
  (fun _ => Z.of_nat i) <$>
    List.filter (fun pattern => matches pattern line) COMPILED_BOUNDARY_PATTERNS.

(** The loop of [_find_module_start] with [start_line = n > 0]. *)
Fixpoint module_start_from (n : nat) (lines : list str) : result Z :=
  match n with
  | O => mret 0
  | S k =>
      line ← getitem lines (Z.of_nat k);
      let prev_line := strip line in
      if bool_decide (prev_line = []) || matches_boundary prev_line
      then mret (Z.of_nat (S k))
      else module_start_from k lines
  end.

Definition _find_module_start (start_line : Z) (lines : list str) : result Z :=
  if bool_decide (start_line > 0)
  then module_start_from (Z.to_nat start_line) lines
  else mret start_line.

(** The loop of [_find_module_end]; [fuel] is [len(lines) - 1 - end_line],
    the rounds left before the loop condition fails. *)
Fixpoint module_end_from (fuel : nat) (end_line : Z) (lines : list str) : result Z :=
  match fuel with
  | O => mret end_line
  | S fuel' =>
      line ← getitem lines (end_line + 1);
      let next_line := strip line in
      if matches_boundary next_line then mret end_line
      else
        section_break ←
          (if bool_decide (next_line = [])
              && bool_decide (end_line + 2 < Z.of_nat (length lines))
           then after ← getitem lines (end_line + 2);
                mret (bool_decide (strip after = []))
           else mret false);
        if (section_break : bool) then mret end_line
        else module_end_from fuel' (end_line + 1) lines
  end.

Definition _find_module_end (end_line : Z) (lines : list str) : result Z :=
  module_end_from (Z.to_nat (Z.of_nat (length lines) - 1 - end_line)) end_line lines.

(** The body of the loop of [_create_module_definitions]. *)
Definition module_definition (lines : list str) (i : nat) (group : list Z)
    : result ModuleInfo :=
  start_line ← getitem group 0;
  end_line ← getitem group (-1);
  start_line ← _find_module_start start_line lines;
  end_line ← _find_module_end end_line lines;
  let content := join [nl] (slice lines start_line (end_line + 1)) in
  let name := _extract_module_name content (py "module_" ++ str_of_nat i) in
  mret {| name := name; start_line := start_line; end_line := end_line;
          content := content; purpose := None; docstring := None;
          functions := None; classes := None |}.

Definition _create_module_definitions (grouped_boundaries : list (list Z))
    (lines : list str) : result (list ModuleInfo) :=
  mapM (fun '(i, group) => module_definition lines i group)
       (enumerate grouped_boundaries).

Definition detect_module_boundaries (source_code : str) : result (list ModuleInfo) :=
  let lines := split nl source_code in
  tree ← ast_parse source_code;
  let section_boundaries := _find_section_boundaries lines in
  class_funcs ← _find_definition_boundaries tree;
  let all_boundaries := sorted_set (section_boundaries ++ class_funcs) in
  let grouped_boundaries :=
    _group_related_boundaries all_boundaries proximity_threshold_default in
  _create_module_definitions grouped_boundaries lines.

(** What the module at place [i] of the result has to do with its group
    of boundaries: it starts where [_find_module_start] leads from the
    first boundary and ends where [_find_module_end] leads from the last
    one, inside the file; its content is the lines from its start to its
    end, and its name is derived from that content. *)
Definition covers (lines : list str) (i : nat) (group : list Z) (m : ModuleInfo)
    : Prop :=
  exists first final,
    head group = Some first /\ last group = Some final /\
    0 <= start_line m <= first /\ final <= end_line m < Z.of_nat (length lines) /\
    _find_module_start first lines = inr (start_line m) /\
    _find_module_end final lines = inr (end_line m) /\
    content m
      = join [nl] (take (Z.to_nat (end_line m + 1 - start_line m))
                        (drop (Z.to_nat (start_line m)) lines)) /\
    name m = _extract_module_name (content m) (py "module_" ++ str_of_nat i).

End detector.

End module_detector.

(** ** src/analyzer/import_analyzer.py *)
Module import_analyzer.

(** An entry of the symbol table: the dictionary with [type] either
    [import] or [import_from]. *)
Inductive symbol : Type :=
  | import (source : str) (alias : option str) (lineno : Z)
  | import_from (source : option str) (name : str) (alias : option str)
      (lineno : Z).

(** [name.asname or name.name] *)
Definition local_name (a : Ast.alias) : str :=
  match alias_asname a with
  | Some (c :: s) => c :: s
  | _ => alias_name a
  end.

(** What one node of the walk does to the table. *)
Definition import_step (symbol_table : gmap str symbol) (n : node)
    : gmap str symbol :=
  match n with
  | Import names lineno =>
      foldl (fun tbl a =>
               <[local_name a := import (alias_name a) (alias_asname a) lineno]> tbl)
            symbol_table names
  | ImportFrom module names lineno =>
      foldl (fun tbl a =>
               <[local_name a :=
                   import_from module (alias_name a) (alias_asname a) lineno]> tbl)
            symbol_table names
  | _ => symbol_table
  end.

(** The names a node binds, with their entries, in the order of the
    statement. *)
Definition bindings_of (n : node) : list (str * symbol) :=
  match n with
  | Import names lineno =>
      (fun a => (local_name a, import (alias_name a) (alias_asname a) lineno)) <$> names
  | ImportFrom module names lineno =>
      (fun a => (local_name a,
                 import_from module (alias_name a) (alias_asname a) lineno)) <$> names
  | _ => []
  end.

(** The last entry of a list of bindings for the name [k]. *)
Definition last_binding (k : str) (bs : list (str * symbol)) : option symbol :=
  snd <$> last (List.filter (fun b => bool_decide (b.1 = k)) bs).

(** No statement of the body has an import below it: the imports are
    statements of the module itself. *)
Definition imports_at_top_level (body : list node) : Prop :=
  forall n d, n ∈ body -> below n d -> bindings_of d = [].

Section imports.

Variable ast_parse : str -> result node.

Definition analyze_imports (source_code : str) : result (gmap str symbol) :=
  tree ← ast_parse source_code;
  mret (foldl import_step ∅ (walk tree)).

End imports.




Section categories.

(** The names [pkgutil.iter_modules(sys.stdlib_module_names)] finds. *)
Variable stdlib_modules : gset str.



End categories.

End import_analyzer.

(** ** src/analyzer/dependency_analyzer.py *)
Module dependency_analyzer.

(** [nx.DiGraph]: the nodes with their attribute [info], and the edges. *)
Record DiGraph : Type := {
  nodes : gmap str (option ModuleInfo);
  edges : gset (str * str)
}.

Definition empty_graph : DiGraph := {| nodes := ∅; edges := ∅ |}.

(** [g.add_node(n, info=m)] *)
Definition add_node (g : DiGraph) (n : str) (info : ModuleInfo) : DiGraph :=
  {| nodes := <[n := Some info]> (nodes g); edges := edges g |}.

(** An end of a new edge becomes a node when it is none yet. *)
Definition touch (n : str) (ns : gmap str (option ModuleInfo))
    : gmap str (option ModuleInfo) :=
  match ns !! n with
  | Some _ => ns
  | None => <[n := None]> ns
  end.

(** [g.add_edge(u, v)] *)
Definition add_edge (g : DiGraph) (u v : str) : DiGraph :=
  {| nodes := touch v (touch u (nodes g)); edges := {[ (u, v) ]} ∪ edges g |}.

Definition referenced_step (referenced_names : gset str) (n : node) : gset str :=
  match n with
  | Name id Load => {[ id ]} ∪ referenced_names
  | Call (Name id _) _ _ => {[ id ]} ∪ referenced_names
  | Attribute (Name id _) _ Load => {[ id ]} ∪ referenced_names
  | _ => referenced_names
  end.

(** The edges of the graph go between modules at different places of the
    list. *)
Definition between (modules : list ModuleInfo) (g : DiGraph) : Prop :=
  forall u v, (u, v) ∈ edges g ->
    exists i j mi mj, i <> j /\ modules !! i = Some mi /\ modules !! j = Some mj /\
                      u = name mi /\ v = name mj.

Definition extract_referenced_names (tree : node) : gset str :=
  foldl referenced_step ∅ (walk tree).

Definition target_name (target : node) : gset str :=
  match target with
  | Name id _ => {[ id ]}
  | _ => ∅
  end.

Definition defined_step (defined_names : gset str) (n : node) : gset str :=
  match n with
  | FunctionDef name _ _ _ _ _ _ _ => {[ name ]} ∪ defined_names
  | ClassDef name _ _ _ _ _ _ => {[ name ]} ∪ defined_names
  | Assign targets _ => foldl (fun acc target => target_name target ∪ acc) defined_names targets
  | AnnAssign target _ _ => target_name target ∪ defined_names
  | _ => defined_names
  end.

Definition extract_defined_names (tree : node) : gset str :=
  foldl defined_step ∅ (walk tree).

(** A result that is the exception [ast.parse] raises on the content of
    one of the modules. *)
Definition raised_by_fragment {A} (ast_parse : str -> result node)
    (modules : list ModuleInfo) (r : result A) : Prop :=
  exists m e, m ∈ modules /\ ast_parse (content m) = inl e /\ r = inl e.

(** A module among the numbered [sources] refers to a name that a module
    among the numbered [targets] defines, at another place of the list;
    [referenced] and [defined] give the names of a tree. *)
Definition depends_among (ast_parse : str -> result node)
    (referenced defined : node -> gset str)
    (sources targets : list (nat * ModuleInfo)) (u v : str) : Prop :=
  exists i j mi mj ti tj,
    i <> j /\ (i, mi) ∈ sources /\ (j, mj) ∈ targets /\
    u = name mi /\ v = name mj /\
    ast_parse (content mi) = inr ti /\ ast_parse (content mj) = inr tj /\
    referenced ti ∩ defined tj ≠ ∅.

Definition depends (ast_parse : str -> result node)
    (referenced defined : node -> gset str) (modules : list ModuleInfo)
    (u v : str) : Prop :=
  depends_among ast_parse referenced defined
    (enumerate modules) (enumerate modules) u v.

(** The nodes the graph has once the modules are added. *)
Definition registry (modules : list ModuleInfo) : gmap str (option ModuleInfo) :=
  nodes (foldl (fun g module => add_node g (name module) module) empty_graph modules).

(** The module a node of the graph carries: the last one of its name. *)
Definition registered (modules : list ModuleInfo) (n : str) : option ModuleInfo :=
  last (List.filter (fun m => bool_decide (name m = n)) modules).

Section graph.

Variable ast_parse : str -> result node.

(** The body of the inner loop, for the module [i] with the names it
    references. *)
Definition edge_step (i : nat) (module : ModuleInfo) (referenced_names : gset str)
    (dependencies : DiGraph) (entry : nat * ModuleInfo) : result DiGraph :=
  let '(j, other_module) := entry in
  if bool_decide (i = j) then mret dependencies
  else
    other_ast ← ast_parse (content other_module);
    let defined_names := extract_defined_names other_ast in
    if bool_decide (referenced_names ∩ defined_names ≠ ∅)
    then mret (add_edge dependencies (name module) (name other_module))
    else mret dependencies.

(** The body of the outer loop. *)
Definition module_step (modules : list ModuleInfo) (dependencies : DiGraph)
    (entry : nat * ModuleInfo) : result DiGraph :=
  let '(i, module) := entry in
  module_ast ← ast_parse (content module);
  let referenced_names := extract_referenced_names module_ast in
  for_each (edge_step i module referenced_names) (enumerate modules) dependencies.

Definition build_dependency_graph (modules : list ModuleInfo) : result DiGraph :=
  let dependencies :=
    foldl (fun g module => add_node g (name module) module) empty_graph modules in
  for_each (module_step modules) (enumerate modules) dependencies.

End graph.

End dependency_analyzer.

(** ** src/analyzer/semantic_analyzer.py *)
Module semantic_analyzer.

Import Re.

(** The docstring pattern, compiled with [re.DOTALL]: three double quotes,
    as group 1 a lazy run of any characters, three double quotes. *)
Definition docstring_re : regex :=
  Seq (lit [34; 34; 34]%N) (Seq (Group 1 (Star false dot_all)) (lit [34; 34; 34]%N)).

(** The comment pattern: the text [# ] and, as group 1, an ASCII letter
    with the rest of its line. *)
Definition comment_re : regex :=
  Seq (lit (py "# ")) (Group 1 (Seq (Chr is_letter) (Star true dot))).

(** The first docstring match of a content is there and, stripped, is
    empty. *)
Definition blank_docstring (content : str) : Prop :=
  match re_search docstring_re content with
  | Some docstring_match => strip (group docstring_match 1) = []
  | None => False
  end.

Section semantics.

(** [ast.parse], [ast.get_docstring] and the table of [core.config], an
    insertion-ordered dictionary. *)
Variable ast_parse : str -> result node.
Variable ast_get_docstring : node -> option str.
Variable MODULE_PURPOSE_INDICATORS : list (str * list str).

Definition extract_functions (tree : node) : list FunctionInfo :=
  omap (fun n =>
          match n with
          | FunctionDef name params _ _ _ _ _ lineno =>
              Some {| fn_name := name; fn_lineno := lineno; fn_args := params;
                      fn_docstring := default [] (ast_get_docstring n) |}
          | _ => None
          end)
       (iter_child_nodes tree).

Definition method_name (child : node) : option str :=
  match child with
  | FunctionDef name _ _ _ _ _ _ _ => Some name
  | _ => None
  end.

Definition extract_classes (tree : node) : list ClassInfo :=
  omap (fun n =>
          match n with
          | ClassDef name _ _ body _ _ lineno =>
              Some {| cls_name := name; cls_lineno := lineno;
                      cls_methods := omap method_name body;
                      cls_docstring := default [] (ast_get_docstring n) |}
          | _ => None
          end)
       (iter_child_nodes tree).

(** The first purpose of the table one of whose indicators occurs in the
    lowered name. *)
Definition indicated_purpose (name : str) : option str :=
  fst <$> List.find (fun '(_, indicators) =>
                       existsb (fun indicator => contains indicator (lower name)) indicators)
                    MODULE_PURPOSE_INDICATORS.

Definition infer_purpose (content name : str) : str :=
  match indicated_purpose name with
  | Some purpose => title purpose ++ py " module for " ++ replace 95 32 name
  | None =>
      if contains (py "class") content && contains (py "def __init__") content
      then py "Defines the " ++ title (replace 95 32 name) ++ py " entity"
      else if bool_decide (3 < count (py "def ") content)%nat
      then py "Provides " ++ replace 95 32 name ++ py " functionality"
      else py "Handles " ++ replace 95 32 name ++ py " operations"
  end.

(** The body of the loop of [extract_semantic_purpose]: the dictionary of
    the module with the keys the loop sets. *)
Definition with_semantics (module : ModuleInfo) : result ModuleInfo :=
  let content := content module in
  module_ast ← ast_parse content;
  let functions := extract_functions module_ast in
  let classes := extract_classes module_ast in
  match re_search docstring_re content with
  | Some docstring_match =>
      let docstring := strip (group docstring_match 1) in
      let purpose := strip (default [] (head (split nl docstring))) in
      mret {| name := name module; start_line := start_line module;
              end_line := end_line module; content := content;
              purpose := Some purpose; docstring := Some docstring;
              functions := Some functions; classes := Some classes |}
  | None =>
      let purpose :=
        match re_search comment_re content with
        | Some comment_match => strip (group comment_match 1)
        | None => infer_purpose content (name module)
        end in
      mret {| name := name module; start_line := start_line module;
              end_line := end_line module; content := content;
              purpose := Some purpose; docstring := types.docstring module;
              functions := Some functions; classes := Some classes |}
  end.

Definition extract_semantic_purpose (modules : list ModuleInfo)
    : result (list ModuleInfo) :=
  mapM with_semantics modules.

End semantics.

End semantic_analyzer.

(** ** src/transformer/import_manager.py *)
Module import_manager.

Import Re.

(** An identifier of the fallback pattern. *)
Definition is_identifier (x : str) : bool :=
  match x with
  | [] => false
  | c :: w => (is_letter c || (c =? 95)%N) && forallb is_ident_char w
  end.

Section symbols.

(** [ast.parse], and the alphanumeric code points beyond ASCII. *)
Variable ast_parse : str -> result node.
Variable unicode_alnum : N -> bool.

(** The fallback pattern: a word boundary, as group 1 an ASCII letter or
    underscore with the identifier characters that follow it, a word
    boundary. *)
Definition identifier_re : regex :=
  Seq (WordB (is_word unicode_alnum))
   (Seq (Group 1 (Seq (Chr (fun c => is_letter c || (c =? 95)%N))
                      (Star true (Chr is_ident_char))))
        (WordB (is_word unicode_alnum))).

Definition symbol_step (symbols : gset str) (n : node) : gset str :=
  match n with
  | Name id Load => {[ id ]} ∪ symbols
  | Call (Name id _) _ _ => {[ id ]} ∪ symbols
  | _ => symbols
  end.

(** The names one node adds. *)
Definition names_used (n : node) : gset str := symbol_step ∅ n.

(** The [try] block and its [except SyntaxError]. *)
Definition extract_used_symbols (content : str) : result (gset str) :=
  match (tree ← ast_parse content;
         mret (foldl symbol_step ∅ (walk tree))) with
  | inl SyntaxError => mret (list_to_set (re_findall identifier_re content))
  | outcome => outcome
  end.

(** The names the source loads, as the loop over [ast.walk] of
    [optimize_imports] collects them. *)
Definition module_symbol_step (module_symbols : gset str) (n : node) : gset str :=
  match n with
  | Name id Load => {[ id ]} ∪ module_symbols
  | _ => module_symbols
  end.

Definition loaded_names (module_tree : node) : gset str :=
  foldl module_symbol_step ∅ (walk module_tree).

(** The condition and the body of the list comprehension. *)
Definition keep_step (module_symbols : gset str) (kept : list str) (imp : str)
    : result (list str) :=
  symbols ← extract_used_symbols imp;
  if bool_decide (symbols ∩ module_symbols ≠ ∅) then mret (kept ++ [imp])
  else mret kept.

(** The body of the loop over the items: the [try] block and its
    [except SyntaxError]. *)
Definition optimize_step (source : str) (optimized : dict (list str))
    (item : str * list str) : result (dict (list str)) :=
  let '(module, imports) := item in
  match (module_tree ← ast_parse source;
         let module_symbols := loaded_names module_tree in
         kept ← for_each (keep_step module_symbols) imports [];
         mret (dict_set optimized module kept)) with
  | inl SyntaxError => mret (dict_set optimized module imports)
  | outcome => outcome
  end.

Definition optimize_imports (source : str) (module_imports : dict (list str))
    : result (dict (list str)) :=
  for_each (optimize_step source) module_imports [].

(** An import one of whose symbols is among the names the source
    loads. *)
Definition used (module_symbols : gset str) (imp : str) : bool :=
  match extract_used_symbols imp with
  | inr symbols => bool_decide (symbols ∩ module_symbols ≠ ∅)
  | inl _ => false
  end.

(** The mapping with, of every list, the imports that are used. *)
Definition filtered (module_symbols : gset str) (d : dict (list str))
    : dict (list str) :=
  prod_map id (filter (fun imp => used module_symbols imp = true)) <$> d.

End symbols.

(** The state the search of [_resolve_circular_dependencies] works on:
    the lists [visited] and [recursion_stack] of zeros and ones, and the
    cycles found. *)
Record search : Type := {
  visited : list nat;
  recursion_stack : list nat;
  cycles : list (list str)
}.

Section resolving.

Variable module_imports : dict (list str).

(** [list(module_imports.keys())] *)
Definition modules : list str := module_imports.*1.

(** [{name: i for i, name in enumerate(modules)}] *)
Definition module_indices : gmap str nat :=
  foldl (fun indices '(i, name) => <[name := i]> indices) ∅ (enumerate modules).

(** [matrix[i][j] = 1] *)
Definition set_entry (matrix : list (list nat)) (i j : nat) : list (list nat) :=
  match matrix !! i with
  | Some row => <[i := <[j := 1]> row]> matrix
  | None => matrix
  end.

(** The loops that fill the matrix. Every module is a key of
    [module_indices], and the indices are below [n]. *)
Definition fill_row (matrix : list (list nat)) (item : str * list str)
    : list (list nat) :=
  let '(module, imports) := item in
  match module_indices !! module with
  | Some i =>
      foldl (fun matrix imp =>
               match module_indices !! imp with
               | Some j => set_entry matrix i j
               | None => matrix
               end)
            matrix imports
  | None => matrix
  end.

Definition matrix : list (list nat) :=
  let n := length modules in
  foldl fill_row (replicate n (replicate n 0)) module_imports.

(** [matrix[node][neighbor] == 1] *)
Definition adjacent (node neighbor : nat) : bool :=
  bool_decide (matrix !! node ≫= (.!! neighbor) = Some 1).

(** The inner function [dfs]. The loop over [range(n)] has
    [modules[neighbor]] at hand with [neighbor]. [fuel] bounds the depth
    of the calls, and [None] is a search cut short for want of it. *)
Fixpoint dfs (fuel : nat) (node : nat) (path : list str) (st : search)
    : option search :=
  match fuel with
  | O => None
  | S fuel' =>
      let st := {| visited := <[node := 1]> (visited st);
                   recursion_stack := <[node := 1]> (recursion_stack st);
                   cycles := cycles st |} in
      st ← foldl (fun (acc : option search) '(neighbor, name) =>
                    st ← acc;
                    if adjacent node neighbor then
                      if bool_decide (recursion_stack st !! neighbor = Some 1) then
                        let cycle := path ++ [name] in
                        if bool_decide (cycle ∈ cycles st) then Some st
                        else Some {| visited := visited st;
                                     recursion_stack := recursion_stack st;
                                     cycles := cycles st ++ [cycle] |}
                      else if bool_decide (visited st !! neighbor = Some 0)
                      then dfs fuel' neighbor (path ++ [name]) st
                      else Some st
                    else Some st)
                 (Some st) (enumerate modules);
      Some {| visited := visited st;
              recursion_stack := <[node := 0]> (recursion_stack st);
              cycles := cycles st |}
  end.

(** The loop that starts the search at every module not yet visited,
    with fuel for as many calls as there are modules. *)
Definition find_cycles : option (list (list str)) :=
  let n := length modules in
  cycles <$>
    foldl (fun (acc : option search) '(i, name) =>
             st ← acc;
             if bool_decide (visited st !! i = Some 0) then dfs n i [name] st
             else Some st)
          (Some {| visited := replicate n 0; recursion_stack := replicate n 0;
                   cycles := [] |})
          (enumerate modules).

(** A key imports another key. *)
Definition imports_of (a b : str) : Prop :=
  exists imports, (a, imports) ∈ module_imports /\ b ∈ imports /\ b ∈ modules.

(** The modules on the recursion stack reach the module the search is
    at. *)
Definition stack_reaches (st : search) (b : str) : Prop :=
  forall x, recursion_stack st !! x = Some 1 ->
    exists a, modules !! x = Some a /\ rtc imports_of a b.

End resolving.

(** The body of the loop over the places of a cycle: the fewest imports
    so far, [None] for infinity, and the link that has them. *)
Definition weakest_step (module_imports : dict (list str)) (cycle : list str)
    (st : option nat * (str * str)) (i : nat) : result (option nat * (str * str)) :=
  from_module ← getitem cycle (Z.of_nat i);
  to_module ← getitem cycle (Z.of_nat ((i + 1) mod length cycle));
  let count := length (default [] (dict_get module_imports from_module)) in
  match st.1 with
  | Some min_imports =>
      if bool_decide (count < min_imports)
      then mret (Some count, (from_module, to_module))
      else mret st
  | None => mret (Some count, (from_module, to_module))
  end.

(** The body of the loop over the cycles: the weakest link of the cycle
    is removed where it is still there. *)
Definition break_cycle (module_imports : dict (list str)) (cycle : list str)
    : result (dict (list str)) :=
  first ← getitem cycle 0;
  second ← getitem cycle 1;
  '(_, weakest_link) ←
    for_each (weakest_step module_imports cycle) (seq 0 (length cycle))
      (None, (first, second));
  let imports := default [] (dict_get module_imports weakest_link.1) in
  if bool_decide (weakest_link.2 ∈ imports)
  then mret (dict_set module_imports weakest_link.1
               (list_remove weakest_link.2 imports))
  else mret module_imports.

(** [_resolve_circular_dependencies]: [None] where the search is cut
    short, else what the loop over the cycles raises or returns. *)
Definition _resolve_circular_dependencies (module_imports : dict (list str))
    : option (result (dict (list str))) :=
  found ← find_cycles module_imports;
  Some (for_each break_cycle found module_imports).

(** What [_resolve_circular_dependencies] keeps of a mapping: the keys in
    their order, and of every list of imports a sublist. *)
Definition pruned (d' d : dict (list str)) : Prop :=
  Forall2 (fun item' item => item'.1 = item.1 /\ sublist item'.2 item.2) d' d.

(** A cycle of two names at least. *)
Definition long (cycle : list str) : Prop := 2 <= length cycle.

(** The places of a list of zeros and ones that hold a zero. *)
Definition zeros (l : list nat) : nat := length (filter (fun x => x = 0) l).

(** What [dependency_graph.successors(module_name)] does: it gives the
    successors, or raises a [KeyError] or a [TypeError], which
    [reorganize_imports] catches, or raises another exception. *)
Inductive graph_answer (E : Type) : Type :=
  | Successors (dependencies : list str)
  | Caught
  | Raised (e : E).
Global Arguments Successors {E} dependencies.
Global Arguments Caught {E}.
Global Arguments Raised {E} e.

Section reorganizing.

Context {E : Type}.

(** The graph, as far as [reorganize_imports] uses it. *)
Variable successors : str -> graph_answer E.

(** The body of the loop over the modules. *)
Definition reorganize_step (module_imports : dict (list str)) (module : ModuleInfo)
    : E + dict (list str) :=
  let module_name := name module in
  match successors module_name with
  | Successors dependencies =>
      let required_imports :=
        foldl (fun required dep => required ++ [dep]) [] dependencies in
      inr (dict_set module_imports module_name required_imports)
  | Caught => inr (dict_set module_imports module_name [])
  | Raised e => inl e
  end.

Fixpoint required_imports (modules : list ModuleInfo)
    (module_imports : dict (list str)) : E + dict (list str) :=
  match modules with
  | [] => inr module_imports
  | module :: modules' =>
      match reorganize_step module_imports module with
      | inl e => inl e
      | inr module_imports => required_imports modules' module_imports
      end
  end.

(** [reorganize_imports]: the exception of the graph, or what
    [_resolve_circular_dependencies] makes of the mapping. *)
Definition reorganize_imports (modules : list ModuleInfo)
    : E + option (result (dict (list str))) :=
  match required_imports modules [] with
  | inl e => inl e
  | inr module_imports => inr (_resolve_circular_dependencies module_imports)
  end.

(** The imports [reorganize_imports] starts from for a module. *)
Definition direct_imports (module_name : str) : list str :=
  match successors module_name with
  | Successors dependencies => dependencies
  | _ => []
  end.

End reorganizing.

End import_manager.

(** ** src/core/types.py: the result of the analysis *)
Module results.

Import dependency_analyzer.

Record FileInfo : Type := {
  file_path : str;
  file_size : Z;
  file_name : str;
  file_stem : str
}.

(** The dictionary [analyze] returns. *)
Record AnalysisResult : Type := {
  result_modules : list ModuleInfo;
  result_dependencies : DiGraph;
  result_symbols : gmap str import_analyzer.symbol;
  result_file_info : FileInfo
}.

(** The graph holds the dictionaries of the modules themselves, and the
    semantic stage fills these in place: when [analyze] returns, a node
    carries its module as filled. *)
Definition filled (modules_with_semantics : list ModuleInfo) (g : DiGraph) : DiGraph :=
  foldl (fun g module => add_node g (name module) module) g modules_with_semantics.

End results.

(** ** src/analyzer/code_analyzer.py *)
Module code_analyzer.

Import results.

Section analysis.

(** [ast.parse], [ast.get_docstring] and the tables of [core.config]. *)
Variable ast_parse : str -> result node.
Variable ast_get_docstring : node -> option str.
Variable COMPILED_BOUNDARY_PATTERNS : list Re.regex.
Variable MODULE_PURPOSE_INDICATORS : list (str * list str).

(** [CodeAnalyzer.analyze] on the source the analyzer has read;
    [file_info] is what the path and the file system give for it. *)
Definition analyze (source_code : str) (file_info : FileInfo) : result AnalysisResult :=
  symbol_table ← import_analyzer.analyze_imports ast_parse source_code;
  modules ←
    module_detector.detect_module_boundaries ast_parse COMPILED_BOUNDARY_PATTERNS
      source_code;
  dependencies ← dependency_analyzer.build_dependency_graph ast_parse modules;
  modules_with_semantics ←
    semantic_analyzer.extract_semantic_purpose ast_parse ast_get_docstring
      MODULE_PURPOSE_INDICATORS modules;
  mret {| result_modules := modules_with_semantics;
          result_dependencies := filled modules_with_semantics dependencies;
          result_symbols := symbol_table;
          result_file_info := file_info |}.

End analysis.

End code_analyzer.

(** ** src/analyzer.py

    The class [CodeAnalyzer] of this file repeats the analysis of the
    package in one piece; its tables are the ones [core.config] is asked
    for, and its boundary detection is embedded next to them. *)
Module analyzer.

Import Re.
Local Open Scope Z_scope.

(** The rule characters of the dividers: the hyphen, U+2500 and U+2550. *)
Definition is_rule_char (c : N) : bool := bool_decide (c ∈ [45; 9472; 9552]%N).

Definition is_alnum_ascii (c : N) : bool := is_letter c || is_digit c.

(** A parenthesised part, as group 1, that may be missing. *)
Definition optional_parens : regex :=
  opt (Group 1 (seqs [chr 40; Star false dot; chr 41])).

Section patterns.

(** The alphanumeric code points beyond ASCII, for the word class. *)
Variable unicode_alnum : N -> bool.

(** The five patterns, in the order of the list: the standard divider,
    the box divider, the title divider, the class definition and the
    decorated function group. *)
Definition MODULE_BOUNDARY_PATTERNS : list regex :=
  [ seqs [lit (py "# "); at_least_2 (Chr is_rule_char); Star false dot;
          at_least_2 (Chr is_rule_char)];
    seqs [lit (py "# "); chr 9581; Star false dot; chr 9582; Star true (Chr isspace);
          lit (py "# "); chr 9474; Star false dot; chr 9474; Star true (Chr isspace);
          lit (py "# "); chr 9584; Star false dot; chr 9583];
    seqs [at_least_3 (chr 35); Star true (Chr isspace);
          Group 1 (plus true (Chr (fun c => is_ident_char c || (c =? 32)%N)));
          Star true (Chr isspace); at_least_3 (chr 35)];
    seqs [lit (py "class "); Chr is_upper; Star true (Chr is_alnum_ascii);
          optional_parens; chr 58];
    seqs [chr 64; plus true (Chr (is_word unicode_alnum)); Star true (Chr isspace);
          optional_parens; Star true (Chr isspace); plus true (chr nl);
          lit (py "def ")] ].

(** [any(re.match(p, line) for p in MODULE_BOUNDARY_PATTERNS)] *)
Definition matches_any (line : str) : bool :=
  existsb (fun p => matches p line) MODULE_BOUNDARY_PATTERNS.

Definition section_boundaries_of (lines : list str) : list Z :=
  '(i, line) ← enumerate lines;
  (fun _ => Z.of_nat i) <$>
    List.filter (fun p => matches p line) MODULE_BOUNDARY_PATTERNS.

(** [node.parent]: [ast.parse] gives its nodes no such attribute, and
    reading it raises. *)
Definition node_parent (n : node) : result node := raise AttributeError.

(** The body of the loop over [ast.walk(self.tree)]. *)
Definition definition_step (class_funcs : list Z) (n : node) : result (list Z) :=
  match module_detector.definition_name n with
  | Some name =>
      if negb (startswith name (py "_")) then
        parent ← node_parent n;
        if module_detector.is_Module parent
        then mret (class_funcs ++ [module_detector.definition_lineno n - 1])
        else mret class_funcs
      else mret class_funcs
  | None => mret class_funcs
  end.

(** The first expansion loop with [start_line = n > 0]. *)
Fixpoint expand_start (n : nat) (lines : list str) : result Z :=
  match n with
  | O => mret 0
  | S k =>
      line ← getitem lines (Z.of_nat k);
      if bool_decide (strip line ≠ []) && negb (matches_any line)
      then expand_start k lines
      else mret (Z.of_nat (S k))
  end.

(** The second expansion loop; [fuel] is [len(lines) - 1 - end_line]. *)
Fixpoint expand_end (fuel : nat) (end_line : Z) (lines : list str) : result Z :=
  match fuel with
  | O => mret end_line
  | S fuel' =>
      line ← getitem lines (end_line + 1);
      if bool_decide (strip line ≠ []) then
        let end_line := end_line + 1 in
        at_boundary ←
          (if bool_decide (end_line + 1 < Z.of_nat (length lines))
           then after ← getitem lines (end_line + 1); mret (matches_any after)
           else mret false);
        if (at_boundary : bool) then mret end_line
        else expand_end fuel' end_line lines
      else mret end_line
  end.

(** The body of the loop over the groups. *)
Definition module_of_group (lines : list str) (i : nat) (group : list Z)
    : result ModuleInfo :=
  start_line ← getitem group 0;
  end_line ← getitem group (-1);
  start_line ←
    (if bool_decide (start_line > 0) then expand_start (Z.to_nat start_line) lines
     else mret start_line);
  end_line ←
    expand_end (Z.to_nat (Z.of_nat (length lines) - 1 - end_line)) end_line lines;
  let content := join [nl] (slice lines start_line (end_line + 1)) in
  let name :=
    module_detector._extract_module_name content (py "module_" ++ str_of_nat i) in
  mret {| name := name; start_line := start_line; end_line := end_line;
          content := content; purpose := None; docstring := None;
          functions := None; classes := None |}.

(** [CodeAnalyzer._detect_module_boundaries] on the fields [source_code]
    and [tree] of the analyzer; the result is [self.modules], empty
    before the call. *)
Definition _detect_module_boundaries (source_code : str) (tree : node)
    : result (list ModuleInfo) :=
  let lines := split nl source_code in
  let section_boundaries := section_boundaries_of lines in
  class_funcs ← for_each definition_step (walk tree) [];
  let all_boundaries := sorted_set (section_boundaries ++ class_funcs) in
  let grouped := module_detector._group_related_boundaries all_boundaries 10 in
  mapM (fun '(i, group) => module_of_group lines i group) (enumerate grouped).

(** What the module at place [i] of the result has to do with its group
    of boundaries. Its start is the line the first loop stops at: from
    the first boundary up over lines that are not blank and match no
    pattern, to line 0 or to below a line that is blank or matches a
    pattern. Its end is the line the second loop stops at: from the last
    boundary down over lines that are not blank, of which only the first
    may match a pattern, to the last line of the file, to above a blank
    line, or, once it has moved, to above a line that matches a pattern.
    Its content is the lines from its start to its end, and its name is
    derived from that content. *)
Definition spans (lines : list str) (i : nat) (group : list Z) (m : ModuleInfo)
    : Prop :=
  exists first final,
    head group = Some first /\ last group = Some final /\
    0 <= start_line m <= first /\ final <= end_line m < Z.of_nat (length lines) /\
    (forall k line, start_line m <= k < first -> lines !! Z.to_nat k = Some line ->
       strip line <> [] /\ matches_any line = false) /\
    (start_line m = 0 \/
     exists line, lines !! Z.to_nat (start_line m - 1) = Some line /\
       (strip line = [] \/ matches_any line = true)) /\
    (forall k line, final < k <= end_line m -> lines !! Z.to_nat k = Some line ->
       strip line <> [] /\
       (final + 1 < k -> matches_any line = false)) /\
    (end_line m = Z.of_nat (length lines) - 1 \/
     exists line, lines !! Z.to_nat (end_line m + 1) = Some line /\
       (strip line = [] \/
        (final < end_line m /\ matches_any line = true))) /\
    content m
      = join [nl] (take (Z.to_nat (end_line m + 1 - start_line m))
                        (drop (Z.to_nat (start_line m)) lines)) /\
    name m
      = module_detector._extract_module_name (content m) (py "module_" ++ str_of_nat i).

End patterns.

(** What [CodeAnalyzer._build_dependency_graph] takes as referenced, the
    loaded names, and as defined, the classes, the functions and the
    plain targets of assignments. *)
Definition loaded_step (referenced_names : gset str) (n : node) : gset str :=
  match n with
  | Name id Load => {[ id ]} ∪ referenced_names
  | _ => referenced_names
  end.

Definition bound_step (defined_names : gset str) (n : node) : gset str :=
  match n with
  | FunctionDef name _ _ _ _ _ _ _ => {[ name ]} ∪ defined_names
  | ClassDef name _ _ _ _ _ _ => {[ name ]} ∪ defined_names
  | Assign targets _ =>
      foldl (fun acc target => dependency_analyzer.target_name target ∪ acc)
            defined_names targets
  | _ => defined_names
  end.

Section graph.

Import dependency_analyzer.

Variable ast_parse : str -> result node.

(** The body of the inner loop. *)
Definition edge_step (i : nat) (module : ModuleInfo) (referenced_names : gset str)
    (dependencies : DiGraph) (entry : nat * ModuleInfo) : result DiGraph :=
  let '(j, other_module) := entry in
  if bool_decide (i = j) then mret dependencies
  else
    other_ast ← ast_parse (content other_module);
    let defined_names := foldl bound_step ∅ (walk other_ast) in
    if bool_decide (referenced_names ∩ defined_names ≠ ∅)
    then mret (add_edge dependencies (name module) (name other_module))
    else mret dependencies.

(** The body of the outer loop. *)
Definition module_step (modules : list ModuleInfo) (dependencies : DiGraph)
    (entry : nat * ModuleInfo) : result DiGraph :=
  let '(i, module) := entry in
  module_ast ← ast_parse (content module);
  let referenced_names := foldl loaded_step ∅ (walk module_ast) in
  for_each (edge_step i module referenced_names) (enumerate modules) dependencies.

(** [CodeAnalyzer._build_dependency_graph] on the field [modules]; the
    result is the field [dependencies], an empty graph before the call. *)
Definition _build_dependency_graph (modules : list ModuleInfo) : result DiGraph :=
  let dependencies :=
    foldl (fun g module => add_node g (name module) module) empty_graph modules in
  for_each (module_step modules) (enumerate modules) dependencies.

End graph.

(** [CodeAnalyzer._analyze_imports] on the field [tree]; the result is the
    field [symbol_table], empty before the call. *)
Definition _analyze_imports (tree : node) : gmap str import_analyzer.symbol :=
  foldl import_analyzer.import_step ∅ (walk tree).

Definition MODULE_PURPOSE_INDICATORS : list (str * list str) :=
  [ (py "util", [py "utility"; py "helper"; py "tool"; py "common"]);
    (py "model", [py "model"; py "entity"; py "data class"; py "schema"; py "structure"]);
    (py "service", [py "service"; py "manager"; py "handler"; py "processor"]);
    (py "controller", [py "controller"; py "view"; py "endpoint"; py "route"]);
    (py "config", [py "config"; py "setting"; py "parameter"; py "environment"]) ].

Section semantics.

Import results semantic_analyzer.

Variable ast_parse : str -> result node.
Variable ast_get_docstring : node -> option str.
Variable unicode_alnum : N -> bool.

(** [CodeAnalyzer._infer_purpose], over the table of this file. *)
Definition _infer_purpose (content name : str) : str :=
  match List.find (fun '(_, indicators) =>
                     existsb (fun indicator => contains indicator (lower name)) indicators)
                  MODULE_PURPOSE_INDICATORS with
  | Some (purpose, _) => title purpose ++ py " module for " ++ replace 95 32 name
  | None =>
      if contains (py "class") content && contains (py "def __init__") content
      then py "Defines the " ++ title (replace 95 32 name) ++ py " entity"
      else if bool_decide (3 < count (py "def ") content)%nat
      then py "Provides " ++ replace 95 32 name ++ py " functionality"
      else py "Handles " ++ replace 95 32 name ++ py " operations"
  end.

(** The body of the loop over the children of the parsed fragment: the
    functions and the classes found so far. *)
Definition member_step (members : list FunctionInfo * list ClassInfo) (n : node)
    : list FunctionInfo * list ClassInfo :=
  match n with
  | FunctionDef name params _ _ _ _ _ lineno =>
      (members.1 ++ [{| fn_name := name; fn_lineno := lineno; fn_args := params;
                        fn_docstring := default [] (ast_get_docstring n) |}],
       members.2)
  | ClassDef name _ _ body _ _ lineno =>
      (members.1,
       members.2 ++ [{| cls_name := name; cls_lineno := lineno;
                        cls_methods := omap method_name body;
                        cls_docstring := default [] (ast_get_docstring n) |}])
  | _ => members
  end.

(** The body of the loop of [_extract_semantic_purpose]: purpose and
    docstring first, then the parse of the content. *)
Definition with_purpose (module : ModuleInfo) : result ModuleInfo :=
  let content := content module in
  let '(purpose, docstring) :=
    match re_search docstring_re content with
    | Some docstring_match =>
        let docstring := strip (group docstring_match 1) in
        (strip (default [] (head (split nl docstring))), Some docstring)
    | None =>
        match re_search comment_re content with
        | Some comment_match =>
            (strip (group comment_match 1), types.docstring module)
        | None => (_infer_purpose content (name module), types.docstring module)
        end
    end in
  module_ast ← ast_parse content;
  let members := foldl member_step ([], []) (iter_child_nodes module_ast) in
  mret {| name := name module; start_line := start_line module;
          end_line := end_line module; content := content;
          purpose := Some purpose; docstring := docstring;
          functions := Some members.1; classes := Some members.2 |}.

Definition _extract_semantic_purpose (modules : list ModuleInfo)
    : result (list ModuleInfo) :=
  mapM with_purpose modules.

(** [CodeAnalyzer.analyze], called once, on the fields [source_code] and
    [tree] that [__init__] has set; [file_info] is what the path and the
    file system give. *)
Definition analyze (source_code : str) (tree : node) (file_info : FileInfo)
    : result AnalysisResult :=
  let symbol_table := _analyze_imports tree in
  modules ← _detect_module_boundaries unicode_alnum source_code tree;
  dependencies ← _build_dependency_graph ast_parse modules;
  modules_with_semantics ← _extract_semantic_purpose modules;
  mret {| result_modules := modules_with_semantics;
          result_dependencies := filled modules_with_semantics dependencies;
          result_symbols := symbol_table;
          result_file_info := file_info |}.

End semantics.

End analyzer.

(** ** Scenarios

    Concrete sources, with the trees [ast.parse] builds for them. *)
Module scenarios.

(** A parser known on the texts of a table; every other text counts as
    rejected with [SyntaxError]. *)
Definition table_parse (table : list (str * result node)) (source : str)
    : result node :=
  match List.find (fun entry => bool_decide (entry.1 = source)) table with
  | Some entry => entry.2
  | None => raise SyntaxError
  end.

(** A Unicode table that counts nothing beyond ASCII as alphanumeric; the
    texts below are ASCII. *)
Definition ascii_only : N -> bool := fun _ => false.

(** No node below carries a docstring. *)
Definition no_docstring : node -> option str := fun _ => None.

Definition candidate (name content : str) : ModuleInfo :=
  {| name := name; start_line := 0; end_line := 0; content := content;
     purpose := None; docstring := None; functions := None; classes := None |}.

(** A file with no divider and no definition: two statements. *)
Definition plain_source : str := py "x = 1" ++ [nl] ++ py "print(x)".
Definition plain_tree : node :=
  Module [ Assign [Name (py "x") Store] (Other []);
           Other [Call (Name (py "print") Load) [Name (py "x") Load] []] ].

(** A file with one public function. *)
Definition function_source : str := py "def f():" ++ [nl] ++ py "    pass".
Definition function_tree : node :=
  Module [ FunctionDef (py "f") [] (Other []) [Other []] [] None [] 1 ].

(** The two imports of the symbol table scenario. *)
Definition imports_source : str :=
  py "import os" ++ [nl] ++ py "from json import dumps as d".
Definition imports_tree : node :=
  Module [ Import [Alias (py "os") None] 1;
           ImportFrom (Some (py "json")) [Alias (py "dumps") (Some (py "d"))] 2 ].

(** A class [Foo] and a boxed header labelled Widgets. *)
Definition class_and_header : str :=
  py "# " ++ [module_detector.box_vertical] ++ py " Widgets "
    ++ [module_detector.box_vertical] ++ [nl]
    ++ py "class Foo:" ++ [nl] ++ py "    pass".

(** The dependency scenario: one module calls [helper], the other
    defines it. *)
Definition caller_content : str := py "result = helper(x)".
Definition caller_tree : node :=
  Module [ Assign [Name (py "result") Store]
             (Call (Name (py "helper") Load) [Name (py "x") Load] []) ].
Definition helper_content : str := py "def helper(x):" ++ [nl] ++ py "    return x".
Definition helper_tree : node :=
  Module [ FunctionDef (py "helper") [py "x"] (Other [Other []])
             [Other [Name (py "x") Load]] [] None [] 1 ].
Definition helper_table : list (str * result node) :=
  [ (caller_content, inr caller_tree); (helper_content, inr helper_tree) ].
Definition helper_modules : list ModuleInfo :=
  [ candidate (py "module_0") caller_content; candidate (py "helper") helper_content ].

(** Two candidate modules that both take the name of the class
    [Widget]: one defines it, the other mentions it in a comment and
    calls it. *)
Definition widget_class : str := py "class Widget:" ++ [nl] ++ py "    pass".
Definition widget_class_tree : node :=
  Module [ ClassDef (py "Widget") [] [] [Other []] [] [] 1 ].
Definition widget_user : str :=
  py "# helpers for class Widget" ++ [nl] ++ py "def make():" ++ [nl]
    ++ py "    return Widget()".
Definition widget_user_tree : node :=
  Module [ FunctionDef (py "make") [] (Other [])
             [Other [Call (Name (py "Widget") Load) [] []]] [] None [] 2 ].
Definition widget_table : list (str * result node) :=
  [ (widget_class, inr widget_class_tree); (widget_user, inr widget_user_tree) ].
Definition widget_modules : list ModuleInfo :=
  [ candidate (module_detector._extract_module_name widget_class (py "module_0"))
      widget_class;
    candidate (module_detector._extract_module_name widget_user (py "module_1"))
      widget_user ].

(** A fragment that does not parse: an [else] with no [if]. *)
Definition dangling_else : str := py "else:".
Definition dangling_modules : list ModuleInfo :=
  [ candidate (py "module_0") dangling_else ].

(** A fragment that is an empty docstring and nothing else: six double
    quotes. Its tree is an expression statement of a constant. *)
Definition empty_docstring : str := [34; 34; 34; 34; 34; 34]%N.
Definition empty_docstring_tree : node := Module [ Other [Other []] ].

(** Texts that are no source: one with a lone surrogate, U+D800, on which
    [ast.parse] raises [UnicodeEncodeError], a [ValueError], and one with
    a null character, on which it raises [ValueError] before Python 3.12. *)
Definition lone_surrogate : str := [55296%N].
Definition null_character : str := [0%N].
Definition unreadable_table : list (str * result node) :=
  [ (lone_surrogate, inl ValueError); (null_character, inl ValueError) ].

(** A fragment with a leading comment. *)
Definition commented : str := py "# Helper functions" ++ [nl] ++ py "x = 1".
Definition commented_tree : node :=
  Module [ Assign [Name (py "x") Store] (Other []) ].

(** A file of one divider and two statements, and what the file system
    tells about it. *)
Definition divided_source : str :=
  py "# ---- setup ----" ++ [nl] ++ py "x = 1" ++ [nl] ++ py "y = x".
Definition divided_tree : node :=
  Module [ Assign [Name (py "x") Store] (Other []);
           Assign [Name (py "y") Store] (Name (py "x") Load) ].
Definition divided_table : list (str * result node) :=
  [ (divided_source, inr divided_tree) ].
Definition divided_file : results.FileInfo :=
  {| results.file_path := py "plan.py"; results.file_size := 29;
     results.file_name := py "plan.py"; results.file_stem := py "plan" |}.

(** An import inside a conditional on line 2, and an import of the same
    local name at the top level on line 3. *)
Definition nested_import_source : str :=
  py "if flag:" ++ [nl] ++ py "    import json as j" ++ [nl]
    ++ py "import simplejson as j".
Definition nested_import_tree : node :=
  Module [ Other [ Name (py "flag") Load;
                   Import [Alias (py "json") (Some (py "j"))] 2 ];
           Import [Alias (py "simplejson") (Some (py "j"))] 3 ].

(** The divided file with its divider on the second line. *)
Definition preceded_source : str :=
  py "x = 1" ++ [nl] ++ py "# ---- setup ----" ++ [nl] ++ py "y = x".

(** Mappings of imports: one in layers, with an import that is no key,
    and one where two modules import each other. *)
Definition layered_imports : dict (list str) :=
  [ (py "app", [py "core"; py "os"]); (py "core", []) ].
Definition mutual_imports : dict (list str) :=
  [ (py "a", [py "b"]); (py "b", [py "a"; py "c"]); (py "c", []) ].

(** A graph that knows the caller of the dependency scenario and no
    other module, and one that fails at the helper. *)
Definition caller_graph : str -> import_manager.graph_answer unit :=
  fun module_name =>
    if bool_decide (module_name = py "module_0")
    then import_manager.Successors [py "helper"]
    else import_manager.Caught.
Definition failing_graph : str -> import_manager.graph_answer unit :=
  fun module_name =>
    if bool_decide (module_name = py "module_0")
    then import_manager.Successors [py "helper"]
    else import_manager.Raised tt.

(** The imports of a module of the plain file: a name the file loads,
    and one it does not. *)
Definition plain_imports : dict (list str) :=
  [ (py "module_0", [py "x"; py "os"]) ].

End scenarios.

(** * Properties *)

(** ** Loops that may raise *)

Lemma for_each_app {A B} (f : B -> A -> result B) (l1 l2 : list A) (acc : B) :
  for_each f (l1 ++ l2) acc = for_each f l1 acc ≫= for_each f l2.
Proof.
  revert acc. induction l1 as [|x l1 IH]; intros acc; simpl; [done|].
  destruct (f acc x) as [e|acc']; simpl; [done|]. apply IH.
Qed.

(** A property of the accumulator that every round keeps holds when the
    loop returns. *)
Lemma for_each_invariant {A B} (I : B -> Prop) (f : B -> A -> result B)
    (l : list A) (acc r : B) :
  I acc ->
  (forall b x b', x ∈ l -> I b -> f b x = inr b' -> I b') ->
  for_each f l acc = inr r -> I r.
Proof.
  revert acc. induction l as [|x l IH]; intros acc Hacc Hstep; simpl.
  - intros [= <-]. done.
  - destruct (f acc x) as [e|acc'] eqn:Hf; simpl; [done|].
    apply IH.
    + eapply Hstep; [left | done | done].
    + intros b y b' Hy. apply Hstep. by right.
Qed.

(** A loop none of whose rounds changes the accumulator returns it. *)
Lemma for_each_unchanged {A B} (f : B -> A -> result B) (l : list A) (acc : B) :
  Forall (fun x => f acc x = inr acc) l -> for_each f l acc = inr acc.
Proof.
  induction 1 as [|x l Hx _ IH]; simpl; [done|]. rewrite Hx. simpl. apply IH.
Qed.

Lemma elem_of_enumerate {A} (l : list A) (i : nat) (x : A) :
  (i, x) ∈ enumerate l <-> l !! i = Some x.
Proof.
  unfold enumerate. rewrite elem_of_lookup_imap. split.
  - intros (j & y & [= -> ->] & Hy). done.
  - intros H. by exists i, x.
Qed.

Lemma enumerate_cons {A} (x : A) (l : list A) :
  enumerate (x :: l) = (0, x) :: (prod_map S id <$> enumerate l).
Proof.
  unfold enumerate. simpl. f_equal. rewrite fmap_imap. apply imap_ext.
  by intros i y _.
Qed.

(** ** Grouping of boundaries *)
Section grouping.

Import module_detector.
Local Open Scope Z_scope.

Lemma group_related_close (bs : list Z) (t : Z) :
  _group_related_boundaries bs t = close (foldl (group_step t) ([], []) bs).
Proof.
  unfold _group_related_boundaries, close.
  by destruct (foldl (group_step t) ([], []) bs) as [grouped [|b current]].
Qed.

(** After a boundary the current group ends with it. *)
Lemma group_step_last (t : Z) (st : list (list Z) * list Z) (b : Z) :
  last (group_step t st b).2 = Some b.
Proof.
  destruct st as [grouped current]. unfold group_step.
  destruct (last current) as [prev|]; [case_bool_decide|]; simpl;
    by rewrite ?last_snoc.
Qed.

(** C6. Walking the boundaries, grouping starts a new group exactly when
    the gap to the boundary before is at least the threshold, and extends
    the current group otherwise: no boundary gives no group, the first
    boundary opens a group, and a boundary [b] that follows [p] either
    joins the group that ends with [p] or opens the next one. With the
    threshold 10 the boundaries 2, 5, 20, 22 fall into the groups [2, 5]
    and [20, 22]. *)
Theorem grouping_by_proximity :
  (forall t, _group_related_boundaries [] t = []) /\
  (forall t b, _group_related_boundaries [b] t = [[b]]) /\
  (forall t bs p b, exists init g,
     _group_related_boundaries (bs ++ [p]) t = init ++ [g] /\
     last g = Some p /\
     _group_related_boundaries (bs ++ [p; b]) t =
       if bool_decide (b - p >= t) then init ++ [g; [b]] else init ++ [g ++ [b]]) /\
  _group_related_boundaries [2; 5; 20; 22] proximity_threshold_default
    = [[2; 5]; [20; 22]].
Proof.
  split; [done|]. split; [done|]. split; [|done].
  intros t bs p b.
  assert (Hsnoc : bs ++ [p; b] = (bs ++ [p]) ++ [b]) by by rewrite <- app_assoc.
  rewrite Hsnoc, !group_related_close, (foldl_app _ (bs ++ [p])). simpl.
  pose proof (group_step_last t (foldl (group_step t) ([], []) bs) p) as Hlast.
  rewrite (foldl_app _ bs) in *. simpl in *.
  destruct (group_step t (foldl (group_step t) ([], []) bs) p)
    as [grouped current] eqn:Hst.
  simpl in Hlast. exists grouped, current.
  destruct current as [|c current]; [done|].
  split; [done|]. split; [done|].
  unfold group_step. rewrite Hlast.
  repeat case_bool_decide; try lia; unfold close; simpl.
  - done.
  - by rewrite <- app_assoc.
Qed.

End grouping.

(** The exception a loop raises is raised by one of its rounds. *)
Lemma for_each_inl {A B} (f : B -> A -> result B) (l : list A) (acc : B) (e : exn) :
  for_each f l acc = inl e -> exists b x, x ∈ l /\ f b x = inl e.
Proof.
  revert acc. induction l as [|x l IH]; intros acc; simpl; [done|].
  destruct (f acc x) as [e'|acc'] eqn:Hx; simpl.
  - intros [= ->]. exists acc, x. split; [left|done].
  - intros (b & y & Hy & Hb)%IH. exists b, y. split; [by right|done].
Qed.

(** A loop raises when one of its rounds raises whatever the
    accumulator. *)
Lemma for_each_raises {A B} (f : B -> A -> result B) (l : list A) (acc : B) :
  (exists x, x ∈ l /\ forall b, exists e, f b x = inl e) ->
  exists e, for_each f l acc = inl e.
Proof.
  revert acc. induction l as [|x l IH]; intros acc (y & Hy & Hraise).
  - by apply elem_of_nil in Hy.
  - simpl. destruct (f acc x) as [e|acc'] eqn:Hx; simpl; [by exists e|].
    apply elem_of_cons in Hy as [->|Hy].
    + destruct (Hraise acc) as [e He]. congruence.
    + apply IH. by exists y.
Qed.

(** ** The walk visits every node *)

Lemma size_children (n : node) :
  size n = S (sum_list_with size (iter_child_nodes n)).
Proof.
  destruct n as [| | | | ? ? [v|] | | | | | |]; simpl;
    rewrite ?sum_list_with_app; simpl; try lia.
  destruct returns; simpl; lia.
Qed.

Lemma walk_queue_length (fuel : nat) (todo : list node) :
  sum_list_with size todo <= fuel ->
  length (walk_queue fuel todo) = sum_list_with size todo.
Proof.
  revert todo. induction fuel as [|fuel IH]; intros todo Hfuel.
  - destruct todo as [|n todo]; simpl in *; [done|].
    pose proof (size_children n). lia.
  - destruct todo as [|n todo]; simpl in *; [done|].
    rewrite IH; rewrite sum_list_with_app; pose proof (size_children n); lia.
Qed.

Lemma walk_length (tree : node) : length (walk tree) = size tree.
Proof. unfold walk. rewrite walk_queue_length; simpl; lia. Qed.

(** ** The definition scan *)
Section definition_scan.

Import module_detector.

Lemma definition_step_public (tree : node) (acc : list Z) (n : node) :
  is_public_definition n = true -> definition_step tree acc n = inl AttributeError.
Proof.
  unfold is_public_definition, definition_step.
  destruct (definition_name n); [|done]. by intros ->.
Qed.

Lemma definition_step_other (tree : node) (acc : list Z) (n : node) :
  is_public_definition n = false -> definition_step tree acc n = inr acc.
Proof.
  unfold is_public_definition, definition_step.
  destruct (definition_name n); [|done]. by intros ->.
Qed.

Lemma parent_step_public (acc : list Z) (n : node) :
  is_public_definition n = true -> analyzer.definition_step acc n = inl AttributeError.
Proof.
  unfold is_public_definition, analyzer.definition_step.
  destruct (definition_name n); [|done]. by intros ->.
Qed.

Lemma parent_step_other (acc : list Z) (n : node) :
  is_public_definition n = false -> analyzer.definition_step acc n = inr acc.
Proof.
  unfold is_public_definition, analyzer.definition_step.
  destruct (definition_name n); [|done]. by intros ->.
Qed.

(** C3. Where the tree holds a class or function definition with a public
    name, nested or not, the definition scan records no line: looking for
    the parent of the definition raises [AttributeError], in the scan of
    the package and in the one of [CodeAnalyzer]. *)
Theorem definition_scan_raises (tree n : node) :
  n ∈ walk tree ->
  is_public_definition n = true ->
  _find_definition_boundaries tree = inl AttributeError /\
  for_each analyzer.definition_step (walk tree) [] = inl AttributeError.
Proof.
  intros Hn Hpublic. split.
  - destruct (for_each_raises (definition_step tree) (walk tree) []) as [e He].
    { exists n. split; [done|]. intros b. eexists. by apply definition_step_public. }
    unfold _find_definition_boundaries. rewrite He.
    apply for_each_inl in He as (b & x & _ & Hx).
    destruct (is_public_definition x) eqn:Hpublic'.
    + rewrite definition_step_public in Hx by done. congruence.
    + by rewrite definition_step_other in Hx.
  - destruct (for_each_raises analyzer.definition_step (walk tree) []) as [e He].
    { exists n. split; [done|]. intros b. eexists. by apply parent_step_public. }
    rewrite He. apply for_each_inl in He as (b & x & _ & Hx).
    destruct (is_public_definition x) eqn:Hpublic'.
    + rewrite parent_step_public in Hx by done. congruence.
    + by rewrite parent_step_other in Hx.
Qed.

(** The source [def f(): pass] of one public function: the scan raises
    where line 0 was to be recorded. *)
Lemma definition_scan_raises_witness :
  _find_definition_boundaries scenarios.function_tree = inl AttributeError /\
  for_each analyzer.definition_step (walk scenarios.function_tree) []
    = inl AttributeError.
Proof.
  apply (definition_scan_raises scenarios.function_tree
           (FunctionDef (py "f") [] (Other []) [Other []] [] None [] 1)).
  - right. left.
  - reflexivity.
Defined.

(** Without such a definition the scan returns, and returns no line. *)
Lemma definition_scan_empty (tree : node) :
  Forall (fun n => is_public_definition n = false) (walk tree) ->
  _find_definition_boundaries tree = inr [] /\
  for_each analyzer.definition_step (walk tree) [] = inr [].
Proof.
  intros Hnone. split; apply for_each_unchanged; eapply Forall_impl; try done.
  - intros n. apply definition_step_other.
  - intros n. apply parent_step_other.
Qed.

End definition_scan.

(** ** Boundary detection without boundaries *)
Section no_boundary.

Import module_detector.

Lemma filter_none {A} (f : A -> bool) (l : list A) :
  existsb f l = false -> List.filter f l = [].
Proof.
  induction l as [|x l IH]; simpl; [done|].
  intros [-> Hl]%orb_false_iff. by apply IH.
Qed.

Lemma bind_nil {A B} (f : A -> list B) (l : list A) :
  Forall (fun x => f x = []) l -> l ≫= f = [].
Proof. induction 1 as [|x l Hx _ IH]; [done|]. by rewrite bind_cons, Hx, IH. Qed.

Lemma enumerate_Forall {A} (P : A -> Prop) (l : list A) :
  Forall P l -> Forall (fun entry => P entry.2) (enumerate l).
Proof.
  intros Hl. apply Forall_forall. intros [i x] Hx%elem_of_enumerate. simpl.
  eapply Forall_forall; [done|]. by eapply list_elem_of_lookup_2.
Qed.

Lemma no_section_boundary (patterns : list Re.regex) (lines : list str) :
  Forall (fun line => matches_boundary patterns line = false) lines ->
  _find_section_boundaries patterns lines = [].
Proof.
  intros Hlines. unfold _find_section_boundaries. apply bind_nil.
  eapply Forall_impl; [by apply enumerate_Forall|].
  intros [i line] Hline. cbn [snd] in Hline. cbv beta iota.
  unfold matches_boundary in Hline. by rewrite (filter_none _ _ Hline).
Qed.

Lemma no_section_boundary_analyzer (unicode_alnum : N -> bool) (lines : list str) :
  Forall (fun line => analyzer.matches_any unicode_alnum line = false) lines ->
  analyzer.section_boundaries_of unicode_alnum lines = [].
Proof.
  intros Hlines. unfold analyzer.section_boundaries_of. apply bind_nil.
  eapply Forall_impl; [by apply enumerate_Forall|].
  intros [i line] Hline. cbn [snd] in Hline. cbv beta iota.
  unfold analyzer.matches_any in Hline. by rewrite (filter_none _ _ Hline).
Qed.

(** C1, as the code has it. For a source none of whose lines matches a
    divider pattern and whose tree holds no class or function definition
    with a public name, boundary detection returns no module at all: the
    list of modules is empty, in the package and in [CodeAnalyzer]. *)
Theorem no_boundary_no_module (ast_parse : str -> result node)
    (patterns : list Re.regex) (unicode_alnum : N -> bool)
    (source_code : str) (tree : node) :
  ast_parse source_code = inr tree ->
  Forall (fun n => is_public_definition n = false) (walk tree) ->
  (Forall (fun line => matches_boundary patterns line = false)
          (split nl source_code) ->
   detect_module_boundaries ast_parse patterns source_code = inr []) /\
  (Forall (fun line => analyzer.matches_any unicode_alnum line = false)
          (split nl source_code) ->
   analyzer._detect_module_boundaries unicode_alnum source_code tree = inr []).
Proof.
  intros Hparse Hdefs.
  destruct (definition_scan_empty tree Hdefs) as [Hscan Hscan'].
  split; intros Hlines.
  - unfold detect_module_boundaries. rewrite Hparse. simpl.
    rewrite Hscan. simpl. by rewrite no_section_boundary.
  - unfold analyzer._detect_module_boundaries.
    rewrite Hscan'. simpl. by rewrite no_section_boundary_analyzer.
Qed.

(** The two statements [x = 1] and [print(x)]: no divider, no definition,
    no module. *)
Lemma no_boundary_no_module_witness :
  detect_module_boundaries
    (scenarios.table_parse [(scenarios.plain_source, inr scenarios.plain_tree)])
    (analyzer.MODULE_BOUNDARY_PATTERNS scenarios.ascii_only)
    scenarios.plain_source = inr [] /\
  analyzer._detect_module_boundaries scenarios.ascii_only
    scenarios.plain_source scenarios.plain_tree = inr [].
Proof.
  pose proof (no_boundary_no_module
    (scenarios.table_parse [(scenarios.plain_source, inr scenarios.plain_tree)])
    (analyzer.MODULE_BOUNDARY_PATTERNS scenarios.ascii_only)
    scenarios.ascii_only scenarios.plain_source scenarios.plain_tree) as H.
  destruct H as [H1 H2].
  - reflexivity.
  - vm_compute. repeat constructor.
  - split; [apply H1 | apply H2]; vm_compute; repeat constructor.
Defined.

(** C1 as stated fails on that source: the divider scan and the definition
    scan find nothing, and detection returns no module where the claim
    has one module from line 0 to the last line. *)
Lemma whole_file_module_missing :
  let lines := split nl scenarios.plain_source in
  let patterns := analyzer.MODULE_BOUNDARY_PATTERNS scenarios.ascii_only in
  let ast_parse :=
    scenarios.table_parse [(scenarios.plain_source, inr scenarios.plain_tree)] in
  ~ (_find_section_boundaries patterns lines = [] ->
     _find_definition_boundaries scenarios.plain_tree = inr [] ->
     exists m,
       detect_module_boundaries ast_parse patterns scenarios.plain_source = inr [m] /\
       start_line m = 0%Z /\
       end_line m = (Z.of_nat (length lines) - 1)%Z).
Proof.
  intros lines patterns ast_parse Hclaim.
  destruct Hclaim as (m & Hm & _); [reflexivity | reflexivity |].
  vm_compute in Hm. discriminate Hm.
Qed.

End no_boundary.

(** ** The dependency graph *)
Section dependency_graph.

Import dependency_analyzer.

Variable ast_parse : str -> result node.

(** The loops of the package and of [CodeAnalyzer] differ in the name
    sets they compare and in nothing else; the proofs about them are the
    same scripts. *)

(** A round of the inner loop raises what [ast.parse] raises on the other
    module. *)
Ltac edge_raises :=
  case_bool_decide; [done|];
  match goal with
  | |- context [ast_parse ?c] =>
      destruct (ast_parse c); cbn; [by intros [= ->] | case_bool_decide; done]
  end.

Lemma edge_step_inl (i j : nat) (module other : ModuleInfo) (refs : gset str)
    (g : DiGraph) (e : exn) :
  edge_step ast_parse i module refs g (j, other) = inl e ->
  ast_parse (content other) = inl e.
Proof. unfold edge_step. edge_raises. Qed.

Lemma analyzer_edge_step_inl (i j : nat) (module other : ModuleInfo)
    (refs : gset str) (g : DiGraph) (e : exn) :
  analyzer.edge_step ast_parse i module refs g (j, other) = inl e ->
  ast_parse (content other) = inl e.
Proof. unfold analyzer.edge_step. edge_raises. Qed.

(** What the loops raise is what [ast.parse] raises on a fragment. *)
Ltac graph_inl edge_inl :=
  let Hloop := fresh "Hloop" in
  let i := fresh "i" in let mi := fresh "mi" in
  let j := fresh "j" in let mj := fresh "mj" in
  let Hi := fresh "Hi" in let Hj := fresh "Hj" in
  intros (? & [i mi] & Hi%elem_of_enumerate & Hloop)%for_each_inl;
  cbv beta iota in Hloop;
  destruct (ast_parse (content mi)) eqn:?; cbn in Hloop;
  [ injection Hloop as ->; exists mi;
    split; [by eapply list_elem_of_lookup_2|done]
  | apply for_each_inl in Hloop as (? & [j mj] & Hj%elem_of_enumerate & Hloop);
    apply edge_inl in Hloop; exists mj;
    split; [by eapply list_elem_of_lookup_2|done] ].

Lemma build_dependency_graph_inl (modules : list ModuleInfo) (e : exn) :
  build_dependency_graph ast_parse modules = inl e ->
  exists m, m ∈ modules /\ ast_parse (content m) = inl e.
Proof. unfold build_dependency_graph, module_step. graph_inl edge_step_inl. Qed.

Lemma analyzer_build_dependency_graph_inl (modules : list ModuleInfo) (e : exn) :
  analyzer._build_dependency_graph ast_parse modules = inl e ->
  exists m, m ∈ modules /\ ast_parse (content m) = inl e.
Proof.
  unfold analyzer._build_dependency_graph, analyzer.module_step.
  graph_inl analyzer_edge_step_inl.
Qed.

(** The first round of the outer loop raises when [ast.parse] raises on a
    fragment: at the first module itself, or in the inner loop where that
    fragment is the other module. *)
Ltac first_round_raises Hm Hnone :=
  let m0 := fresh "m0" in
  let rest := fresh "rest" in
  let k := fresh "k" in
  let Hk := fresh "Hk" in
  apply for_each_raises;
  match goal with
  | |- exists x, x ∈ enumerate ?modules /\ _ =>
      destruct modules as [|m0 rest]; [by apply elem_of_nil in Hm|];
      exists (0, m0); split; [by apply elem_of_enumerate|]
  end;
  intros ?; cbv beta iota;
  destruct (ast_parse (content m0)) eqn:?; [by eexists|];
  cbn; apply for_each_raises;
  apply list_elem_of_lookup in Hm as [k Hk];
  match type of Hk with
  | _ !! _ = Some ?m =>
      exists (k, m); split; [by apply elem_of_enumerate|];
      intros ?; cbv beta iota; rewrite Hnone;
      case_bool_decide; [|by eexists];
      subst k; simpl in Hk; injection Hk as ->; congruence
  end.

Lemma build_dependency_graph_raises (modules : list ModuleInfo) (m : ModuleInfo)
    (e : exn) :
  m ∈ modules -> ast_parse (content m) = inl e ->
  raised_by_fragment ast_parse modules (build_dependency_graph ast_parse modules).
Proof.
  intros Hm Hnone.
  assert (exists e', build_dependency_graph ast_parse modules = inl e') as [e' He'].
  { unfold build_dependency_graph, module_step, edge_step.
    first_round_raises Hm Hnone. }
  destruct (build_dependency_graph_inl modules e' He') as (m' & Hm' & Hraise).
  by exists m', e'.
Qed.

Lemma analyzer_build_dependency_graph_raises (modules : list ModuleInfo)
    (m : ModuleInfo) (e : exn) :
  m ∈ modules -> ast_parse (content m) = inl e ->
  raised_by_fragment ast_parse modules
    (analyzer._build_dependency_graph ast_parse modules).
Proof.
  intros Hm Hnone.
  assert (exists e', analyzer._build_dependency_graph ast_parse modules = inl e')
    as [e' He'].
  { unfold analyzer._build_dependency_graph, analyzer.module_step, analyzer.edge_step.
    first_round_raises Hm Hnone. }
  destruct (analyzer_build_dependency_graph_inl modules e' He') as (m' & Hm' & Hraise).
  by exists m', e'.
Qed.

Lemma add_nodes_edges (modules : list ModuleInfo) (g : DiGraph) :
  edges (foldl (fun g module => add_node g (name module) module) g modules) = edges g.
Proof. revert g. induction modules as [|m modules IH]; intros g; simpl; [done|]. by rewrite IH. Qed.

(** Every edge the loops add joins two modules at different places. *)
Ltac edges_between :=
  let i := fresh "i" in let j := fresh "j" in
  let mi := fresh "mi" in let mj := fresh "mj" in
  let Hc := fresh "Hc" in
  apply for_each_invariant;
  [ intros ? ?; rewrite add_nodes_edges; simpl; set_solver
  | intros ? [i mi] ? ?%elem_of_enumerate ?; cbv beta iota;
    destruct (ast_parse (content mi)); simpl; [done|];
    apply for_each_invariant; [done|];
    intros ? [j mj] ? ?%elem_of_enumerate Hc; cbv beta iota;
    case_bool_decide; [by intros [= <-]|];
    destruct (ast_parse (content mj)); simpl; [done|];
    case_bool_decide; intros [= <-]; [|done];
    intros ? ?; simpl; rewrite elem_of_union, elem_of_singleton;
    intros [[= -> ->]|?]; [|by apply Hc];
    by exists i, j, mi, mj ].

Lemma build_dependency_graph_between (modules : list ModuleInfo) (g : DiGraph) :
  build_dependency_graph ast_parse modules = inr g -> between modules g.
Proof. unfold build_dependency_graph, module_step, edge_step. edges_between. Qed.

Lemma analyzer_build_dependency_graph_between (modules : list ModuleInfo)
    (g : DiGraph) :
  analyzer._build_dependency_graph ast_parse modules = inr g -> between modules g.
Proof.
  unfold analyzer._build_dependency_graph, analyzer.module_step, analyzer.edge_step.
  edges_between.
Qed.

(** Between modules with distinct names no edge is a self-edge. *)
Lemma between_no_self_edge (modules : list ModuleInfo) (g : DiGraph) :
  NoDup (name <$> modules) -> between modules g -> forall n, (n, n) ∉ edges g.
Proof.
  intros Hnames Hbetween n (i & j & mi & mj & Hij & Hi & Hj & Hni & Hnj)%Hbetween.
  apply Hij. eapply NoDup_lookup; [done| |].
  - rewrite list_lookup_fmap, Hi. simpl. by rewrite <- Hni.
  - rewrite list_lookup_fmap, Hj. simpl. by rewrite <- Hnj.
Qed.

End dependency_graph.

(** ** Fragments that do not parse *)
Section unparsable.

Import dependency_analyzer semantic_analyzer.

(** The stage raises on a module what [ast.parse] raises on its content,
    and nothing else. *)
Lemma with_semantics_outcome (ast_parse : str -> result node)
    (ast_get_docstring : node -> option str)
    (table : list (str * list str)) (module : ModuleInfo) :
  match ast_parse (content module) with
  | inr _ => exists module',
      with_semantics ast_parse ast_get_docstring table module = inr module'
  | inl e => with_semantics ast_parse ast_get_docstring table module = inl e
  end.
Proof.
  unfold with_semantics.
  destruct (ast_parse (content module)) as [e|tree]; [done|].
  cbn. destruct (Re.re_search docstring_re _); by eexists.
Qed.

Lemma extract_semantic_purpose_raises (ast_parse : str -> result node)
    (ast_get_docstring : node -> option str)
    (table : list (str * list str)) (modules : list ModuleInfo) (m : ModuleInfo)
    (e : exn) :
  m ∈ modules -> ast_parse (content m) = inl e ->
  raised_by_fragment ast_parse modules
    (extract_semantic_purpose ast_parse ast_get_docstring table modules).
Proof.
  intros Hm Hnone. unfold extract_semantic_purpose.
  induction modules as [|m0 rest IH]; [by apply elem_of_nil in Hm|].
  cbn.
  pose proof (with_semantics_outcome ast_parse ast_get_docstring table m0) as Hm0.
  destruct (ast_parse (content m0)) as [e0|t0] eqn:Hparse.
  - rewrite Hm0. exists m0, e0. split; [left|done].
  - destruct Hm0 as [m0' ->]. cbn.
    apply elem_of_cons in Hm as [->|Hm]; [congruence|].
    destruct (IH Hm) as (m' & e' & Hm' & Hraise & Hrest).
    cbn in Hrest. rewrite Hrest. exists m', e'. split; [by right|done].
Qed.

(** C2, as the code has it. When the fragment of one candidate module
    fails to parse in isolation, building the dependency graph raises, in
    the package and in [CodeAnalyzer], and so does the semantic-purpose
    stage: what they raise is the exception of [ast.parse] on a fragment,
    no name set is derived for the fragment and the analysis run does not
    complete. *)
Theorem unparsable_fragment_aborts (ast_parse : str -> result node)
    (ast_get_docstring : node -> option str)
    (table : list (str * list str)) (modules : list ModuleInfo) (m : ModuleInfo)
    (e : exn) :
  m ∈ modules ->
  ast_parse (content m) = inl e ->
  raised_by_fragment ast_parse modules (build_dependency_graph ast_parse modules) /\
  raised_by_fragment ast_parse modules
    (analyzer._build_dependency_graph ast_parse modules) /\
  raised_by_fragment ast_parse modules
    (extract_semantic_purpose ast_parse ast_get_docstring table modules).
Proof.
  intros Hm Hnone. split; [|split].
  - by eapply build_dependency_graph_raises.
  - by eapply analyzer_build_dependency_graph_raises.
  - by eapply extract_semantic_purpose_raises.
Qed.

(** A dangling [else:] next to the two fragments of the dependency
    scenario: the graph builders and the stage raise [SyntaxError]. *)
Lemma unparsable_fragment_aborts_witness :
  let ast_parse := scenarios.table_parse scenarios.helper_table in
  let modules := scenarios.helper_modules ++ scenarios.dangling_modules in
  (raised_by_fragment ast_parse modules (build_dependency_graph ast_parse modules) /\
   raised_by_fragment ast_parse modules
     (analyzer._build_dependency_graph ast_parse modules) /\
   raised_by_fragment ast_parse modules
     (extract_semantic_purpose ast_parse scenarios.no_docstring
        analyzer.MODULE_PURPOSE_INDICATORS modules)) /\
  build_dependency_graph ast_parse modules = inl SyntaxError /\
  analyzer._build_dependency_graph ast_parse modules = inl SyntaxError /\
  extract_semantic_purpose ast_parse scenarios.no_docstring
    analyzer.MODULE_PURPOSE_INDICATORS modules = inl SyntaxError.
Proof.
  intros ast_parse modules. split; [|repeat split; reflexivity].
  apply (unparsable_fragment_aborts ast_parse scenarios.no_docstring
           analyzer.MODULE_PURPOSE_INDICATORS modules
           (scenarios.candidate (py "module_0") scenarios.dangling_else) SyntaxError).
  - right. right. left.
  - reflexivity.
Defined.

(** C2 as stated fails on the dangling [else:]: [ast.parse] raises on the
    fragment, and the graph is not built. *)
Lemma unparsable_fragment_not_tolerated :
  scenarios.table_parse scenarios.helper_table scenarios.dangling_else
    = inl SyntaxError /\
  ~ exists g,
      build_dependency_graph (scenarios.table_parse scenarios.helper_table)
        scenarios.dangling_modules = inr g.
Proof. split; [reflexivity|]. intros [g Hg]. vm_compute in Hg. discriminate Hg. Qed.

End unparsable.

(** ** Self-edges *)
Section self_edges.

Import dependency_analyzer.

(** C4, as the code has it. Over candidate modules with pairwise distinct
    names the dependency graph holds no edge from a name to itself: every
    edge joins the names of two modules at different places of the list,
    in the graph of the package and in the one of [CodeAnalyzer]. *)
Theorem no_self_edge_for_distinct_names (ast_parse : str -> result node)
    (modules : list ModuleInfo) :
  NoDup (name <$> modules) ->
  (forall g, build_dependency_graph ast_parse modules = inr g ->
             between modules g /\ forall n, (n, n) ∉ edges g) /\
  (forall g, analyzer._build_dependency_graph ast_parse modules = inr g ->
             between modules g /\ forall n, (n, n) ∉ edges g).
Proof.
  intros Hnames. split; intros g Hg.
  - apply build_dependency_graph_between in Hg.
    split; [done|]. by eapply between_no_self_edge.
  - apply analyzer_build_dependency_graph_between in Hg.
    split; [done|]. by eapply between_no_self_edge.
Qed.

(** The dependency scenario: the caller of [helper] depends on the module
    that defines it, and that is the only edge. *)
Lemma no_self_edge_for_distinct_names_witness :
  NoDup (name <$> scenarios.helper_modules) /\
  exists g,
    build_dependency_graph (scenarios.table_parse scenarios.helper_table)
      scenarios.helper_modules = inr g /\
    edges g = {[ (py "module_0", py "helper") ]} /\
    forall n, (n, n) ∉ edges g.
Proof.
  assert (NoDup (name <$> scenarios.helper_modules)) as Hnames.
  { apply (bool_decide_unpack _). vm_compute. exact I. }
  split; [exact Hnames|].
  destruct (no_self_edge_for_distinct_names
              (scenarios.table_parse scenarios.helper_table)
              scenarios.helper_modules Hnames) as [Hpackage _].
  eexists. split; [vm_compute; reflexivity|]. split; [reflexivity|].
  apply Hpackage. vm_compute. reflexivity.
Defined.

(** C4 as stated fails where two candidate modules take the same name:
    the fragment that defines the class [Widget] and the fragment that
    calls it are both named [widget], and the graph has the edge from
    [widget] to [widget]. *)
Lemma self_edge_for_shared_name :
  name <$> scenarios.widget_modules = [py "widget"; py "widget"] /\
  ~ (forall g,
       build_dependency_graph (scenarios.table_parse scenarios.widget_table)
         scenarios.widget_modules = inr g ->
       forall n, (n, n) ∉ edges g).
Proof.
  split; [reflexivity|]. intros Hclaim.
  assert (exists g,
    build_dependency_graph (scenarios.table_parse scenarios.widget_table)
      scenarios.widget_modules = inr g /\
    (py "widget", py "widget") ∈ edges g) as (g & Hg & Hedge).
  { eexists. split; [vm_compute; reflexivity|].
    apply (bool_decide_unpack _). vm_compute. exact I. }
  by apply (Hclaim g Hg (py "widget")).
Qed.

End self_edges.

(** ** The symbol table *)
Section symbol_table.

Import import_analyzer.

Lemma foldl_bindings {A} (f : A -> str * symbol) (l : list A)
    (tbl : gmap str symbol) :
  foldl (fun t a => <[(f a).1 := (f a).2]> t) tbl l
  = foldl (fun t b => <[b.1 := b.2]> t) tbl (f <$> l).
Proof. revert tbl. induction l as [|a l IH]; intros tbl; simpl; [done|]. apply IH. Qed.

(** A node changes the table by its bindings, inserted in their order. *)
Lemma import_step_bindings (tbl : gmap str symbol) (n : node) :
  import_step tbl n = foldl (fun t b => <[b.1 := b.2]> t) tbl (bindings_of n).
Proof.
  destruct n; try done; unfold import_step, bindings_of;
    by rewrite <- foldl_bindings.
Qed.

Lemma import_steps_bindings (tbl : gmap str symbol) (nodes : list node) :
  foldl import_step tbl nodes
  = foldl (fun t b => <[b.1 := b.2]> t) tbl (nodes ≫= bindings_of).
Proof.
  revert tbl. induction nodes as [|n nodes IH]; intros tbl; [done|].
  rewrite bind_cons, foldl_app. simpl. by rewrite IH, import_step_bindings.
Qed.

(** In a table filled by insertion the entry of a name is its last
    binding. *)
Lemma lookup_bindings (tbl : gmap str symbol) (bs : list (str * symbol)) (k : str) :
  foldl (fun t b => <[b.1 := b.2]> t) tbl bs !! k
  = match last_binding k bs with
    | Some entry => Some entry
    | None => tbl !! k
    end.
Proof.
  induction bs as [|[k' entry] bs IH] using rev_ind; [done|].
  rewrite foldl_app. simpl. unfold last_binding in *.
  rewrite List.filter_app. simpl. case_bool_decide as Hk; simpl in Hk.
  - subst k'. by rewrite last_snoc, lookup_insert_eq.
  - by rewrite app_nil_r, lookup_insert_ne.
Qed.

Lemma walk_queue_front (todo acc : list node) (fuel : nat) :
  length todo <= fuel ->
  walk_queue fuel (todo ++ acc)
  = todo ++ walk_queue (fuel - length todo) (acc ++ (todo ≫= iter_child_nodes)).
Proof.
  revert acc fuel. induction todo as [|n todo IH]; intros acc fuel Hfuel.
  { simpl. by rewrite Nat.sub_0_r, app_nil_r. }
  destruct fuel as [|fuel]; [simpl in Hfuel; lia|].
  cbn [app walk_queue length]. rewrite <- app_assoc, IH by (simpl in Hfuel; lia).
  rewrite bind_cons, app_assoc. done.
Qed.

Lemma walk_queue_below (fuel : nat) (todo : list node) (d : node) :
  d ∈ walk_queue fuel todo ->
  exists c, c ∈ todo /\ rtc (fun parent child => child ∈ iter_child_nodes parent) c d.
Proof.
  revert todo. induction fuel as [|fuel IH]; intros todo; [by intros ?%elem_of_nil|].
  destruct todo as [|n todo]; [by intros ?%elem_of_nil|].
  cbn [walk_queue]. intros [->|Hd]%elem_of_cons.
  { exists n. split; [left|done]. }
  destruct (IH _ Hd) as (c & [Hc|Hc]%elem_of_app & Hcd).
  - exists c. split; [by right|done].
  - exists n. split; [left|]. by eapply rtc_l.
Qed.

Lemma length_le_size (l : list node) : length l <= sum_list_with size l.
Proof.
  induction l as [|n l IH]; [done|]. simpl. destruct n; simpl; lia.
Qed.

(** The walk of a module yields the module, its statements in their
    order, and then nodes below the statements. *)
Lemma walk_module (body : list node) :
  exists rest,
    walk (Module body) = Module body :: body ++ rest /\
    forall d, d ∈ rest -> exists n, n ∈ body /\ below n d.
Proof.
  pose proof (walk_queue_front body [] (sum_list_with size body) (length_le_size body))
    as Hfront.
  rewrite app_nil_r in Hfront.
  unfold walk. cbn [size walk_queue app iter_child_nodes]. rewrite Hfront.
  eexists. split; [done|]. intros d Hd.
  apply walk_queue_below in Hd as (c & Hc & Hcd). simpl in Hc.
  apply list_elem_of_bind in Hc as (n & Hc & Hn).
  exists n. split; [done|]. eapply tc_rtc_r; [by apply tc_once|done].
Qed.

Lemma top_level_bindings (body : list node) :
  imports_at_top_level body ->
  walk (Module body) ≫= bindings_of = body ≫= bindings_of.
Proof.
  intros Htop. destruct (walk_module body) as (rest & -> & Hrest).
  rewrite bind_cons, bind_app. cbn [bindings_of app].
  assert (rest ≫= bindings_of = []) as ->; [|by rewrite app_nil_r].
  clear -Htop Hrest. induction rest as [|d rest IH]; [done|].
  rewrite bind_cons. destruct (Hrest d) as (n & Hn & Hd); [left|].
  rewrite (Htop n d Hn Hd), IH; [done|]. intros d' Hd'. apply Hrest. by right.
Qed.

(** C5. Import analysis, in the package and in [CodeAnalyzer], keys the
    symbol table by the local name of each import, the alias where there
    is one and the imported name otherwise. Of the imports that bind one
    local name the one [ast.walk] reaches last is the entry; the walk
    goes level by level, so that where every import is a statement of the
    module itself the imports are reached in the order of the source and
    a later import overwrites an earlier one. For the source of
    [import os] and [from json import dumps as d] the table has the two
    entries [os], an import of [os] without alias on line 1, and [d], the
    name [dumps] imported from [json] under the alias [d] on line 2. *)
Theorem symbol_table_by_local_name :
  (forall (ast_parse : str -> result node) (source_code : str) (tree : node),
     ast_parse source_code = inr tree ->
     exists symbols,
       analyze_imports ast_parse source_code = inr symbols /\
       forall k, symbols !! k = last_binding k (walk tree ≫= bindings_of)) /\
  (forall tree k,
     analyzer._analyze_imports tree !! k
     = last_binding k (walk tree ≫= bindings_of)) /\
  (forall body,
     imports_at_top_level body ->
     walk (Module body) ≫= bindings_of = body ≫= bindings_of) /\
  (forall imported alias_, local_name (Alias imported (Some alias_))
                           = if bool_decide (alias_ = []) then imported else alias_) /\
  (forall imported, local_name (Alias imported None) = imported) /\
  analyze_imports
    (scenarios.table_parse [(scenarios.imports_source, inr scenarios.imports_tree)])
    scenarios.imports_source
  = inr (<[py "os" := import (py "os") None 1]>
          (<[py "d" := import_from (Some (py "json")) (py "dumps") (Some (py "d")) 2]>
            ∅)).
Proof.
  split; [|split; [|split; [|split; [|split]]]].
  - intros ast_parse source_code tree Hparse.
    unfold analyze_imports. rewrite Hparse. cbn.
    eexists. split; [done|]. intros k.
    rewrite import_steps_bindings, lookup_bindings, lookup_empty.
    by destruct (last_binding k _).
  - intros tree k. unfold analyzer._analyze_imports.
    rewrite import_steps_bindings, lookup_bindings, lookup_empty.
    by destruct (last_binding k _).
  - apply top_level_bindings.
  - intros imported [|c s]; done.
  - done.
  - vm_compute. reflexivity.
Qed.

(** The table of the scenario, entry by entry; its two imports are
    statements of the module and are walked in their order. *)
Lemma symbol_table_by_local_name_witness :
  exists symbols,
    analyze_imports
      (scenarios.table_parse [(scenarios.imports_source, inr scenarios.imports_tree)])
      scenarios.imports_source = inr symbols /\
    symbols !! py "os" = Some (import (py "os") None 1) /\
    symbols !! py "d"
      = Some (import_from (Some (py "json")) (py "dumps") (Some (py "d")) 2) /\
    symbols !! py "dumps" = None /\
    walk scenarios.imports_tree ≫= bindings_of
    = [ (py "os", import (py "os") None 1);
        (py "d", import_from (Some (py "json")) (py "dumps") (Some (py "d")) 2) ].
Proof.
  destruct symbol_table_by_local_name as (Hpackage & _ & Htop & _).
  destruct (Hpackage
    (scenarios.table_parse [(scenarios.imports_source, inr scenarios.imports_tree)])
    scenarios.imports_source scenarios.imports_tree eq_refl)
    as (symbols & Hsymbols & Hlookup).
  exists symbols. split; [exact Hsymbols|].
  rewrite !Hlookup. split; [reflexivity|]. split; [reflexivity|].
  split; [reflexivity|].
  unfold scenarios.imports_tree. rewrite Htop; [reflexivity|].
  intros n d Hn Hd. unfold below in Hd.
  apply elem_of_cons in Hn as [->|Hn];
    [|apply list_elem_of_singleton in Hn as ->];
    inversion Hd as [? ? Hchild|? ? ? Hchild _]; by apply elem_of_nil in Hchild.
Defined.

(** C5 as stated fails where an import stands inside a compound
    statement: the walk reaches the import of [json] on line 2, inside
    the conditional, after the import of [simplejson] on line 3, and the
    entry of [j] is the import of line 2, not the later one. *)
Lemma nested_import_overwrites_later :
  exists symbols,
    analyze_imports
      (scenarios.table_parse
         [(scenarios.nested_import_source, inr scenarios.nested_import_tree)])
      scenarios.nested_import_source = inr symbols /\
    analyzer._analyze_imports scenarios.nested_import_tree = symbols /\
    symbols !! py "j" = Some (import (py "json") (Some (py "j")) 2) /\
    symbols !! py "j" <> Some (import (py "simplejson") (Some (py "j")) 3).
Proof.
  eexists. split; [vm_compute; reflexivity|]. split; [vm_compute; reflexivity|].
  split; [vm_compute; reflexivity|]. vm_compute. discriminate.
Qed.

End symbol_table.

(** ** The matcher *)
Section matcher.

Import Re.

Lemma elem_of_run_Chr (p : N -> bool) (st st' : mstate) :
  st' ∈ run (Chr p) st <->
  exists c, m_rest st = c :: m_rest st' /\ p c = true /\
            m_prev st' = Some c /\ m_groups st' = m_groups st.
Proof.
  simpl. destruct (m_rest st) as [|c s]; [|destruct (p c) eqn:Hp].
  - rewrite elem_of_nil. split; [done|]. by intros (c & ? & _).
  - rewrite list_elem_of_singleton. split.
    + intros ->. by exists c.
    + intros (c' & [= <- Hs] & _ & Hprev & Hgroups).
      destruct st' as [prev' rest' groups']. simpl in *. by subst.
  - rewrite elem_of_nil. split; [done|]. intros (c' & [= <- _] & ? & _). congruence.
Qed.

Lemma elem_of_run_Seq (r1 r2 : regex) (st st' : mstate) :
  st' ∈ run (Seq r1 r2) st <-> exists st1, st1 ∈ run r1 st /\ st' ∈ run r2 st1.
Proof. simpl. rewrite list_elem_of_bind. naive_solver. Qed.

Lemma elem_of_run_Group (i : nat) (r : regex) (st st' : mstate) :
  st' ∈ run (Group i r) st <-> exists st1, st1 ∈ run r st /\ st' = set_group i st st1.
Proof. simpl. rewrite list_elem_of_fmap. naive_solver. Qed.

Lemma elem_of_run_WordB (w : N -> bool) (st st' : mstate) :
  st' ∈ run (WordB w) st -> st' = st.
Proof. simpl. case_match; [by intros ->%list_elem_of_singleton | by intros ?%elem_of_nil]. Qed.

(** A literal reads itself and captures nothing. *)
Lemma elem_of_run_lit (s : str) (st st' : mstate) :
  st' ∈ run (lit s) st ->
  m_rest st = s ++ m_rest st' /\ m_groups st' = m_groups st.
Proof.
  revert st. induction s as [|c s IH]; intros st.
  - simpl. by intros ->%list_elem_of_singleton.
  - change (lit (c :: s)) with (Seq (Chr (N.eqb c)) (lit s)).
    intros (st1 & (c' & Hrest & ->%N.eqb_eq & _ & Hgroups)%elem_of_run_Chr
                & [Hrest' Hgroups']%IH)%elem_of_run_Seq.
    rewrite Hrest, Hrest'. split; [done|congruence].
Qed.

(** A repetition of a character class reads characters of the class and
    captures nothing. *)
Lemma elem_of_rounds_Chr (p : N -> bool) (greedy : bool) (n : nat)
    (st st' : mstate) :
  st' ∈ rounds (run (Chr p)) greedy n st ->
  exists w, m_rest st = w ++ m_rest st' /\ forallb p w = true /\
            m_groups st' = m_groups st.
Proof.
  revert st. induction n as [|n IH]; intros st.
  - simpl. intros ->%list_elem_of_singleton. by exists [].
  - assert (st' = st \/
            st' ∈ run (Chr p) st ≫= (fun st1 =>
                    if progress st st1 then rounds (run (Chr p)) greedy n st1 else []) ->
            exists w, m_rest st = w ++ m_rest st' /\ forallb p w = true /\
                      m_groups st' = m_groups st) as Hcases.
    { intros [->|Hmore]; [by exists []|].
      apply list_elem_of_bind in Hmore as (st1 & Hst' & Hst1).
      apply elem_of_run_Chr in Hst1 as (c & Hrest & Hc & _ & Hgroups).
      destruct (progress st st1); [|by apply elem_of_nil in Hst'].
      apply IH in Hst' as (w & Hw & Hall & Hgroups').
      exists (c :: w). simpl. rewrite Hrest, Hw, Hc, Hall. split; [done|].
      split; [done|congruence]. }
    cbn [rounds]. destruct greedy.
    + rewrite elem_of_app, list_elem_of_singleton. naive_solver.
    + rewrite elem_of_cons. naive_solver.
Qed.

(** A repetition can always stop. *)
Lemma rounds_nonempty (body : mstate -> list mstate) (greedy : bool) (n : nat)
    (st : mstate) :
  rounds body greedy n st <> [].
Proof.
  destruct n as [|n]; [done|]. cbn [rounds]. destruct greedy; [|done].
  intros [_ ?]%app_eq_nil. done.
Qed.

Lemma consumed_app (st st' : mstate) (w : str) :
  m_rest st = w ++ m_rest st' -> consumed st st' = w.
Proof.
  intros Hrest. unfold consumed. rewrite Hrest, length_app.
  replace (length w + length (m_rest st') - length (m_rest st')) with (length w) by lia.
  by rewrite take_app_length.
Qed.

(** A match found by [re.search] is the first way the pattern matches at
    some position of the text. *)
Lemma search_from_Some (r : regex) (prev : option N) (s : str)
    (g : list (nat * str)) :
  search_from r prev s = Some g ->
  exists prev' pre s' st' rest,
    s = pre ++ s' /\ run r (MState prev' s' []) = st' :: rest /\ g = m_groups st'.
Proof.
  revert prev. induction s as [|c s IH]; intros prev; simpl.
  - unfold exec. destruct (run r (MState prev [] [])) as [|st' rest] eqn:Hrun; [done|].
    intros [= <-]. by exists prev, [], [], st', rest.
  - unfold exec. destruct (run r (MState prev (c :: s) [])) as [|st' rest] eqn:Hrun.
    + intros (prev' & pre & s' & st' & rest & -> & Hrun' & ->)%IH.
      by exists prev', (c :: pre), s', st', rest.
    + intros [= <-]. by exists prev, [], (c :: s), st', rest.
Qed.

(** [re.search] finds a match where the pattern matches somewhere. *)
Lemma search_from_app (r : regex) (prev : option N) (pre s : str) :
  (forall prev', run r (MState prev' s []) <> []) ->
  search_from r prev (pre ++ s) <> None.
Proof.
  intros Hrun. revert prev. induction pre as [|c pre IH]; intros prev.
  - simpl. destruct s as [|c s]; simpl; unfold exec;
      specialize (Hrun prev); by destruct (run r _).
  - simpl. destruct (exec r prev (c :: pre ++ s)) as [[n g]|]; [done|]. apply IH.
Qed.

(** The matches [re.findall] lists are first matches at positions of the
    text. *)
Lemma elem_of_findall_from (r : regex) (prev : option N) (s : str) (skip : nat)
    (x : str) :
  x ∈ findall_from r prev s skip ->
  exists prev' pre s' st' rest,
    s = pre ++ s' /\ run r (MState prev' s' []) = st' :: rest /\
    x = group (m_groups st') 1.
Proof.
  revert prev skip. induction s as [|c s IH]; intros prev skip; simpl.
  - by intros ?%elem_of_nil.
  - assert (forall prev0 skip0, x ∈ findall_from r prev0 s skip0 ->
      exists prev' pre s' st' rest,
        c :: s = pre ++ s' /\ run r (MState prev' s' []) = st' :: rest /\
        x = group (m_groups st') 1) as Hlater.
    { intros prev0 skip0 (prev' & pre & s' & st' & rest & -> & Hrun & ->)%IH.
      by exists prev', (c :: pre), s', st', rest. }
    destruct skip as [|k]; [|by apply Hlater].
    unfold exec. destruct (run r (MState prev (c :: s) [])) as [|st' rest] eqn:Hrun;
      [by apply Hlater|].
    intros [->|Hx]%elem_of_cons; [|by eapply Hlater].
    by exists prev, [], (c :: s), st', rest.
Qed.

End matcher.

(** ** Module names *)
Section naming.

Import Re module_detector.

(** A literal matches where the text starts with it. *)
Lemma run_lit_app (s : str) (prev : option N) (rest : str) (g : list (nat * str)) :
  exists prev', run (lit s) (MState prev (s ++ rest) g) = [MState prev' rest g].
Proof.
  revert prev. induction s as [|c s IH]; intros prev; [by eexists|].
  change (lit (c :: s)) with (Seq (Chr (N.eqb c)) (lit s)).
  cbn [run m_rest m_groups app]. rewrite N.eqb_refl, bind_singleton. apply IH.
Qed.

(** The class rule matches at a [class ] that an ASCII capital follows. *)
Lemma class_rule_matches (prev : option N) (c : N) (rest : str) :
  is_upper c = true ->
  run class_name_re (MState prev (py "class " ++ c :: rest) []) <> [].
Proof.
  intros Hc. unfold class_name_re. cbn [run].
  destruct (run_lit_app (py "class ") prev (c :: rest) []) as [prev' ->].
  rewrite bind_singleton.
  cbn [run m_rest m_groups]. rewrite Hc, bind_singleton.
  intros Hnil%fmap_nil_inv. by eapply rounds_nonempty.
Qed.

(** What the class rule captures is a capital followed by identifier
    characters. *)
Lemma class_rule_group (st st' : mstate) :
  st' ∈ run class_name_re st ->
  exists c w, group (m_groups st') 1 = c :: w /\ is_upper c = true /\
              forallb is_ident_char w = true.
Proof.
  unfold class_name_re.
  intros (st1 & _ & (st2 & Hst2 & ->)%elem_of_run_Group)%elem_of_run_Seq.
  apply elem_of_run_Seq in Hst2 as (st3 & Hst3 & Hst2).
  apply elem_of_run_Chr in Hst3 as (c & Hrest & Hc & _).
  apply elem_of_rounds_Chr in Hst2 as (w & Hw & Hall & _).
  exists c, w. split; [|done]. cbn. case_bool_decide; [|done].
  apply consumed_app. by rewrite Hrest, Hw.
Qed.

(** C7. The name of a module comes from the first rule that applies.
    Content in which [class ] and an ASCII capital occur takes the
    lowered name of a class, whatever headers and functions it holds;
    without a match of the class rule the label of the first boxed header
    is taken, stripped, lowered and with underscores for its spaces;
    without either the name of the first function with a small initial;
    and else the default. Content with a header labelled Widgets and a
    class [Foo] is named [foo]. *)
Theorem module_name_priority :
  (forall pre c rest default, is_upper c = true ->
     exists c' w,
       is_upper c' = true /\ forallb is_ident_char w = true /\
       _extract_module_name (pre ++ py "class " ++ c :: rest) default
         = lower (c' :: w)) /\
  (forall content default class_match,
     re_search class_name_re content = Some class_match ->
     _extract_module_name content default = lower (group class_match 1)) /\
  (forall content default header_match,
     re_search class_name_re content = None ->
     re_search header_re content = Some header_match ->
     _extract_module_name content default
       = replace 32 95 (lower (strip (group header_match 1)))) /\
  (forall content default func_match,
     re_search class_name_re content = None ->
     re_search header_re content = None ->
     re_search function_name_re content = Some func_match ->
     _extract_module_name content default = group func_match 1) /\
  (forall content default,
     re_search class_name_re content = None ->
     re_search header_re content = None ->
     re_search function_name_re content = None ->
     _extract_module_name content default = default) /\
  _extract_module_name scenarios.class_and_header (py "module_0") = py "foo".
Proof.
  split; [|split; [|split; [|split; [|split; [|by vm_compute]]]]].
  - intros pre c rest default Hc. unfold _extract_module_name.
    destruct (re_search class_name_re (pre ++ py "class " ++ c :: rest))
      as [class_match|] eqn:Hsearch.
    + apply search_from_Some in Hsearch
        as (prev' & pre' & s' & st' & others & _ & Hrun & ->).
      destruct (class_rule_group (MState prev' s' []) st') as (c' & w & -> & ? & ?).
      { rewrite Hrun. left. }
      by exists c', w.
    + exfalso. revert Hsearch. apply search_from_app.
      intros prev'. by apply class_rule_matches.
  - intros content default class_match Hclass.
    unfold _extract_module_name. by rewrite Hclass.
  - intros content default header_match Hclass Hheader.
    unfold _extract_module_name. by rewrite Hclass, Hheader.
  - intros content default func_match Hclass Hheader Hfunc.
    unfold _extract_module_name. by rewrite Hclass, Hheader, Hfunc.
  - intros content default Hclass Hheader Hfunc.
    unfold _extract_module_name. by rewrite Hclass, Hheader, Hfunc.
Qed.

(** The rules on three contents: a class after a header, a header and a
    function, a function alone. *)
Lemma module_name_priority_witness :
  let header_and_function :=
    py "# " ++ [box_vertical] ++ py " My Widgets  " ++ [box_vertical] ++ [nl]
      ++ py "def build(x): pass" in
  (exists c' w,
     is_upper c' = true /\ forallb is_ident_char w = true /\
     _extract_module_name scenarios.class_and_header (py "module_0")
       = lower (c' :: w)) /\
  _extract_module_name header_and_function (py "module_1") = py "my_widgets" /\
  _extract_module_name (py "def build(x): pass") (py "module_2") = py "build" /\
  _extract_module_name (py "x = 1") (py "module_3") = py "module_3".
Proof.
  intros header_and_function.
  destruct module_name_priority as (Hclass & _ & Hheader & Hfunc & Hdefault & _).
  split; [|split; [|split]].
  - apply (Hclass (py "# " ++ [box_vertical] ++ py " Widgets "
                     ++ [box_vertical] ++ [nl])
                  70%N (py "oo:" ++ [nl] ++ py "    pass") (py "module_0")).
    reflexivity.
  - rewrite (Hheader header_and_function (py "module_1")
               [(1, py "My Widgets")]); reflexivity.
  - rewrite (Hfunc (py "def build(x): pass") (py "module_2") [(1, py "build")]);
      reflexivity.
  - apply Hdefault; reflexivity.
Defined.

End naming.

(** ** Stripping *)

Lemma lstrip_by_suffix (drop_it : N -> bool) (s : str) :
  exists w, s = w ++ lstrip_by drop_it s.
Proof.
  induction s as [|c s [w IH]]; [by exists []|]. simpl.
  destruct (drop_it c); [|by exists []]. exists (c :: w). simpl. by f_equal.
Qed.

Lemma lstrip_by_head (drop_it : N -> bool) (s : str) (c : N) (t : str) :
  lstrip_by drop_it s = c :: t -> drop_it c = false.
Proof.
  induction s as [|c' s IH]; simpl; [done|].
  destruct (drop_it c') eqn:Hc'; [done|]. by intros [= <- _].
Qed.

Lemma lstrip_by_keeps (drop_it : N -> bool) (s : str) (c : N) :
  c ∈ s -> drop_it c = false -> c ∈ lstrip_by drop_it s.
Proof.
  intros Hin Hc. induction s as [|c' s IH]; simpl; [done|].
  destruct (drop_it c') eqn:Hc'; [|done].
  apply elem_of_cons in Hin as [->|Hin]; [congruence|]. by apply IH.
Qed.

(** Stripping keeps a character that is not to be dropped. *)
Lemma strip_by_keeps (drop_it : N -> bool) (s : str) (c : N) :
  c ∈ s -> drop_it c = false -> c ∈ strip_by drop_it s.
Proof.
  intros Hin Hc. unfold strip_by, rstrip_by.
  apply elem_of_reverse, lstrip_by_keeps; [|done].
  by apply elem_of_reverse, lstrip_by_keeps.
Qed.

(** What is left after stripping starts with a character that is not to
    be dropped. *)
Lemma strip_by_head (drop_it : N -> bool) (s : str) (c : N) (t : str) :
  strip_by drop_it s = c :: t -> drop_it c = false.
Proof.
  unfold strip_by, rstrip_by. intros Hstrip.
  destruct (lstrip_by_suffix drop_it (reverse (lstrip_by drop_it s))) as [w Hw].
  apply (f_equal reverse) in Hw.
  rewrite reverse_involutive, reverse_app, Hstrip in Hw.
  by eapply lstrip_by_head.
Qed.

Lemma letter_not_space (c : N) : is_letter c = true -> isspace c = false.
Proof.
  unfold is_letter, isspace, is_upper, is_lower, in_range.
  rewrite !orb_true_iff, !andb_true_iff, !N.leb_le.
  rewrite !orb_false_iff, !andb_false_iff, !N.leb_gt, !N.eqb_neq. lia.
Qed.

(** The first line of a text that starts with a character other than the
    line feed starts with that character. *)
Lemma split_head (c : N) (s : str) :
  c <> nl -> exists w, head (split nl (c :: s)) = Some (c :: w).
Proof.
  intros Hc. simpl. destruct (N.eqb_spec c nl); [done|].
  destruct (split nl s); by eexists.
Qed.

(** ** Purposes *)
Section purposes.

Import Re semantic_analyzer.

Variable ast_parse : str -> result node.
Variable ast_get_docstring : node -> option str.
Variable MODULE_PURPOSE_INDICATORS : list (str * list str).

(** The purpose taken from a docstring is empty exactly when the stripped
    docstring is. *)
Lemma first_line_empty (body : str) :
  strip (default [] (head (split nl (strip body)))) = [] <-> strip body = [].
Proof.
  split; [|by intros ->].
  destruct (strip body) as [|c d] eqn:Hbody; [done|]. intros Hline. exfalso.
  pose proof (strip_by_head isspace body c d Hbody) as Hc.
  destruct (split_head c d) as [w Hw]; [by intros ->|].
  rewrite Hw in Hline. simpl in Hline.
  assert (c ∈ strip (c :: w)) as Hin by (apply strip_by_keeps; [left|done]).
  rewrite Hline in Hin. by apply elem_of_nil in Hin.
Qed.

(** The comment rule captures a text that starts with a letter. *)
Lemma comment_rule_group (st st' : mstate) :
  st' ∈ run comment_re st ->
  exists c w, group (m_groups st') 1 = c :: w /\ is_letter c = true.
Proof.
  unfold comment_re.
  intros (st1 & _ & (st2 & Hst2 & ->)%elem_of_run_Group)%elem_of_run_Seq.
  apply elem_of_run_Seq in Hst2 as (st3 & Hst3 & Hst2).
  apply elem_of_run_Chr in Hst3 as (c & Hrest & Hc & _).
  apply elem_of_rounds_Chr in Hst2 as (w & Hw & _).
  exists c, w. split; [|done]. cbn. case_bool_decide; [|done].
  apply consumed_app. by rewrite Hrest, Hw.
Qed.

Lemma comment_purpose_nonempty (content : str) (comment_match : list (nat * str)) :
  re_search comment_re content = Some comment_match ->
  strip (group comment_match 1) <> [].
Proof.
  intros (prev' & pre & s' & st' & rest & _ & Hrun & ->)%search_from_Some.
  destruct (comment_rule_group (MState prev' s' []) st') as (c & w & -> & Hc).
  { rewrite Hrun. left. }
  intros Hempty.
  assert (c ∈ strip (c :: w)) as Hin
    by (apply strip_by_keeps; [left|by apply letter_not_space]).
  rewrite Hempty in Hin. by apply elem_of_nil in Hin.
Qed.

Lemma infer_purpose_nonempty (content name : str) :
  infer_purpose MODULE_PURPOSE_INDICATORS content name <> [].
Proof.
  unfold infer_purpose. destruct (indicated_purpose _ _).
  - intros [_ ?]%app_eq_nil. done.
  - repeat case_match; done.
Qed.

(** What the stage does to one module. *)
Lemma with_semantics_purpose (module module' : ModuleInfo) :
  with_semantics ast_parse ast_get_docstring MODULE_PURPOSE_INDICATORS module
    = inr module' ->
  name module' = name module /\ content module' = content module /\
  exists p, purpose module' = Some p /\ (p = [] <-> blank_docstring (content module)).
Proof.
  unfold with_semantics, blank_docstring.
  destruct (ast_parse (content module)) as [e|tree]; [done|]. cbn.
  destruct (re_search docstring_re (content module)) as [docstring_match|].
  - intros [= <-]. cbn. repeat split; try done.
    eexists. split; [done|]. apply first_line_empty.
  - intros [= <-]. cbn. repeat split; try done.
    eexists. split; [done|]. split; [|done].
    destruct (re_search comment_re (content module)) eqn:Hcomment.
    + intros Hp. by eapply comment_purpose_nonempty.
    + apply infer_purpose_nonempty.
Qed.

End purposes.

Lemma mapM_inr {A B} (f : A -> result B) (l : list A) (r : list B) :
  mapM f l = inr r -> Forall2 (fun x y => f x = inr y) l r.
Proof.
  revert r. induction l as [|x l IH]; intros r; cbn.
  - intros [= <-]. constructor.
  - destruct (f x) as [e|y] eqn:Hx; cbn; [done|].
    destruct (mapM f l) as [e|k] eqn:Hl; cbn; [done|].
    intros [= <-]. constructor; [done|]. by apply IH.
Qed.

Section purpose_stage.

Import semantic_analyzer.

(** C8, as the code has it. After the semantic-purpose stage completes
    every candidate module has a purpose, and the purpose is the empty
    string exactly for the modules whose first docstring match is empty
    or blank; every other module has a non-empty purpose. The stage keeps
    names and contents. *)
Theorem purpose_empty_only_for_blank_docstring
    (ast_parse : str -> result node) (ast_get_docstring : node -> option str)
    (table : list (str * list str)) (modules modules' : list ModuleInfo) :
  extract_semantic_purpose ast_parse ast_get_docstring table modules = inr modules' ->
  Forall2 (fun module module' =>
             name module' = name module /\ content module' = content module /\
             exists p, purpose module' = Some p /\
                       (p = [] <-> blank_docstring (content module)))
          modules modules'.
Proof.
  intros Hstage%mapM_inr. eapply Forall2_impl; [done|].
  intros module module'. apply with_semantics_purpose.
Qed.

(** A module with a leading comment gets the comment as its purpose. *)
Lemma purpose_empty_only_for_blank_docstring_witness :
  let ast_parse :=
    scenarios.table_parse [(scenarios.commented, inr scenarios.commented_tree)] in
  let modules := [scenarios.candidate (py "module_0") scenarios.commented] in
  exists modules',
    extract_semantic_purpose ast_parse scenarios.no_docstring
      analyzer.MODULE_PURPOSE_INDICATORS modules = inr modules' /\
    purpose <$> modules' = [Some (py "Helper functions")] /\
    Forall2 (fun module module' =>
               name module' = name module /\ content module' = content module /\
               exists p, purpose module' = Some p /\
                         (p = [] <-> blank_docstring (content module)))
            modules modules'.
Proof.
  intros ast_parse modules. eexists.
  split; [vm_compute; reflexivity|]. split; [reflexivity|].
  apply (purpose_empty_only_for_blank_docstring ast_parse scenarios.no_docstring
           analyzer.MODULE_PURPOSE_INDICATORS modules).
  vm_compute. reflexivity.
Defined.

(** C8 as stated fails on a fragment that is an empty docstring: the stage
    completes and the purpose of the module is the empty string. *)
Lemma empty_docstring_empty_purpose :
  let ast_parse :=
    scenarios.table_parse
      [(scenarios.empty_docstring, inr scenarios.empty_docstring_tree)] in
  let modules := [scenarios.candidate (py "module_0") scenarios.empty_docstring] in
  ~ (forall modules',
       extract_semantic_purpose ast_parse scenarios.no_docstring
         analyzer.MODULE_PURPOSE_INDICATORS modules = inr modules' ->
       Forall (fun module' => exists p, purpose module' = Some p /\ p <> [])
              modules').
Proof.
  intros ast_parse modules Hclaim.
  assert (exists modules',
    extract_semantic_purpose ast_parse scenarios.no_docstring
      analyzer.MODULE_PURPOSE_INDICATORS modules = inr modules' /\
    purpose <$> modules' = [Some []]) as (modules' & Hstage & Hpurpose).
  { eexists. split; [vm_compute; reflexivity|]. reflexivity. }
  specialize (Hclaim modules' Hstage).
  destruct modules' as [|module' rest]; [done|].
  apply Forall_cons in Hclaim as [(p & Hp & Hnonempty) _].
  injection Hpurpose as Hpurpose _. congruence.
Qed.

End purpose_stage.

(** ** Used symbols *)
Section used_symbols.

Import Re import_manager.

Variable ast_parse : str -> result node.
Variable unicode_alnum : N -> bool.

(** A node adds the identifier of a loaded name, or of the name a call
    applies. *)
Lemma elem_of_names_used (x : str) (n : node) :
  x ∈ names_used n <->
  n = Name x Load \/ exists ctx args keywords, n = Call (Name x ctx) args keywords.
Proof.
  unfold names_used. split.
  - destruct n as [| | | | | | |id [| |]|[]| |]; simpl;
      try (by intros ?%not_elem_of_empty);
      rewrite union_empty_r_L; intros ->%elem_of_singleton; eauto.
  - intros [->|(ctx & args & keywords & ->)]; simpl; set_solver.
Qed.

Lemma symbol_step_names_used (symbols : gset str) (n : node) :
  symbol_step symbols n = names_used n ∪ symbols.
Proof.
  unfold names_used.
  destruct n as [| | | | | | |id [| |]|[]| |]; simpl; set_solver.
Qed.

Lemma elem_of_symbol_steps (x : str) (symbols : gset str) (nodes : list node) :
  x ∈ foldl symbol_step symbols nodes <->
  x ∈ symbols \/ exists n, n ∈ nodes /\ x ∈ names_used n.
Proof.
  revert symbols. induction nodes as [|n nodes IH]; intros symbols; simpl.
  - split; [by left|]. intros [?|(n & Hn%elem_of_nil & _)]; done.
  - rewrite IH, symbol_step_names_used, elem_of_union. split.
    + intros [[Hx|Hx]|(n' & Hn' & Hx)]; [right|by left|right].
      * exists n. split; [left|done].
      * exists n'. split; [by right|done].
    + intros [Hx|(n' & [->|Hn']%elem_of_cons & Hx)]; [by left; right|by left; left|].
      right. by exists n'.
Qed.

(** The fallback pattern captures an identifier the text continues from
    the position of the match. *)
Lemma identifier_rule_group (st st' : mstate) :
  st' ∈ run (identifier_re unicode_alnum) st ->
  exists x post, m_rest st = x ++ post /\ group (m_groups st') 1 = x /\
                 is_identifier x = true.
Proof.
  unfold identifier_re.
  intros (st1 & ->%elem_of_run_WordB & (st2 & Hst2 & Hst')%elem_of_run_Seq)%elem_of_run_Seq.
  apply elem_of_run_WordB in Hst' as ->.
  apply elem_of_run_Group in Hst2 as (st3 & Hst3 & ->).
  apply elem_of_run_Seq in Hst3 as (st4 & Hst4 & Hst3).
  apply elem_of_run_Chr in Hst4 as (c & Hrest & Hc & _).
  apply elem_of_rounds_Chr in Hst3 as (w & Hw & Hall & _).
  exists (c :: w), (m_rest st3).
  split; [by rewrite Hrest, Hw|]. split.
  - cbn. case_bool_decide; [|done]. apply consumed_app. by rewrite Hrest, Hw.
  - simpl. by rewrite Hc, Hall.
Qed.

(** An exception of [ast.parse] other than [SyntaxError] is not caught. *)
Lemma extract_used_symbols_propagates (content : str) (e : exn) :
  ast_parse content = inl e -> e <> SyntaxError ->
  extract_used_symbols ast_parse unicode_alnum content = inl e.
Proof.
  intros Hparse He. unfold extract_used_symbols. rewrite Hparse. cbn.
  by destruct e.
Qed.

(** C9, as the code has it. [extract_used_symbols] returns for every
    content on which [ast.parse] returns a tree or raises [SyntaxError].
    Where the content parses, the set holds exactly the identifiers of the
    loaded names and of the names that calls apply in the tree; where
    [ast.parse] raises [SyntaxError], the set is the one of the matches of
    the identifier pattern, each of them an identifier that occurs in the
    content. *)
Theorem extract_used_symbols_returns (content : str) :
  (forall e, ast_parse content = inl e -> e = SyntaxError) ->
  exists symbols,
    extract_used_symbols ast_parse unicode_alnum content = inr symbols /\
    match ast_parse content with
    | inr tree =>
        forall x, x ∈ symbols <->
          Name x Load ∈ walk tree \/
          exists ctx args keywords, Call (Name x ctx) args keywords ∈ walk tree
    | inl _ =>
        symbols = list_to_set (re_findall (identifier_re unicode_alnum) content) /\
        forall x, x ∈ symbols ->
          is_identifier x = true /\ exists pre post, content = pre ++ x ++ post
    end.
Proof.
  intros Hsyntax. unfold extract_used_symbols.
  destruct (ast_parse content) as [e|tree]; cbn.
  - rewrite (Hsyntax e eq_refl).
    eexists. split; [done|]. split; [done|].
    intros x Hx%elem_of_list_to_set.
    apply elem_of_findall_from in Hx
      as (prev' & pre & s' & st' & rest & -> & Hrun & ->).
    destruct (identifier_rule_group (MState prev' s' []) st')
      as (x & post & Hs' & -> & Hx).
    { rewrite Hrun. left. }
    split; [done|]. exists pre, post. simpl in Hs'. by rewrite Hs'.
  - eexists. split; [done|]. intros x.
    rewrite elem_of_symbol_steps. split.
    + intros [?%not_elem_of_empty|(n & Hn & [->|(ctx & args & keywords & ->)]%elem_of_names_used)];
        [done|by left|right; eauto].
    + intros [Hn|(ctx & args & keywords & Hn)]; right; eexists; (split; [done|]);
        apply elem_of_names_used; eauto.
Qed.

End used_symbols.

(** The fallback on a fragment that does not parse: the identifiers of the
    text, a name glued to a digit left out. *)
Lemma extract_used_symbols_returns_witness :
  let ast_parse := scenarios.table_parse scenarios.helper_table in
  import_manager.extract_used_symbols ast_parse scenarios.ascii_only
    (py "else: foo(bar_1, 2x) + _y")
  = inr {[ py "else"; py "foo"; py "bar_1"; py "_y" ]} /\
  exists symbols,
    import_manager.extract_used_symbols ast_parse scenarios.ascii_only
      (py "else: foo(bar_1, 2x) + _y") = inr symbols /\
    forall x, x ∈ symbols -> import_manager.is_identifier x = true.
Proof.
  intros ast_parse. split; [vm_compute; reflexivity|].
  destruct (extract_used_symbols_returns ast_parse scenarios.ascii_only
              (py "else: foo(bar_1, 2x) + _y"))
    as (symbols & Hsymbols & Hfallback).
  - intros e. vm_compute. congruence.
  - exists symbols. split; [exact Hsymbols|].
    change (ast_parse (py "else: foo(bar_1, 2x) + _y")) with (@inl exn node SyntaxError)
      in Hfallback.
    intros x Hx. by apply Hfallback.
Defined.

(** On the fragment of the caller the tree is walked. *)
Lemma extract_used_symbols_parsed :
  import_manager.extract_used_symbols
    (scenarios.table_parse scenarios.helper_table) scenarios.ascii_only
    scenarios.caller_content
  = inr {[ py "helper"; py "x" ]}.
Proof. vm_compute. reflexivity. Qed.

(** C9 as stated fails on a text with a lone surrogate: [ast.parse] raises
    [ValueError], the [except] clause lets it pass, and no set comes
    back. So it is for a null character before Python 3.12. *)
Lemma extract_used_symbols_not_total :
  let ast_parse := scenarios.table_parse scenarios.unreadable_table in
  ast_parse scenarios.lone_surrogate = inl ValueError /\
  (~ exists symbols,
       import_manager.extract_used_symbols ast_parse scenarios.ascii_only
         scenarios.lone_surrogate = inr symbols) /\
  import_manager.extract_used_symbols ast_parse scenarios.ascii_only
    scenarios.null_character = inl ValueError.
Proof.
  intros ast_parse. split; [reflexivity|]. split; [|reflexivity].
  intros [symbols Hsymbols]. vm_compute in Hsymbols. discriminate Hsymbols.
Qed.

(** ** Case conversion *)
Section case_conversion.

Import Re utils.

(** Turns the tests on a code point into arithmetic. *)
Ltac chars :=
  unfold lower_cp, upper_cp in *;
  repeat match goal with
         | H : context [if ?b then _ else _] |- _ => destruct b eqn:?
         | |- context [if ?b then _ else _] => destruct b eqn:?
         end;
  unfold is_letter, is_upper, is_lower, is_digit, in_range in *;
  rewrite ?orb_true_iff, ?andb_true_iff, ?orb_false_iff, ?andb_false_iff,
    ?negb_true_iff, ?negb_false_iff, ?N.leb_le, ?N.leb_gt, ?N.eqb_eq, ?N.eqb_neq
    in *;
  try lia.



(** *** The three substitutions *)

Lemma exec_upper (prev : option N) (c : N) (s : str) :
  exec upper_re prev (c :: s)
  = if is_upper c then Some (1, [(1, [c])]) else None.
Proof.
  unfold exec, upper_re. cbn [run m_rest m_groups].
  destruct (is_upper c); [|done]. cbn.
  unfold consumed. cbn [m_rest length].
  replace (S (length s) - length s) with 1 by lia. done.
Qed.

(** The first substitution puts an underscore before every capital. *)
Lemma sub_upper (prev : option N) (s : str) :
  sub_from upper_re (fun g => py "_" ++ group g 1) prev s 0
  = s ≫= (fun c => if is_upper c then [95%N; c] else [c]).
Proof.
  revert prev. induction s as [|c s IH]; intros prev; [done|].
  cbn [sub_from]. rewrite exec_upper, bind_cons.
  destruct (is_upper c); cbn; by rewrite IH.
Qed.

Lemma bind_plain (s : str) :
  forallb (fun c => negb (is_upper c)) s = true ->
  s ≫= (fun c => if is_upper c then [95%N; c] else [c]) = s.
Proof.
  induction s as [|c s IH]; [done|]. cbn [forallb].
  intros [Hc Hs]%andb_true_iff. rewrite bind_cons, IH by done.
  apply negb_true_iff in Hc. by rewrite Hc.
Qed.

(** A pattern that starts with a character class finds nothing in a text
    without characters of the class, and the substitution copies it. *)
Lemma sub_copy (p : N -> bool) (r : regex) (repl : list (nat * str) -> str)
    (prev : option N) (w rest : str) :
  forallb (fun c => negb (p c)) w = true ->
  exists prev',
    sub_from (Seq (Chr p) r) repl prev (w ++ rest) 0
    = w ++ sub_from (Seq (Chr p) r) repl prev' rest 0.
Proof.
  revert prev. induction w as [|c w IH]; intros prev; [by exists prev|].
  simpl. intros [Hc Hw]%andb_true_iff. apply negb_true_iff in Hc.
  unfold exec. cbn [run m_rest]. rewrite Hc. cbn.
  destruct (IH (Some c) Hw) as [prev' ->]. by exists prev'.
Qed.

Lemma sub_none (p : N -> bool) (r : regex) (repl : list (nat * str) -> str)
    (prev : option N) (s : str) :
  forallb (fun c => negb (p c)) s = true ->
  sub_from (Seq (Chr p) r) repl prev s 0 = s.
Proof.
  intros Hs. destruct (sub_copy p r repl prev s [] Hs) as [prev' Hcopy].
  rewrite app_nil_r in Hcopy. rewrite Hcopy. simpl. apply app_nil_r.
Qed.






(** *** Words and the texts made of them *)


Lemma join_concat (l : list str) : join [] l = mjoin l.
Proof.
  induction l as [|x l IH]; [done|]. destruct l as [|y l].
  - simpl. by rewrite app_nil_r.
  - change (join [] (x :: y :: l)) with (x ++ [] ++ join [] (y :: l)). by rewrite IH.
Qed.

Lemma split_plain (w : str) : no_underscore w = true -> split 95 w = [w].
Proof.
  induction w as [|c w IH]; [done|]. unfold no_underscore in *.
  cbn [split forallb app].
  intros [Hc%negb_true_iff Hw]%andb_true_iff.
  rewrite N.eqb_sym, Hc, IH by done. done.
Qed.

Lemma split_after (w rest : str) :
  no_underscore w = true -> split 95 (w ++ 95%N :: rest) = w :: split 95 rest.
Proof.
  induction w as [|c w IH]; [done|]. unfold no_underscore in *.
  cbn [split forallb app].
  intros [Hc%negb_true_iff Hw]%andb_true_iff.
  rewrite N.eqb_sym, Hc, IH by done. done.
Qed.



(** Stripping underscores from a text of words, with or without one
    underscore in front. *)
Lemma strip_words (c : N) (s : str) :
  c <> 95%N -> (exists d, last (c :: s) = Some d /\ d <> 95%N) ->
  strip_chars (py "_") (c :: s) = c :: s /\
  strip_chars (py "_") (95%N :: c :: s) = c :: s.
Proof.
  intros Hc (d & Hlast & Hd).
  assert (forall x, x <> 95%N -> bool_decide (x ∈ py "_") = false) as Hdrop.
  { intros x Hx. apply bool_decide_eq_false. by intros ->%list_elem_of_singleton. }
  assert (rstrip_by (fun c => bool_decide (c ∈ py "_")) (c :: s) = c :: s) as Hright.
  { unfold rstrip_by. apply last_Some in Hlast as [s0 Hs0]. rewrite Hs0, reverse_snoc.
    simpl. rewrite (Hdrop d Hd). by rewrite reverse_cons, reverse_involutive. }
  unfold strip_chars, strip_by. cbn [lstrip_by].
  rewrite (Hdrop c Hc). by rewrite bool_decide_eq_true_2 by (by left).
Qed.

Lemma forallb_weaken (P Q : N -> bool) (s : str) :
  (forall c, P c = true -> Q c = true) ->
  forallb P s = true -> forallb Q s = true.
Proof.
  intros HPQ. induction s as [|c s IH]; [done|]. cbn [forallb].
  intros [Hc Hs]%andb_true_iff. by rewrite (HPQ c Hc), IH.
Qed.


Lemma lower_no_capital (s : str) :
  forallb (fun c => negb (is_upper c)) s = true -> lower s = s.
Proof.
  induction s as [|c s IH]; [done|]. cbn [forallb].
  intros [Hc%negb_true_iff Hs]%andb_true_iff. unfold lower in *.
  rewrite fmap_cons, IH by done. unfold lower_cp. by rewrite Hc.
Qed.











End case_conversion.

(** * Further properties *)

(** ** Indexing *)

Lemma getitem_nat {A} (l : list A) (i : nat) (x : A) :
  l !! i = Some x -> getitem l (Z.of_nat i) = inr x.
Proof.
  intros Hx. unfold getitem. pose proof (lookup_lt_Some _ _ _ Hx).
  rewrite (bool_decide_eq_false_2 (Z.of_nat i < 0)%Z) by lia.
  rewrite bool_decide_eq_true_2 by lia. by rewrite Nat2Z.id, Hx.
Qed.

Lemma getitem_beyond {A} (l : list A) (i : Z) :
  (Z.of_nat (length l) <= i)%Z -> getitem l i = inl IndexError.
Proof.
  intros Hi. unfold getitem.
  rewrite (bool_decide_eq_false_2 (i < 0)%Z) by lia.
  by rewrite bool_decide_eq_false_2 by lia.
Qed.

Lemma getitem_head {A} (l : list A) (x : A) : head l = Some x -> getitem l 0 = inr x.
Proof. destruct l as [|y l]; [done|]. by intros [= ->]. Qed.

Lemma getitem_last {A} (l : list A) (x : A) : last l = Some x -> getitem l (-1) = inr x.
Proof.
  intros Hx. unfold getitem. pose proof Hx as Hlookup. rewrite last_lookup in Hlookup.
  pose proof (lookup_lt_Some _ _ _ Hlookup).
  rewrite (bool_decide_eq_true_2 (-1 < 0)%Z) by lia.
  rewrite bool_decide_eq_true_2 by lia.
  replace (Z.to_nat (Z.of_nat (length l) + -1)) with (pred (length l)) by lia.
  by rewrite Hlookup.
Qed.

Lemma slice_take_drop {A} (l : list A) (a b : nat) :
  a <= b <= length l ->
  slice l (Z.of_nat a) (Z.of_nat b) = take (b - a) (drop a l).
Proof.
  intros Hab. unfold slice, slice_bound.
  rewrite (bool_decide_eq_false_2 (Z.of_nat a < 0)%Z) by lia.
  rewrite (bool_decide_eq_false_2 (Z.of_nat b < 0)%Z) by lia.
  by rewrite !Z.min_l, !Nat2Z.id by lia.
Qed.

Lemma mapM_returns {A B} (P : A -> B -> Prop) (f : A -> result B) (l : list A) :
  Forall (fun x => exists y, f x = inr y /\ P x y) l ->
  exists r, mapM f l = inr r /\ Forall2 P l r.
Proof.
  induction 1 as [|x l (y & Hy & HP) _ (r & Hr & HPs)]; [by exists []|].
  exists (y :: r). split; [|by constructor]. cbn. rewrite Hy. cbn. by rewrite Hr.
Qed.

Section expansion.

Import module_detector.
Local Open Scope Z_scope.

Variable patterns : list Re.regex.

Lemma module_start_from_spec (n : nat) (lines : list str) :
  (n <= length lines)%nat ->
  exists s : nat,
    module_start_from patterns n lines = inr (Z.of_nat s) /\ (s <= n)%nat /\
    (forall k line, (s <= k < n)%nat -> lines !! k = Some line ->
       strip line <> [] /\ matches_boundary patterns (strip line) = false) /\
    (s = 0%nat \/
     exists line, lines !! (s - 1)%nat = Some line /\
       (strip line = [] \/ matches_boundary patterns (strip line) = true)).
Proof.
  induction n as [|k IH]; intros Hn.
  { exists 0%nat. split; [done|]. split; [done|]. split; [intros; lia|by left]. }
  destruct (lookup_lt_is_Some_2 lines k) as [line Hline]; [lia|].
  cbn [module_start_from]. rewrite (getitem_nat _ _ _ Hline). cbn.
  destruct (bool_decide (strip line = []) || matches_boundary patterns (strip line))
    eqn:Hstop.
  - exists (S k). split; [done|]. split; [done|]. split; [intros; lia|]. right.
    exists line. replace (S k - 1)%nat with k by lia. split; [done|].
    apply orb_true_iff in Hstop as [Hblank%bool_decide_eq_true|Hmatch]; [by left|by right].
  - destruct IH as (s & Hs & Hle & Hover & Hreason); [lia|].
    exists s. split; [done|]. split; [lia|]. split; [|done].
    intros j line' Hj Hline'. destruct (decide (j = k)) as [->|Hjk].
    + rewrite Hline in Hline'. injection Hline' as <-.
      apply orb_false_iff in Hstop as [Hblank%bool_decide_eq_false Hmatch]. done.
    + apply (Hover j); [lia|done].
Qed.

(** X1. [_find_module_start] on a start line inside the file walks up over
    the lines that are neither blank nor a boundary once stripped, and
    stops below the first line that is one or at the top of the file;
    a start line beyond the lines raises [IndexError]. *)
Theorem find_module_start_expands (start_line : Z) (lines : list str) :
  (0 <= start_line <= Z.of_nat (length lines) ->
   exists s,
     _find_module_start patterns start_line lines = inr s /\
     0 <= s <= start_line /\
     (forall k line, s <= k < start_line -> lines !! Z.to_nat k = Some line ->
        strip line <> [] /\ matches_boundary patterns (strip line) = false) /\
     (s = 0 \/
      exists line, lines !! Z.to_nat (s - 1) = Some line /\
        (strip line = [] \/ matches_boundary patterns (strip line) = true))) /\
  (Z.of_nat (length lines) < start_line ->
   _find_module_start patterns start_line lines = inl IndexError).
Proof.
  split.
  - intros Hrange. unfold _find_module_start. case_bool_decide as Hpos.
    + destruct (module_start_from_spec (Z.to_nat start_line) lines)
        as (s & Hs & Hle & Hover & Hreason); [lia|].
      exists (Z.of_nat s). split; [done|]. split; [lia|]. split.
      * intros k line Hk Hline. apply (Hover (Z.to_nat k)); [lia|done].
      * destruct Hreason as [->|(line & Hline & Hstop)]; [by left|].
        destruct (decide (s = 0%nat)) as [->|Hs0]; [by left|]. right.
        exists line. split; [|done].
        by replace (Z.to_nat (Z.of_nat s - 1)) with (s - 1)%nat by lia.
    + exists start_line. split; [done|]. split; [lia|]. split; [intros; lia|left; lia].
  - intros Hbeyond. unfold _find_module_start.
    rewrite bool_decide_eq_true_2 by lia.
    destruct (Z.to_nat start_line) as [|k] eqn:Hk; [lia|].
    cbn [module_start_from]. rewrite getitem_beyond by lia. done.
Qed.

Lemma module_end_from_spec (fuel e : nat) (lines : list str) :
  (e + fuel + 1 = length lines)%nat ->
  exists e' : nat,
    module_end_from patterns fuel (Z.of_nat e) lines = inr (Z.of_nat e') /\
    (e <= e' < length lines)%nat /\
    (forall k line, (e < k <= e')%nat -> lines !! k = Some line ->
       matches_boundary patterns (strip line) = false /\
       (strip line = [] ->
        forall after, lines !! S k = Some after -> strip after <> [])) /\
    (S e' = length lines \/
     exists line, lines !! S e' = Some line /\
       (matches_boundary patterns (strip line) = true \/
        strip line = [] /\
        exists after, lines !! S (S e') = Some after /\ strip after = [])).
Proof.
  revert e. induction fuel as [|fuel IH]; intros e He.
  { exists e. split; [done|]. split; [lia|]. split; [intros; lia|left; lia]. }
  destruct (lookup_lt_is_Some_2 lines (S e)) as [line Hline]; [lia|].
  cbn [module_end_from].
  replace (Z.of_nat e + 1) with (Z.of_nat (S e)) by lia.
  rewrite (getitem_nat _ _ _ Hline). cbn.
  destruct (matches_boundary patterns (strip line)) eqn:Hmatch.
  { exists e. split; [done|]. split; [lia|]. split; [intros; lia|]. right.
    exists line. split; [done|]. by left. }
  assert (exists section_break : bool,
    (if bool_decide (strip line = [])
        && bool_decide (Z.of_nat e + 2 < Z.of_nat (length lines))
     then after ← getitem lines (Z.of_nat e + 2); mret (bool_decide (strip after = []))
     else mret false) = inr section_break /\
    (section_break = true <->
     strip line = [] /\ exists after, lines !! S (S e) = Some after /\ strip after = []))
    as (section_break & -> & Hbreak).
  { destruct (bool_decide (strip line = [])
              && bool_decide (Z.of_nat e + 2 < Z.of_nat (length lines))) eqn:Hcond.
    - apply andb_true_iff in Hcond as [Hblank%bool_decide_eq_true Hin%bool_decide_eq_true].
      destruct (lookup_lt_is_Some_2 lines (S (S e))) as [after Hafter]; [lia|].
      replace (Z.of_nat e + 2) with (Z.of_nat (S (S e))) by lia.
      rewrite (getitem_nat _ _ _ Hafter). cbn. eexists. split; [done|].
      rewrite bool_decide_eq_true. split.
      + intros Hempty. split; [done|]. by exists after.
      + intros (_ & after' & Hafter' & Hempty). congruence.
    - exists false. split; [done|]. split; [done|].
      intros (Hblank & after & Hafter & Hempty).
      apply andb_false_iff in Hcond as [Hc%bool_decide_eq_false|Hc%bool_decide_eq_false];
        [done|]. apply lookup_lt_Some in Hafter. lia. }
  cbn. destruct section_break.
  { exists e. split; [done|]. split; [lia|]. split; [intros; lia|]. right.
    exists line. split; [done|]. right. by apply Hbreak. }
  replace (Z.of_nat e + 1) with (Z.of_nat (S e)) by lia.
  destruct (IH (S e)) as (e' & He' & Hle & Hover & Hreason); [lia|].
  exists e'. split; [done|]. split; [lia|]. split; [|done].
  intros k line' Hk Hline'. destruct (decide (k = S e)) as [->|Hne].
  - rewrite Hline in Hline'. injection Hline' as <-. split; [done|].
    intros Hblank after Hafter Hempty.
    assert (false = true) as Hfalse; [|done]. apply Hbreak. split; [done|]. by exists after.
  - apply (Hover k); [lia|done].
Qed.

(** X2. [_find_module_end] on an end line inside the file walks down over
    the lines that are no boundary once stripped and are not the first of
    two blank lines, and stops at the last line of the file or above the
    first line that is one; an end line at or beyond the last line is
    returned as it is. *)
Theorem find_module_end_expands (end_line : Z) (lines : list str) :
  (0 <= end_line < Z.of_nat (length lines) ->
   exists e,
     _find_module_end patterns end_line lines = inr e /\
     end_line <= e < Z.of_nat (length lines) /\
     (forall k line, end_line < k <= e -> lines !! Z.to_nat k = Some line ->
        matches_boundary patterns (strip line) = false /\
        (strip line = [] ->
         forall after, lines !! Z.to_nat (k + 1) = Some after -> strip after <> [])) /\
     (e + 1 = Z.of_nat (length lines) \/
      exists line, lines !! Z.to_nat (e + 1) = Some line /\
        (matches_boundary patterns (strip line) = true \/
         strip line = [] /\
         exists after, lines !! Z.to_nat (e + 2) = Some after /\ strip after = []))) /\
  (Z.of_nat (length lines) - 1 <= end_line ->
   _find_module_end patterns end_line lines = inr end_line).
Proof.
  split.
  - intros Hrange. unfold _find_module_end.
    destruct (module_end_from_spec
                (Z.to_nat (Z.of_nat (length lines) - 1 - end_line))
                (Z.to_nat end_line) lines)
      as (e' & He' & Hle & Hover & Hreason); [lia|].
    rewrite Z2Nat.id in He' by lia.
    exists (Z.of_nat e'). split; [done|]. split; [lia|]. split.
    + intros k line Hk Hline. destruct (Hover (Z.to_nat k) line) as [Hmatch Hblank];
        [lia|done|]. split; [done|]. intros Hempty after Hafter.
      apply Hblank; [done|]. by replace (S (Z.to_nat k)) with (Z.to_nat (k + 1)) by lia.
    + destruct Hreason as [Hend|(line & Hline & Hstop)]; [left; lia|right].
      exists line. replace (Z.to_nat (Z.of_nat e' + 1)) with (S e') by lia.
      split; [done|]. destruct Hstop as [Hmatch|(Hblank & after & Hafter & Hempty)];
        [by left|right]. split; [done|]. exists after.
      by replace (Z.to_nat (Z.of_nat e' + 2)) with (S (S e')) by lia.
  - intros Hend. unfold _find_module_end.
    by replace (Z.to_nat (Z.of_nat (length lines) - 1 - end_line)) with 0%nat by lia.
Qed.

End expansion.

Section expansion_examples.

Import module_detector.
Local Open Scope Z_scope.

(** From line 2 of the divided file the start moves up to line 1, below
    the divider; a start line beyond the three lines raises. *)
Lemma find_module_start_expands_witness :
  let patterns := analyzer.MODULE_BOUNDARY_PATTERNS scenarios.ascii_only in
  let lines := split nl scenarios.divided_source in
  _find_module_start patterns 2 lines = inr 1 /\
  (exists s, _find_module_start patterns 2 lines = inr s /\ 0 <= s <= 2) /\
  _find_module_start patterns 4 lines = inl IndexError.
Proof.
  intros patterns lines. split; [reflexivity|].
  destruct (find_module_start_expands patterns 2 lines) as [Hinside _].
  destruct (find_module_start_expands patterns 4 lines) as [_ Hbeyond].
  split.
  - destruct Hinside as (s & Hs & Hrange & _); [vm_compute; split; discriminate|].
    by exists s.
  - apply Hbeyond. reflexivity.
Defined.

(** From the divider of the divided file the end moves down to the last
    line. *)
Lemma find_module_end_expands_witness :
  let patterns := analyzer.MODULE_BOUNDARY_PATTERNS scenarios.ascii_only in
  let lines := split nl scenarios.divided_source in
  _find_module_end patterns 0 lines = inr 2 /\
  (exists e, _find_module_end patterns 0 lines = inr e /\ 0 <= e < 3) /\
  _find_module_end patterns 5 lines = inr 5.
Proof.
  intros patterns lines. split; [reflexivity|].
  destruct (find_module_end_expands patterns 0 lines) as [Hinside _].
  destruct (find_module_end_expands patterns 5 lines) as [_ Hbeyond].
  split.
  - destruct Hinside as (e & He & Hrange & _); [vm_compute; split; [discriminate|reflexivity]|].
    by exists e.
  - apply Hbeyond. vm_compute. discriminate.
Defined.

End expansion_examples.

Section grouping_partition.

Import module_detector.
Local Open Scope Z_scope.

(** The groups after one more boundary. *)
Lemma group_related_snoc (t : Z) (bs : list Z) (p : Z) :
  exists init g,
    _group_related_boundaries (bs ++ [p]) t = init ++ [g] /\
    last g = Some p /\
    forall b, _group_related_boundaries ((bs ++ [p]) ++ [b]) t =
      if bool_decide (b - p < t) then init ++ [g ++ [b]] else init ++ [g; [b]].
Proof.
  rewrite group_related_close, (foldl_app _ bs). simpl.
  pose proof (group_step_last t (foldl (group_step t) ([], []) bs) p) as Hlast.
  destruct (group_step t (foldl (group_step t) ([], []) bs) p)
    as [grouped current] eqn:Hst.
  simpl in Hlast. exists grouped, current.
  destruct current as [|c current]; [done|].
  split; [done|]. split; [done|]. intros b.
  rewrite group_related_close, (foldl_app _ (bs ++ [p])), (foldl_app _ bs). simpl.
  rewrite Hst. unfold group_step. rewrite Hlast.
  case_bool_decide; unfold close; simpl; [done|]. by rewrite <- app_assoc.
Qed.

Lemma lookup_snoc_cases {A} (l : list A) (x : A) (i : nat) (y : A) :
  (l ++ [x]) !! i = Some y ->
  l !! i = Some y \/ (i = length l /\ y = x).
Proof.
  intros H. apply lookup_app_Some in H as [H|[Hle H]]; [by left|right].
  apply list_lookup_singleton_Some in H as [? ->]. split; [lia|done].
Qed.

(** X3. Grouping keeps every boundary, in order, and makes no empty group:
    the groups put end to end are the list of boundaries. Two boundaries
    next to each other in a group are less than the threshold apart, and
    a group starts at least the threshold after the end of the group
    before it. *)
Theorem grouping_partitions_boundaries (boundaries : list Z) (t : Z) :
  let groups := _group_related_boundaries boundaries t in
  concat groups = boundaries /\
  Forall (fun g => g <> []) groups /\
  (forall g i x y, g ∈ groups -> g !! i = Some x -> g !! S i = Some y -> y - x < t) /\
  (forall k g1 g2 x y, groups !! k = Some g1 -> groups !! S k = Some g2 ->
     last g1 = Some x -> head g2 = Some y -> y - x >= t).
Proof.
  induction boundaries as [|b bs IH] using rev_ind.
  { cbn. split; [done|]. split; [done|]. split.
    - by intros g i x y ?%elem_of_nil.
    - intros k g1 g2 x y Hk. by rewrite lookup_nil in Hk. }
  destruct bs as [|p bs _] using rev_ind.
  { cbn. split; [done|]. split; [by repeat constructor|]. split.
    - intros g i x y Hg%list_elem_of_singleton Hx Hy. subst g. by destruct i.
    - intros k g1 g2 x y Hk Hk'. by destruct k. }
  destruct (group_related_snoc t bs p) as (init & g & Hgroups & Hlast & Hnext).
  cbv zeta in IH. rewrite Hgroups in IH.
  destruct IH as (Hconcat & Hnonempty & Hgaps & Hapart).
  cbv zeta. rewrite Hnext. clear Hnext Hgroups.
  rewrite concat_app in Hconcat. simpl in Hconcat. rewrite app_nil_r in Hconcat.
  apply Forall_app in Hnonempty as [Hinit Hg].
  case_bool_decide as Hclose.
  - split; [|split; [|split]].
    + rewrite concat_app. simpl. rewrite ?app_nil_r, app_assoc. by rewrite Hconcat.
    + apply Forall_app. split; [done|]. apply Forall_singleton. by destruct g.
    + intros g' i x y [Hg'|Hg'%list_elem_of_singleton]%elem_of_app Hx Hy; [|subst g'].
      * eapply (Hgaps g'); [|done..]. apply elem_of_app. by left.
      * apply lookup_snoc_cases in Hy as [Hy|[Hi ->]].
        -- eapply (Hgaps g); [apply elem_of_app; right; left| |done].
           apply lookup_snoc_cases in Hx as [Hx|[Hi _]]; [done|].
           apply lookup_lt_Some in Hy. lia.
        -- apply lookup_snoc_cases in Hx as [Hx|[Hi' _]]; [|lia].
           rewrite last_lookup in Hlast. rewrite <- Hi in Hlast. simpl in Hlast.
           rewrite Hx in Hlast. by injection Hlast as ->.
    + intros k g1 g2 x y Hk Hk' Hx Hy.
      apply lookup_snoc_cases in Hk' as [Hk'|[Hlen ->]].
      * eapply (Hapart k g1 g2); [|by apply lookup_app_l_Some|done..].
        apply lookup_snoc_cases in Hk as [Hk|[Hlen _]]; [by apply lookup_app_l_Some|].
        apply lookup_lt_Some in Hk'. lia.
      * apply lookup_snoc_cases in Hk as [Hk|[Hlen' _]]; [|lia].
        eapply (Hapart k g1 g); [by apply lookup_app_l_Some| |done|].
        -- rewrite lookup_app_r by lia. replace (S k - length init)%nat with 0%nat by lia. done.
        -- destruct g; [done|]. done.
  - split; [|split; [|split]].
    + rewrite concat_app. simpl. rewrite ?app_nil_r, app_assoc. by rewrite Hconcat.
    + apply Forall_app. split; [done|]. rewrite Forall_singleton in Hg.
      by repeat constructor.
    + intros g' i x y Hg' Hx Hy.
      replace (init ++ [g; [b]]) with ((init ++ [g]) ++ [[b]]) in Hg'
        by by rewrite <- app_assoc.
      apply elem_of_app in Hg' as [Hg'|Hg'%list_elem_of_singleton]; [|subst g'].
      * by eapply (Hgaps g').
      * by destruct i.
    + intros k g1 g2 x y Hk Hk' Hx Hy.
      replace (init ++ [g; [b]]) with ((init ++ [g]) ++ [[b]]) in Hk, Hk'
        by by rewrite <- app_assoc.
      apply lookup_snoc_cases in Hk' as [Hk'|[Hlen ->]].
      * eapply (Hapart k g1 g2); [|done..].
        apply lookup_snoc_cases in Hk as [Hk|[Hlen _]]; [done|].
        apply lookup_lt_Some in Hk'. lia.
      * rewrite length_app in Hlen. simpl in Hlen.
        rewrite lookup_app_l in Hk by (rewrite length_app; simpl; lia).
        rewrite lookup_app_r in Hk by lia.
        replace (k - length init)%nat with 0%nat in Hk by lia.
        injection Hk as <-. injection Hy as <-. rewrite Hlast in Hx. injection Hx as <-. lia.
Qed.

End grouping_partition.

Section grouping_partition_examples.

Import module_detector.
Local Open Scope Z_scope.

(** The boundaries 2, 5, 20, 22: the gap inside the first group and the
    gap between the groups. *)
Lemma grouping_partitions_boundaries_witness :
  concat (_group_related_boundaries [2; 5; 20; 22] 10) = [2; 5; 20; 22] /\
  5 - 2 < 10 /\ 20 - 5 >= 10.
Proof.
  destruct (grouping_partitions_boundaries [2; 5; 20; 22] 10)
    as (Hconcat & _ & Hgaps & Hapart).
  split; [exact Hconcat|]. split.
  - apply (Hgaps [2; 5] 0%nat 2 5); [left|reflexivity|reflexivity].
  - apply (Hapart 0%nat [2; 5] [20; 22] 5 20); reflexivity.
Defined.

End grouping_partition_examples.

(** ** Sorted boundaries *)

Lemma elem_of_insert_sorted (x y : Z) (l : list Z) :
  y ∈ insert_sorted x l <-> y = x \/ y ∈ l.
Proof.
  induction l as [|z l IH]; simpl.
  - rewrite list_elem_of_singleton, elem_of_nil. naive_solver.
  - repeat case_bool_decide; rewrite ?elem_of_cons, ?IH; naive_solver.
Qed.

Lemma elem_of_sorted_set (y : Z) (l : list Z) : y ∈ sorted_set l <-> y ∈ l.
Proof.
  unfold sorted_set. induction l as [|x l IH]; [done|]. simpl.
  rewrite elem_of_insert_sorted, elem_of_cons, IH. done.
Qed.

Lemma insert_sorted_sorted (x : Z) (l : list Z) :
  StronglySorted Z.lt l -> StronglySorted Z.lt (insert_sorted x l).
Proof.
  induction 1 as [|z l Hl IH Hz]; simpl; [by repeat constructor|].
  repeat case_bool_decide.
  - constructor; [by constructor|]. constructor; [done|].
    eapply Forall_impl; [done|]. simpl. lia.
  - by constructor.
  - constructor; [done|]. apply Forall_forall. intros y [->|Hy]%elem_of_insert_sorted.
    + lia.
    + by eapply Forall_forall in Hz.
Qed.

Lemma sorted_set_sorted (l : list Z) : StronglySorted Z.lt (sorted_set l).
Proof.
  unfold sorted_set. induction l as [|x l IH]; [constructor|].
  simpl. by apply insert_sorted_sorted.
Qed.

Lemma sorted_head_last (l : list Z) (x y : Z) :
  StronglySorted Z.lt l -> head l = Some x -> last l = Some y -> (x <= y)%Z.
Proof.
  destruct 1 as [|z l Hl Hz]; [done|]. simpl. intros [= ->] Hy.
  destruct l as [|z' l']; [simpl in Hy; injection Hy as ->; lia|].
  assert (y ∈ z' :: l') as Hin.
  { change (last (x :: z' :: l')) with (last (z' :: l')) in Hy.
    apply last_Some in Hy as [l0 ->]. apply elem_of_app. right. left. }
  eapply Forall_forall in Hz; [|done]. lia.
Qed.

Lemma sorted_concat (groups : list (list Z)) (g : list Z) :
  StronglySorted Z.lt (concat groups) -> g ∈ groups -> StronglySorted Z.lt g.
Proof.
  induction groups as [|g' groups IH]; [by intros _ ?%elem_of_nil|].
  simpl. intros Hsorted [->|Hg]%elem_of_cons.
  - by eapply StronglySorted_app_1_l.
  - apply IH; [|done]. by eapply StronglySorted_app_1_r.
Qed.

Section detection.

Import module_detector.
Local Open Scope Z_scope.

Lemma group_related_concat (bs : list Z) (t : Z) :
  concat (_group_related_boundaries bs t) = bs /\
  Forall (fun g => g <> []) (_group_related_boundaries bs t).
Proof.
  induction bs as [|b bs IH] using rev_ind; [done|].
  destruct bs as [|p bs _] using rev_ind; [by repeat constructor|].
  destruct (group_related_snoc t bs p) as (init & g & Hgroups & Hlast & Hnext).
  rewrite Hgroups in IH. destruct IH as [Hconcat Hnonempty].
  rewrite Hnext. rewrite concat_app in Hconcat. simpl in Hconcat.
  rewrite app_nil_r in Hconcat. apply Forall_app in Hnonempty as [Hinit Hg].
  rewrite Forall_singleton in Hg.
  case_bool_decide; (split; [rewrite concat_app; simpl;
    rewrite ?app_nil_r, app_assoc; by rewrite Hconcat|]);
    (apply Forall_app; split; [done|]).
  - apply Forall_singleton. by destruct g.
  - by repeat constructor.
Qed.

Lemma elem_of_find_section_boundaries (patterns : list Re.regex) (lines : list str)
    (z : Z) :
  z ∈ _find_section_boundaries patterns lines <->
  exists i line, z = Z.of_nat i /\ lines !! i = Some line /\
                 matches_boundary patterns line = true.
Proof.
  unfold _find_section_boundaries, matches_boundary. rewrite list_elem_of_bind. split.
  - intros ([i line] & Hz & Hline%elem_of_enumerate).
    apply list_elem_of_fmap in Hz as (pattern & -> & Hpattern).
    apply list_elem_of_In, filter_In in Hpattern as [Hin Hmatch].
    exists i, line. split; [done|]. split; [done|].
    apply existsb_exists. by exists pattern.
  - intros (i & line & -> & Hline & (pattern & Hin & Hmatch)%existsb_exists).
    exists (i, line). split; [|by apply elem_of_enumerate].
    apply list_elem_of_fmap. exists pattern. split; [done|].
    apply list_elem_of_In, filter_In. done.
Qed.

(** What a module the detector returns has to do with its group of
    boundaries and its place in the list. *)
Definition covers (patterns : list Re.regex) (lines : list str) (i : nat)
    (group : list Z) (m : ModuleInfo) : Prop :=
  exists first final,
    head group = Some first /\ last group = Some final /\
    0 <= start_line m <= first /\ final <= end_line m < Z.of_nat (length lines) /\
    _find_module_start patterns first lines = inr (start_line m) /\
    _find_module_end patterns final lines = inr (end_line m) /\
    content m
      = join [nl] (take (Z.to_nat (end_line m + 1 - start_line m))
                        (drop (Z.to_nat (start_line m)) lines)) /\
    name m = _extract_module_name (content m) (py "module_" ++ str_of_nat i).

Lemma module_definition_covers (patterns : list Re.regex) (lines : list str)
    (i : nat) (group : list Z) :
  group <> [] -> StronglySorted Z.lt group ->
  Forall (fun z => 0 <= z < Z.of_nat (length lines)) group ->
  exists m, module_definition patterns lines i group = inr m /\
            covers patterns lines i group m.
Proof.
  intros Hne Hsorted Hrange.
  destruct (head group) as [first|] eqn:Hfirst; [|by destruct group].
  destruct (last group) as [final|] eqn:Hfinal; [|by apply last_None in Hfinal].
  assert (first ∈ group) as Hfirst_in by (destruct group; simplify_eq/=; left).
  assert (final ∈ group) as Hfinal_in.
  { apply last_Some in Hfinal as [l0 ->]. apply elem_of_app. right. left. }
  pose proof (sorted_head_last group first final Hsorted Hfirst Hfinal) as Hle.
  pose proof (proj1 (Forall_forall _ _) Hrange first Hfirst_in) as Hfirst_range.
  pose proof (proj1 (Forall_forall _ _) Hrange final Hfinal_in) as Hfinal_range.
  cbv beta in Hfirst_range, Hfinal_range.
  destruct (proj1 (find_module_start_expands patterns first lines))
    as (s & Hs & Hs_range & _); [lia|].
  destruct (proj1 (find_module_end_expands patterns final lines))
    as (e & He & He_range & _); [lia|].
  unfold module_definition.
  rewrite (getitem_head _ _ Hfirst), (getitem_last _ _ Hfinal). cbn.
  rewrite Hs. cbn. rewrite He. cbn.
  eexists. split; [done|]. exists first, final. cbn.
  assert (slice lines s (e + 1)
          = take (Z.to_nat (e + 1 - s)) (drop (Z.to_nat s) lines)) as ->.
  { rewrite <- (Z2Nat.id s), <- (Z2Nat.id (e + 1)) by lia.
    rewrite slice_take_drop by lia. f_equal; [lia|]. by rewrite !Z2Nat.id by lia. }
  repeat split; try done; lia.
Qed.

End detection.

Section whole_detection.

Import module_detector.
Local Open Scope Z_scope.

Lemma groups_of_boundaries (lines : list str) (boundaries : list Z) (t : Z) (g : list Z) :
  Forall (fun z => 0 <= z < Z.of_nat (length lines)) boundaries ->
  g ∈ _group_related_boundaries (sorted_set boundaries) t ->
  g <> [] /\ StronglySorted Z.lt g /\
  Forall (fun z => 0 <= z < Z.of_nat (length lines)) g.
Proof.
  intros Hrange Hg.
  destruct (group_related_concat (sorted_set boundaries) t) as [Hconcat Hnonempty].
  split; [by eapply Forall_forall in Hnonempty|]. split.
  - eapply sorted_concat; [|done]. rewrite Hconcat. apply sorted_set_sorted.
  - apply Forall_forall. intros z Hz.
    assert (z ∈ concat (_group_related_boundaries (sorted_set boundaries) t)) as Hin.
    { apply list_elem_of_In, in_concat. exists g. by rewrite <- !list_elem_of_In. }
    rewrite Hconcat, elem_of_sorted_set in Hin.
    by eapply Forall_forall in Hrange.
Qed.

(** X4. For a source that parses and holds no class or function definition
    with a public name, boundary detection returns, with one module for
    every group of divider lines: the module starts at or above the first
    boundary of its group and ends at or below the last one, inside the
    file, its content is the lines from its start to its end, and its name
    is derived from that content with [module_i] as the default. *)
Theorem detection_covers_boundaries (ast_parse : str -> result node)
    (patterns : list Re.regex) (source_code : str) (tree : node) :
  ast_parse source_code = inr tree ->
  Forall (fun n => is_public_definition n = false) (walk tree) ->
  let lines := split nl source_code in
  let groups :=
    _group_related_boundaries (sorted_set (_find_section_boundaries patterns lines))
      proximity_threshold_default in
  exists modules,
    detect_module_boundaries ast_parse patterns source_code = inr modules /\
    Forall2 (fun entry m => covers patterns lines entry.1 entry.2 m)
            (enumerate groups) modules.
Proof.
  intros Hparse Hdefs lines groups.
  destruct (definition_scan_empty tree Hdefs) as [Hscan _].
  unfold detect_module_boundaries. rewrite Hparse. cbn. rewrite Hscan. cbn.
  rewrite app_nil_r. fold lines. fold groups.
  unfold _create_module_definitions.
  destruct (mapM_returns (fun entry m => covers patterns lines entry.1 entry.2 m)
              (fun '(i, group) => module_definition patterns lines i group)
              (enumerate groups)) as (modules & Hmodules & Hcovers).
  - apply Forall_forall. intros [i g] Hg%elem_of_enumerate.
    apply list_elem_of_lookup_2 in Hg.
    destruct (groups_of_boundaries lines (_find_section_boundaries patterns lines)
                proximity_threshold_default g) as (Hne & Hsorted & Hrange); [|done|].
    + apply Forall_forall. intros z (k & line & -> & Hline & _)%elem_of_find_section_boundaries.
      apply lookup_lt_Some in Hline. lia.
    + by apply module_definition_covers.
  - by exists modules.
Qed.

End whole_detection.

Section whole_detection_examples.

Import module_detector.
Local Open Scope Z_scope.

(** The divided file is one module, from the divider to the last line. *)
Lemma detection_covers_boundaries_witness :
  let ast_parse := scenarios.table_parse scenarios.divided_table in
  let patterns := analyzer.MODULE_BOUNDARY_PATTERNS scenarios.ascii_only in
  exists m,
    detect_module_boundaries ast_parse patterns scenarios.divided_source = inr [m] /\
    covers patterns (split nl scenarios.divided_source) 0 [0] m /\
    start_line m = 0 /\ end_line m = 2 /\ name m = py "module_0".
Proof.
  intros ast_parse patterns.
  destruct (detection_covers_boundaries ast_parse patterns scenarios.divided_source
              scenarios.divided_tree) as (modules & Hmodules & Hcovers).
  - reflexivity.
  - vm_compute. repeat constructor.
  - vm_compute in Hmodules. injection Hmodules as <-.
    eexists. split; [vm_compute; reflexivity|].
    apply Forall2_cons_1 in Hcovers as [Hcover _].
    split; [exact Hcover|]. repeat split; reflexivity.
Defined.

End whole_detection_examples.

Lemma bind_inr {A B} (x : A) (k : A -> result B) : inr x ≫= k = k x.
Proof. done. Qed.

Section analyzer_detection.

Import module_detector.
Local Open Scope Z_scope.

Variable unicode_alnum : N -> bool.

Lemma expand_start_spec (n : nat) (lines : list str) :
  (n <= length lines)%nat ->
  exists s : nat,
    analyzer.expand_start unicode_alnum n lines = inr (Z.of_nat s) /\ (s <= n)%nat /\
    (forall k line, (s <= k < n)%nat -> lines !! k = Some line ->
       strip line <> [] /\ analyzer.matches_any unicode_alnum line = false) /\
    (s = 0%nat \/
     exists line, lines !! (s - 1)%nat = Some line /\
       (strip line = [] \/ analyzer.matches_any unicode_alnum line = true)).
Proof.
  induction n as [|k IH]; intros Hn.
  { exists 0%nat. split; [done|]. split; [done|]. split; [intros; lia|by left]. }
  destruct (lookup_lt_is_Some_2 lines k) as [line Hline]; [lia|].
  cbn [analyzer.expand_start]. rewrite (getitem_nat _ _ _ Hline), bind_inr.
  destruct (bool_decide (strip line <> [])
            && negb (analyzer.matches_any unicode_alnum line)) eqn:Hgo.
  - destruct IH as (s & Hs & Hle & Hover & Hstop); [lia|].
    exists s. split; [done|]. split; [lia|]. split; [|done].
    intros j line' Hj Hline'. destruct (decide (j = k)) as [->|Hjk].
    + rewrite Hline in Hline'. injection Hline' as <-.
      apply andb_true_iff in Hgo as [Hblank%bool_decide_eq_true Hmatch%negb_true_iff].
      done.
    + apply (Hover j); [lia|done].
  - exists (S k). split; [done|]. split; [done|]. split; [intros; lia|].
    right. exists line. replace (S k - 1)%nat with k by lia. split; [done|].
    apply andb_false_iff in Hgo as [Hblank%bool_decide_eq_false|Hmatch%negb_false_iff].
    + left. by destruct (decide (strip line = [])).
    + by right.
Qed.

Lemma expand_end_spec (fuel e : nat) (lines : list str) :
  (e + fuel + 1 = length lines)%nat ->
  exists e' : nat,
    analyzer.expand_end unicode_alnum fuel (Z.of_nat e) lines = inr (Z.of_nat e') /\
    (e <= e' < length lines)%nat /\
    (forall k line, (e < k <= e')%nat -> lines !! k = Some line ->
       strip line <> [] /\
       ((S e < k)%nat -> analyzer.matches_any unicode_alnum line = false)) /\
    ((S e' = length lines)%nat \/
     exists line, lines !! S e' = Some line /\
       (strip line = [] \/
        ((e < e')%nat /\ analyzer.matches_any unicode_alnum line = true))).
Proof.
  revert e. induction fuel as [|fuel IH]; intros e He.
  { exists e. split; [done|]. split; [lia|]. split; [intros; lia|]. left. lia. }
  destruct (lookup_lt_is_Some_2 lines (S e)) as [line Hline]; [lia|].
  cbn [analyzer.expand_end].
  replace (Z.of_nat e + 1) with (Z.of_nat (S e)) by lia.
  rewrite (getitem_nat _ _ _ Hline), bind_inr.
  case_bool_decide as Hblank.
  2:{ exists e. split; [done|]. split; [lia|]. split; [intros; lia|].
      right. exists line. split; [done|]. left.
      by destruct (decide (strip line = [])). }
  assert (exists at_boundary : bool,
    (if bool_decide (Z.of_nat (S e) + 1 < Z.of_nat (length lines))
     then after ← getitem lines (Z.of_nat (S e) + 1);
          mret (analyzer.matches_any unicode_alnum after)
     else mret false) = inr at_boundary /\
    forall after, lines !! S (S e) = Some after ->
      analyzer.matches_any unicode_alnum after = at_boundary)
    as (at_boundary & -> & Hafter).
  { case_bool_decide as Hin.
    - destruct (lookup_lt_is_Some_2 lines (S (S e))) as [after Hafter]; [lia|].
      replace (Z.of_nat (S e) + 1) with (Z.of_nat (S (S e))) by lia.
      rewrite (getitem_nat _ _ _ Hafter), bind_inr. eexists. split; [done|].
      intros after' Hafter'. congruence.
    - exists false. split; [done|]. intros after Hafter%lookup_lt_Some. lia. }
  rewrite bind_inr. destruct at_boundary.
  - exists (S e). split; [done|]. split; [lia|]. split.
    + intros k line' Hk Hline'. replace k with (S e) in * by lia.
      split; [congruence|lia].
    + destruct (lines !! S (S e)) as [after|] eqn:Hnext.
      * right. exists after. split; [done|]. right. split; [lia|by apply Hafter].
      * left. apply lookup_ge_None in Hnext. apply lookup_lt_Some in Hline. lia.
  - destruct (IH (S e)) as (e' & He' & Hle & Hover & Hstop); [lia|].
    exists e'. split; [done|]. split; [lia|]. split.
    + intros k line' Hk Hline'. destruct (decide (k = S e)) as [->|Hne].
      { split; [congruence|lia]. }
      destruct (Hover k line') as [Hfull Hplain]; [lia|done|]. split; [done|].
      intros _. destruct (decide (k = S (S e))) as [->|Hne']; [by apply Hafter|].
      apply Hplain. lia.
    + destruct Hstop as [Hstop|(next & Hnext & [Hstop|[Hmoved Hstop]])]; [by left|..];
        right; exists next; (split; [done|]); [by left|right; split; [lia|done]].
Qed.

Lemma module_of_group_spans (lines : list str) (i : nat) (group : list Z) :
  group <> [] -> StronglySorted Z.lt group ->
  Forall (fun z => 0 <= z < Z.of_nat (length lines)) group ->
  exists m, analyzer.module_of_group unicode_alnum lines i group = inr m /\
            analyzer.spans unicode_alnum lines i group m.
Proof.
  intros Hne Hsorted Hrange.
  destruct (head group) as [first|] eqn:Hfirst; [|by destruct group].
  destruct (last group) as [final|] eqn:Hfinal; [|by apply last_None in Hfinal].
  assert (first ∈ group) as Hfirst_in by (destruct group; simplify_eq/=; left).
  assert (final ∈ group) as Hfinal_in.
  { apply last_Some in Hfinal as [l0 ->]. apply elem_of_app. right. left. }
  pose proof (sorted_head_last group first final Hsorted Hfirst Hfinal) as Hle.
  pose proof (proj1 (Forall_forall _ _) Hrange first Hfirst_in) as Hfirst_range.
  pose proof (proj1 (Forall_forall _ _) Hrange final Hfinal_in) as Hfinal_range.
  cbv beta in Hfirst_range, Hfinal_range.
  assert (exists s,
    (if bool_decide (first > 0)
     then analyzer.expand_start unicode_alnum (Z.to_nat first) lines
     else mret first) = inr s /\ 0 <= s <= first /\
    (forall k line, s <= k < first -> lines !! Z.to_nat k = Some line ->
       strip line <> [] /\ analyzer.matches_any unicode_alnum line = false) /\
    (s = 0 \/
     exists line, lines !! Z.to_nat (s - 1) = Some line /\
       (strip line = [] \/ analyzer.matches_any unicode_alnum line = true)))
    as (s & Hs & Hs_range & Hs_over & Hs_stop).
  { case_bool_decide.
    - destruct (expand_start_spec (Z.to_nat first) lines)
        as (s & Hs & Hle' & Hover & Hstop); [lia|].
      exists (Z.of_nat s). split; [done|]. split; [lia|]. split.
      + intros k line Hk Hline. apply (Hover (Z.to_nat k)); [lia|done].
      + destruct Hstop as [->|(line & Hline & Hstop)]; [by left|].
        right. exists line. split; [|done].
        by replace (Z.to_nat (Z.of_nat s - 1)) with (s - 1)%nat by lia.
    - exists first. split; [done|]. split; [lia|]. split; [intros; lia|]. left. lia. }
  destruct (expand_end_spec (Z.to_nat (Z.of_nat (length lines) - 1 - final))
              (Z.to_nat final) lines) as (e & He & He_range & He_over & He_stop); [lia|].
  rewrite Z2Nat.id in He by lia.
  unfold analyzer.module_of_group.
  rewrite (getitem_head _ _ Hfirst), (getitem_last _ _ Hfinal), !bind_inr.
  rewrite Hs, bind_inr, He, bind_inr.
  eexists. split; [done|]. exists first, final. cbn.
  assert (slice lines s (Z.of_nat e + 1)
          = take (Z.to_nat (Z.of_nat e + 1 - s)) (drop (Z.to_nat s) lines)) as ->.
  { rewrite <- (Z2Nat.id s) at 1 by lia.
    replace (Z.of_nat e + 1) with (Z.of_nat (S e)) by lia.
    rewrite slice_take_drop by lia. f_equal. lia. }
  split; [done|]. split; [done|]. split; [done|]. split; [lia|]. split; [done|].
  split; [done|]. split; [|split; [|done]].
  - intros k line Hk Hline.
    destruct (He_over (Z.to_nat k) line) as [Hfull Hplain]; [lia|done|].
    split; [done|]. intros Hk'. apply Hplain. lia.
  - destruct He_stop as [Hstop|(line & Hline & Hstop)]; [left; lia|].
    right. exists line. split.
    + by replace (Z.to_nat (Z.of_nat e + 1)) with (S e) by lia.
    + destruct Hstop as [Hstop|[Hmoved Hstop]]; [by left|]. right. split; [lia|done].
Qed.

(** X5. [CodeAnalyzer._detect_module_boundaries] on a tree without a class
    or function definition with a public name returns, with one module
    for every group of divider lines. The module starts where the first
    loop stops: it goes from the first boundary up over lines that are
    not blank and match no pattern and stops at line 0 or below a line
    that is blank or matches a pattern. It ends where the second loop
    stops: it goes from the last boundary down over lines that are not
    blank, of which only the first may match a pattern, and stops at the
    last line of the file, above a blank line or, once it has moved,
    above a line that matches a pattern. The content of the module is the
    lines from its start to its end. *)
Theorem analyzer_detection_spans_boundaries (source_code : str) (tree : node) :
  Forall (fun n => is_public_definition n = false) (walk tree) ->
  let lines := split nl source_code in
  let groups :=
    _group_related_boundaries
      (sorted_set (analyzer.section_boundaries_of unicode_alnum lines)) 10 in
  exists modules,
    analyzer._detect_module_boundaries unicode_alnum source_code tree = inr modules /\
    Forall2 (fun entry m => analyzer.spans unicode_alnum lines entry.1 entry.2 m)
            (enumerate groups) modules.
Proof.
  intros Hdefs lines groups.
  destruct (definition_scan_empty tree Hdefs) as [_ Hscan].
  unfold analyzer._detect_module_boundaries. rewrite Hscan, bind_inr.
  rewrite app_nil_r. fold lines. fold groups.
  destruct (mapM_returns (fun entry m => analyzer.spans unicode_alnum lines entry.1 entry.2 m)
              (fun '(i, group) => analyzer.module_of_group unicode_alnum lines i group)
              (enumerate groups)) as (modules & Hmodules & Hspans).
  - apply Forall_forall. intros [i g] Hg%elem_of_enumerate.
    apply list_elem_of_lookup_2 in Hg.
    destruct (groups_of_boundaries lines
                (analyzer.section_boundaries_of unicode_alnum lines) 10 g)
      as (Hne & Hsorted & Hrange); [|done|].
    + apply Forall_forall. intros z Hz.
      unfold analyzer.section_boundaries_of in Hz.
      apply list_elem_of_bind in Hz as ([k line] & Hz & Hline%elem_of_enumerate).
      apply list_elem_of_fmap in Hz as (pattern & -> & _).
      apply lookup_lt_Some in Hline. lia.
    + by apply module_of_group_spans.
  - by exists modules.
Qed.

End analyzer_detection.

Section analyzer_detection_examples.

Import module_detector.
Local Open Scope Z_scope.

(** The divided file with the divider on its second line: the module
    goes up over the first line and down over the third. *)
Lemma analyzer_detection_spans_boundaries_witness :
  exists m,
    analyzer._detect_module_boundaries scenarios.ascii_only scenarios.preceded_source
      scenarios.divided_tree = inr [m] /\
    analyzer.spans scenarios.ascii_only (split nl scenarios.preceded_source) 0 [1] m /\
    start_line m = 0 /\ end_line m = 2.
Proof.
  destruct (analyzer_detection_spans_boundaries scenarios.ascii_only
              scenarios.preceded_source scenarios.divided_tree)
    as (modules & Hmodules & Hspans).
  - vm_compute. repeat constructor.
  - vm_compute in Hmodules. injection Hmodules as <-.
    eexists. split; [vm_compute; reflexivity|].
    apply Forall2_cons_1 in Hspans as [Hspan _].
    split; [exact Hspan|]. split; reflexivity.
Defined.

End analyzer_detection_examples.

(** Turns the tests on a code point into arithmetic. *)
Ltac code_points :=
  unfold Re.is_ident_char, lower_cp, upper_cp in *;
  repeat match goal with
         | H : context [if ?b then _ else _] |- _ => destruct b eqn:?
         | |- context [if ?b then _ else _] => destruct b eqn:?
         end;
  unfold is_letter, is_upper, is_lower, is_digit, in_range in *;
  rewrite ?orb_true_iff, ?andb_true_iff, ?orb_false_iff, ?andb_false_iff,
    ?negb_true_iff, ?negb_false_iff, ?N.leb_le, ?N.leb_gt, ?N.eqb_eq, ?N.eqb_neq
    in *;
  try lia.

(** ** The shape of module names *)
Section name_shape.

Import Re module_detector.

Lemma forallb_lstrip_by (P drop_it : N -> bool) (s : str) :
  forallb P s = true -> forallb P (lstrip_by drop_it s) = true.
Proof.
  intros Hs. destruct (lstrip_by_suffix drop_it s) as [w Hw].
  rewrite Hw, forallb_app in Hs. by apply andb_true_iff in Hs as [_ ?].
Qed.

Lemma forallb_reverse (P : N -> bool) (s : str) :
  forallb P (reverse s) = forallb P s.
Proof.
  induction s as [|c s IH]; [done|].
  rewrite reverse_cons, forallb_app, IH. simpl. rewrite andb_true_r. apply andb_comm.
Qed.

Lemma forallb_strip_by (P drop_it : N -> bool) (s : str) :
  forallb P s = true -> forallb P (strip_by drop_it s) = true.
Proof.
  intros Hs. unfold strip_by, rstrip_by.
  rewrite forallb_reverse. apply forallb_lstrip_by.
  rewrite forallb_reverse. by apply forallb_lstrip_by.
Qed.

(** The header rule captures ASCII letters and spaces. *)
Lemma header_rule_group (st st' : mstate) :
  st' ∈ run header_re st ->
  forallb (fun c => is_letter c || (c =? 32)%N) (group (m_groups st') 1) = true.
Proof.
  unfold header_re.
  intros (st1 & _ & (st2 & _ & (st3 & _ & (st4 & Hst4 & (st5 & Hst5 & Hst')%elem_of_run_Seq
    )%elem_of_run_Seq)%elem_of_run_Seq)%elem_of_run_Seq)%elem_of_run_Seq.
  apply elem_of_run_Chr in Hst' as (c' & _ & _ & _ & Hgroups').
  apply elem_of_rounds_Chr in Hst5 as (w' & _ & _ & Hgroups5).
  apply elem_of_run_Group in Hst4 as (st6 & Hst6 & ->).
  rewrite Hgroups', Hgroups5.
  unfold plus in Hst6. apply elem_of_run_Seq in Hst6 as (st7 & Hst7 & Hst6).
  apply elem_of_run_Chr in Hst7 as (c & Hrest & Hc & _).
  apply elem_of_rounds_Chr in Hst6 as (w & Hw & Hall & _).
  cbn. case_bool_decide; [|done].
  rewrite (consumed_app st3 st6 (c :: w)) by (by rewrite Hrest, Hw).
  cbn [forallb]. by rewrite Hc, Hall.
Qed.

(** The function rule captures an ASCII small letter followed by
    identifier characters. *)
Lemma function_rule_group (st st' : mstate) :
  st' ∈ run function_name_re st ->
  exists c w, group (m_groups st') 1 = c :: w /\ is_lower c = true /\
              forallb is_ident_char w = true.
Proof.
  unfold function_name_re.
  intros (st1 & _ & (st2 & Hst2 & [_ Hgroups]%elem_of_run_lit)%elem_of_run_Seq
    )%elem_of_run_Seq.
  apply elem_of_run_Group in Hst2 as (st3 & Hst3 & ->). rewrite Hgroups.
  apply elem_of_run_Seq in Hst3 as (st4 & Hst4 & Hst3).
  apply elem_of_run_Chr in Hst4 as (c & Hrest & Hc & _).
  apply elem_of_rounds_Chr in Hst3 as (w & Hw & Hall & _).
  exists c, w. split; [|done]. cbn. case_bool_decide; [|done].
  apply consumed_app. by rewrite Hrest, Hw.
Qed.

Lemma lower_ident_char (c : N) :
  is_ident_char c = true -> is_ident_char (lower_cp c) = true.
Proof. intros H. code_points. Qed.

Lemma lower_letter (c : N) :
  is_letter c = true -> is_lower (lower_cp c) = true /\ lower_cp c <> 32%N.
Proof. intros H. split; code_points. Qed.

(** A stripped label in small letters, with underscores for its spaces. *)
Lemma label_name (label : str) :
  forallb (fun c => is_letter c || (c =? 32)%N) label = true ->
  let name := replace 32 95 (lower (strip label)) in
  name = [] /\ strip label = [] \/
  exists c w, name = c :: w /\ is_lower c = true /\ forallb is_ident_char w = true.
Proof.
  intros Hlabel name.
  pose proof (forallb_strip_by _ isspace label Hlabel) as Hchars. fold (strip label) in Hchars.
  subst name. destruct (strip label) as [|c w] eqn:Hstrip; [by left|right].
  pose proof (strip_by_head isspace label c w Hstrip) as Hc.
  cbn [forallb] in Hchars. apply andb_true_iff in Hchars as [Hc' Hw].
  assert (is_letter c = true) as Hletter.
  { apply orb_true_iff in Hc' as [?|Hc'%N.eqb_eq]; [done|]. by subst c. }
  destruct (lower_letter c Hletter) as [Hlower Hspace].
  exists (lower_cp c), (replace 32 95 (lower w)). split; [|split; [done|]].
  - unfold replace, lower. rewrite !fmap_cons. f_equal.
    by destruct (N.eqb_spec (lower_cp c) 32).
  - clear Hstrip. induction w as [|d w IH]; [done|].
    cbn [forallb] in Hw. apply andb_true_iff in Hw as [Hd Hw].
    unfold replace, lower in *. rewrite !fmap_cons. cbn [forallb].
    rewrite IH by done. rewrite andb_true_r.
    destruct (N.eqb_spec (lower_cp d) 32); [done|].
    apply lower_ident_char. unfold is_ident_char.
    apply orb_true_iff in Hd as [->|Hd%N.eqb_eq]; [done|].
    subst d. done.
Qed.

(** X6. The name [_extract_module_name] derives is the default, or an ASCII
    small letter followed by ASCII letters, digits and underscores, or,
    where the first boxed header of a content without class has a blank
    label, the empty text. *)
Theorem module_name_shape (content default : str) :
  let name := _extract_module_name content default in
  name = default \/
  (exists c w, name = c :: w /\ is_lower c = true /\ forallb is_ident_char w = true) \/
  (name = [] /\ re_search class_name_re content = None /\
   exists header_match,
     re_search header_re content = Some header_match /\
     strip (group header_match 1) = []).
Proof.
  unfold _extract_module_name.
  destruct (re_search class_name_re content) as [class_match|] eqn:Hclass.
  { right. left.
    apply search_from_Some in Hclass as (prev' & pre & s' & st' & rest & _ & Hrun & ->).
    destruct (class_rule_group (MState prev' s' []) st') as (c & w & -> & Hc & Hw).
    { rewrite Hrun. left. }
    exists (lower_cp c), (lower w). split; [done|]. split.
    - apply lower_letter. unfold is_letter. by rewrite Hc.
    - clear Hrun. induction w as [|d w IH]; [done|]. cbn [forallb] in Hw.
      apply andb_true_iff in Hw as [Hd Hw]. unfold lower in *. rewrite fmap_cons.
      cbn [forallb]. by rewrite lower_ident_char, IH. }
  destruct (re_search header_re content) as [header_match|] eqn:Hheader.
  { right.
    pose proof Hheader as Hsearch.
    apply search_from_Some in Hsearch as (prev' & pre & s' & st' & rest & _ & Hrun & ->).
    destruct (label_name (group (m_groups st') 1)) as [[Hname Hblank]|Hname].
    - apply (header_rule_group (MState prev' s' [])). rewrite Hrun. left.
    - right. split; [done|]. split; [done|]. by eexists.
    - by left. }
  destruct (re_search function_name_re content) as [func_match|] eqn:Hfunc; [|by left].
  right. left.
  apply search_from_Some in Hfunc as (prev' & pre & s' & st' & rest & _ & Hrun & ->).
  apply (function_rule_group (MState prev' s' [])). rewrite Hrun. left.
Qed.

End name_shape.

(** A loop all of whose rounds return keeps what every round keeps, for
    the part of the list gone through. *)
Lemma for_each_prefix {A B} (I : list A -> B -> Prop) (f : B -> A -> result B)
    (l : list A) (acc : B) :
  I [] acc ->
  (forall pre x post b, l = pre ++ x :: post -> I pre b ->
     exists b', f b x = inr b' /\ I (pre ++ [x]) b') ->
  exists r, for_each f l acc = inr r /\ I l r.
Proof.
  revert I acc. induction l as [|x l IH]; intros I acc Hacc Hstep.
  { by exists acc. }
  destruct (Hstep [] x l acc eq_refl Hacc) as (b' & Hx & Hb').
  destruct (IH (fun pre b => I (x :: pre) b) b' Hb') as (r & Hr & HI).
  - intros pre y post b -> Hb. apply (Hstep (x :: pre) y post b); done.
  - exists r. split; [|done]. simpl. by rewrite Hx.
Qed.

Section graph_loops.

Import dependency_analyzer.

Variable ast_parse : str -> result node.
Variables referenced defined : node -> gset str.
Variable modules : list ModuleInfo.
Variable edge_step :
  nat -> ModuleInfo -> gset str -> DiGraph -> nat * ModuleInfo -> result DiGraph.
Variable module_step : DiGraph -> nat * ModuleInfo -> result DiGraph.

Hypothesis edge_step_eq : forall i module refs g j other,
  edge_step i module refs g (j, other)
  = if bool_decide (i = j) then mret g
    else other_ast ← ast_parse (content other);
         if bool_decide (refs ∩ defined other_ast ≠ ∅)
         then mret (add_edge g (name module) (name other))
         else mret g.
Hypothesis module_step_eq : forall g i module,
  module_step g (i, module)
  = module_ast ← ast_parse (content module);
    for_each (edge_step i module (referenced module_ast)) (enumerate modules) g.
Hypothesis parsed : Forall (fun m => exists t, ast_parse (content m) = inr t) modules.

Lemma add_nodes_lookup (ms : list ModuleInfo) (g : DiGraph) (n : str) :
  nodes (foldl (fun g module => add_node g (name module) module) g ms) !! n
  = match registered ms n with
    | Some m => Some (Some m)
    | None => nodes g !! n
    end.
Proof.
  revert g. induction ms as [|m ms IH] using rev_ind; intros g; [done|].
  rewrite foldl_app. simpl. unfold registered in *. rewrite List.filter_app. simpl.
  case_bool_decide as Hn.
  - subst n. by rewrite last_snoc, lookup_insert_eq.
  - by rewrite app_nil_r, lookup_insert_ne, IH.
Qed.

Lemma registry_lookup (m : ModuleInfo) :
  m ∈ modules -> is_Some (registry modules !! name m).
Proof.
  intros Hm. unfold registry. rewrite add_nodes_lookup.
  destruct (registered modules (name m)) eqn:Hreg; [done|].
  unfold registered in Hreg. apply last_None in Hreg.
  assert (m ∈ List.filter (fun m0 => bool_decide (name m0 = name m)) modules) as Hin.
  { apply list_elem_of_In, filter_In. split; [by apply list_elem_of_In|].
    by apply bool_decide_eq_true. }
  rewrite Hreg in Hin. by apply elem_of_nil in Hin.
Qed.

Lemma add_edge_registered (g : DiGraph) (mi mj : ModuleInfo) :
  nodes g = registry modules -> mi ∈ modules -> mj ∈ modules ->
  nodes (add_edge g (name mi) (name mj)) = registry modules.
Proof.
  intros Hg Hi Hj. simpl. rewrite Hg. unfold touch.
  destruct (registry_lookup mi Hi) as [x ->].
  by destruct (registry_lookup mj Hj) as [y ->].
Qed.

Lemma graph_loops_edges (g0 : DiGraph) :
  nodes g0 = registry modules -> edges g0 = ∅ ->
  exists g,
    for_each module_step (enumerate modules) g0 = inr g /\
    nodes g = registry modules /\
    forall u v, (u, v) ∈ edges g <-> depends ast_parse referenced defined modules u v.
Proof.
  intros Hnodes Hedges.
  destruct (for_each_prefix
    (fun pre g => nodes g = registry modules /\
       forall u v, (u, v) ∈ edges g <-> depends_among ast_parse referenced defined pre (enumerate modules) u v)
    module_step (enumerate modules) g0) as (g & Hg & Hnodes' & Hedges').
  { split; [done|]. intros u v. rewrite Hedges. split; [by intros ?%not_elem_of_empty|].
    by intros (i & j & mi & mj & ti & tj & _ & ?%elem_of_nil & _). }
  { intros pre [i mi] post g Hsplit [Hreg Hfrom].
    assert ((i, mi) ∈ enumerate modules) as Hi.
    { rewrite Hsplit. apply elem_of_app. right. left. }
    assert (mi ∈ modules) as Hmi.
    { apply elem_of_enumerate in Hi. by eapply list_elem_of_lookup_2. }
    destruct (proj1 (Forall_forall _ _) parsed mi Hmi) as [ti Hti].
    rewrite module_step_eq, Hti, bind_inr.
    destruct (for_each_prefix
      (fun pre' g' => nodes g' = registry modules /\
         forall u v, (u, v) ∈ edges g' <->
           depends_among ast_parse referenced defined pre (enumerate modules) u v \/ depends_among ast_parse referenced defined [(i, mi)] pre' u v)
      (edge_step i mi (referenced ti)) (enumerate modules) g)
      as (g' & Hg' & Hreg' & Hfrom').
    - split; [done|]. intros u v. rewrite Hfrom. split; [by left|].
      intros [?|(? & ? & ? & ? & ? & ? & _ & _ & ?%elem_of_nil & _)]; done.
    - intros pre' [j mj] post' g' Hsplit' [Hreg' Hfrom'].
      assert ((j, mj) ∈ enumerate modules) as Hj.
      { rewrite Hsplit'. apply elem_of_app. right. left. }
      assert (mj ∈ modules) as Hmj.
      { apply elem_of_enumerate in Hj. by eapply list_elem_of_lookup_2. }
      destruct (proj1 (Forall_forall _ _) parsed mj Hmj) as [tj Htj].
      rewrite edge_step_eq.
      assert (forall u v, depends_among ast_parse referenced defined [(i, mi)] (pre' ++ [(j, mj)]) u v <->
                depends_among ast_parse referenced defined [(i, mi)] pre' u v \/
                (i <> j /\ u = name mi /\ v = name mj /\
                 referenced ti ∩ defined tj ≠ ∅)) as Hsnoc.
      { intros u v. split.
        - intros (i' & j' & mi' & mj' & ti' & tj' & Hne & Hi'%list_elem_of_singleton
                    & Hj' & -> & -> & Hti' & Htj' & Hcommon).
          injection Hi' as -> ->.
          apply elem_of_app in Hj' as [Hj'|Hj'%list_elem_of_singleton].
          + left. exists i, j', mi, mj', ti', tj'. repeat split; try done. left.
          + injection Hj' as -> ->. right. split; [done|]. split; [done|].
            split; [done|]. congruence.
        - intros [(i' & j' & mi' & mj' & ti' & tj' & Hne & Hi' & Hj' & Hrest)
                 |(Hne & -> & -> & Hcommon)].
          + exists i', j', mi', mj', ti', tj'. split; [done|]. split; [done|].
            split; [|done]. apply elem_of_app. by left.
          + exists i, j, mi, mj, ti, tj. repeat split; try done; [left|].
            apply elem_of_app. right. left. }
      case_bool_decide as Hij.
      { eexists. split; [done|]. split; [done|]. intros u v.
        rewrite Hfrom', Hsnoc. naive_solver. }
      rewrite Htj, bind_inr. case_bool_decide as Hcommon.
      + eexists. split; [done|]. split; [by apply add_edge_registered|].
        intros u v. cbn [edges add_edge]. rewrite elem_of_union, elem_of_singleton.
        rewrite Hfrom', Hsnoc. split.
        * intros [[= -> ->]|[?|?]]; [right; right|by left|by right; left]. done.
        * intros [?|[?|(_ & -> & -> & _)]]; [right; by left|right; by right|by left].
      + eexists. split; [done|]. split; [done|]. intros u v.
        rewrite Hfrom', Hsnoc. naive_solver.
    - exists g'. split; [done|]. split; [done|]. intros u v. rewrite Hfrom'. split.
      + intros [(i' & j' & mi' & mj' & ti' & tj' & Hne & Hi' & Hrest)
               |(i' & j' & mi' & mj' & ti' & tj' & Hne & Hi' & Hrest)];
          exists i', j', mi', mj', ti', tj'; (split; [done|]); (split; [|done]);
          apply elem_of_app; [by left|by right].
      + intros (i' & j' & mi' & mj' & ti' & tj' & Hne & Hi' & Hrest).
        apply elem_of_app in Hi' as [Hi'|Hi']; [left|right];
          by exists i', j', mi', mj', ti', tj'. }
  exists g. split; [done|]. split; [done|]. intros u v. by rewrite Hedges'.
Qed.

End graph_loops.

Section dependency_edges.

Import dependency_analyzer.

Variable ast_parse : str -> result node.

Lemma registry_registered (modules : list ModuleInfo) (n : str) :
  registry modules !! n = Some <$> registered modules n.
Proof.
  unfold registry. rewrite add_nodes_lookup.
  by destruct (registered modules n).
Qed.

(** A graph builder that returns has parsed every fragment. *)
Lemma returned_parsed {A} (modules : list ModuleInfo) (r : result A) (g : A) :
  (forall m e, m ∈ modules -> ast_parse (content m) = inl e ->
     raised_by_fragment ast_parse modules r) ->
  r = inr g ->
  Forall (fun m => exists t, ast_parse (content m) = inr t) modules.
Proof.
  intros Hraises Hr. apply Forall_forall. intros m Hm.
  destruct (ast_parse (content m)) as [e|t] eqn:Hparse; [|by exists t].
  destruct (Hraises m e Hm Hparse) as (m' & e' & _ & _ & Hr'). congruence.
Qed.

(** X7. The dependency graph of the package is built exactly when every
    fragment parses. Its nodes are the names of the modules, each with
    the last module of that name as its info, and it has the edge from
    [u] to [v] exactly when a module named [u] refers to a name that a
    module named [v], at another place of the list, defines. *)
Theorem dependency_graph_edges (modules : list ModuleInfo) :
  ((exists g, build_dependency_graph ast_parse modules = inr g) <->
   Forall (fun m => exists t, ast_parse (content m) = inr t) modules) /\
  (forall g, build_dependency_graph ast_parse modules = inr g ->
     (forall n, nodes g !! n = Some <$> registered modules n) /\
     (forall u v, (u, v) ∈ edges g <->
        depends ast_parse extract_referenced_names extract_defined_names
          modules u v)).
Proof.
  assert (Forall (fun m => exists t, ast_parse (content m) = inr t) modules ->
    exists g, build_dependency_graph ast_parse modules = inr g /\
      nodes g = registry modules /\
      forall u v, (u, v) ∈ edges g <->
        depends ast_parse extract_referenced_names extract_defined_names modules u v)
    as Hbuilt.
  { intros Hparsed. unfold build_dependency_graph.
    apply (graph_loops_edges ast_parse extract_referenced_names extract_defined_names
             modules (edge_step ast_parse) (module_step ast_parse modules));
      [done|done|done|done|].
    by rewrite add_nodes_edges. }
  split.
  - split.
    + intros [g Hg]. eapply returned_parsed; [|done].
      intros m e. apply build_dependency_graph_raises.
    + intros Hparsed. destruct (Hbuilt Hparsed) as (g & Hg & _). by exists g.
  - intros g Hg.
    destruct Hbuilt as (g' & Hg' & Hnodes & Hedges).
    { eapply returned_parsed; [|done]. intros m e. apply build_dependency_graph_raises. }
    rewrite Hg in Hg'. injection Hg' as <-. split; [|done].
    intros n. by rewrite Hnodes, registry_registered.
Qed.

(** X8. The dependency graph of [CodeAnalyzer] is built exactly when every
    fragment parses, with the same nodes; it has the edge from [u] to [v]
    exactly when a module named [u] loads a name that a module named [v],
    at another place of the list, binds by a class, a function or a plain
    assignment. *)
Theorem analyzer_dependency_graph_edges (modules : list ModuleInfo) :
  ((exists g, analyzer._build_dependency_graph ast_parse modules = inr g) <->
   Forall (fun m => exists t, ast_parse (content m) = inr t) modules) /\
  (forall g, analyzer._build_dependency_graph ast_parse modules = inr g ->
     (forall n, nodes g !! n = Some <$> registered modules n) /\
     (forall u v, (u, v) ∈ edges g <->
        depends ast_parse (fun tree => foldl analyzer.loaded_step ∅ (walk tree))
          (fun tree => foldl analyzer.bound_step ∅ (walk tree)) modules u v)).
Proof.
  assert (Forall (fun m => exists t, ast_parse (content m) = inr t) modules ->
    exists g, analyzer._build_dependency_graph ast_parse modules = inr g /\
      nodes g = registry modules /\
      forall u v, (u, v) ∈ edges g <->
        depends ast_parse (fun tree => foldl analyzer.loaded_step ∅ (walk tree))
          (fun tree => foldl analyzer.bound_step ∅ (walk tree)) modules u v)
    as Hbuilt.
  { intros Hparsed. unfold analyzer._build_dependency_graph.
    apply (graph_loops_edges ast_parse
             (fun tree => foldl analyzer.loaded_step ∅ (walk tree))
             (fun tree => foldl analyzer.bound_step ∅ (walk tree))
             modules (analyzer.edge_step ast_parse)
             (analyzer.module_step ast_parse modules));
      [done|done|done|done|].
    by rewrite add_nodes_edges. }
  split.
  - split.
    + intros [g Hg]. eapply returned_parsed; [|done].
      intros m e. apply analyzer_build_dependency_graph_raises.
    + intros Hparsed. destruct (Hbuilt Hparsed) as (g & Hg & _). by exists g.
  - intros g Hg.
    destruct Hbuilt as (g' & Hg' & Hnodes & Hedges).
    { eapply returned_parsed; [|done].
      intros m e. apply analyzer_build_dependency_graph_raises. }
    rewrite Hg in Hg'. injection Hg' as <-. split; [|done].
    intros n. by rewrite Hnodes, registry_registered.
Qed.

(** What [CodeAnalyzer] takes as referenced and as defined, the package
    takes too. *)
Lemma foldl_subseteq (f f' : gset str -> node -> gset str) (l : list node)
    (acc acc' : gset str) :
  (forall a a' n, a ⊆ a' -> f a n ⊆ f' a' n) ->
  acc ⊆ acc' -> foldl f acc l ⊆ foldl f' acc' l.
Proof.
  intros Hstep. revert acc acc'. induction l as [|n l IH]; intros acc acc' Hacc; [done|].
  simpl. apply IH. by apply Hstep.
Qed.

Lemma loaded_referenced (tree : node) :
  foldl analyzer.loaded_step ∅ (walk tree) ⊆ extract_referenced_names tree.
Proof.
  apply foldl_subseteq; [|done]. intros a a' n Ha.
  destruct n as [| | | | | | |id [| |]|[] ? ?|[] ? []|]; simpl; set_solver.
Qed.

Lemma target_names_subseteq (targets : list node) (a a' : gset str) :
  a ⊆ a' ->
  foldl (fun acc target => target_name target ∪ acc) a targets
  ⊆ foldl (fun acc target => target_name target ∪ acc) a' targets.
Proof.
  revert a a'. induction targets as [|t targets IH]; intros a a' Ha; [done|].
  simpl. apply IH. set_solver.
Qed.

Lemma bound_defined (tree : node) :
  foldl analyzer.bound_step ∅ (walk tree) ⊆ extract_defined_names tree.
Proof.
  apply foldl_subseteq; [|done]. intros a a' n Ha.
  destruct n; simpl; try set_solver. by apply target_names_subseteq.
Qed.

(** X9. On the same modules the graph of [CodeAnalyzer] is built exactly
    when the graph of the package is, with the same nodes, and each of
    its edges is an edge of the graph of the package. *)
Theorem analyzer_graph_within_package_graph (modules : list ModuleInfo) :
  ((exists g', analyzer._build_dependency_graph ast_parse modules = inr g') <->
   (exists g, build_dependency_graph ast_parse modules = inr g)) /\
  (forall g g',
     build_dependency_graph ast_parse modules = inr g ->
     analyzer._build_dependency_graph ast_parse modules = inr g' ->
     nodes g' = nodes g /\ edges g' ⊆ edges g).
Proof.
  assert (forall referenced defined edge_step module_step,
    (forall i module refs g j other,
       edge_step i module refs g (j, other)
       = if bool_decide (i = j) then mret g
         else other_ast ← ast_parse (content other);
              if bool_decide (refs ∩ defined other_ast ≠ ∅)
              then mret (add_edge g (name module) (name other))
              else mret g) ->
    (forall g i module,
       module_step g (i, module)
       = module_ast ← ast_parse (content module);
         for_each (edge_step i module (referenced module_ast)) (enumerate modules) g) ->
    Forall (fun m => exists t, ast_parse (content m) = inr t) modules ->
    exists g,
      for_each module_step (enumerate modules)
        (foldl (fun g module => add_node g (name module) module) empty_graph modules)
      = inr g /\
      nodes g = registry modules /\
      forall u v, (u, v) ∈ edges g <->
        depends ast_parse referenced defined modules u v) as Hbuilt.
  { intros referenced defined edge_step module_step Hedge Hmodule Hparsed.
    apply (graph_loops_edges ast_parse referenced defined modules edge_step module_step);
      [done|done|done|done|].
    by rewrite add_nodes_edges. }
  assert (forall g, build_dependency_graph ast_parse modules = inr g ->
            Forall (fun m => exists t, ast_parse (content m) = inr t) modules)
    as Hpackage.
  { intros g Hg. eapply returned_parsed; [|done].
    intros m e. apply build_dependency_graph_raises. }
  assert (forall g, analyzer._build_dependency_graph ast_parse modules = inr g ->
            Forall (fun m => exists t, ast_parse (content m) = inr t) modules)
    as Hanalyzer.
  { intros g Hg. eapply returned_parsed; [|done].
    intros m e. apply analyzer_build_dependency_graph_raises. }
  split.
  - split.
    + intros [g' Hg']. apply Hanalyzer in Hg'.
      destruct (Hbuilt extract_referenced_names extract_defined_names
                  (edge_step ast_parse) (module_step ast_parse modules))
        as (g & Hg & _); [done..|]. by exists g.
    + intros [g Hg]. apply Hpackage in Hg.
      destruct (Hbuilt (fun tree => foldl analyzer.loaded_step ∅ (walk tree))
                  (fun tree => foldl analyzer.bound_step ∅ (walk tree))
                  (analyzer.edge_step ast_parse)
                  (analyzer.module_step ast_parse modules))
        as (g' & Hg' & _); [done..|]. by exists g'.
  - intros g g' Hg Hg'. pose proof (Hpackage g Hg) as Hparsed.
    destruct (Hbuilt extract_referenced_names extract_defined_names
                (edge_step ast_parse) (module_step ast_parse modules))
      as (g0 & Hg0 & Hnodes & Hedges); [done..|].
    destruct (Hbuilt (fun tree => foldl analyzer.loaded_step ∅ (walk tree))
                (fun tree => foldl analyzer.bound_step ∅ (walk tree))
                (analyzer.edge_step ast_parse)
                (analyzer.module_step ast_parse modules))
      as (g0' & Hg0' & Hnodes' & Hedges'); [done..|].
    unfold build_dependency_graph in Hg. unfold analyzer._build_dependency_graph in Hg'.
    rewrite Hg in Hg0. rewrite Hg' in Hg0'. injection Hg0 as <-. injection Hg0' as <-.
    split; [by rewrite Hnodes, Hnodes'|].
    intros [u v]. rewrite Hedges, Hedges'.
    intros (i & j & mi & mj & ti & tj & Hne & Hi & Hj & Hu & Hv & Hti & Htj & Hcommon).
    exists i, j, mi, mj, ti, tj. repeat split; try done.
    pose proof (loaded_referenced ti). pose proof (bound_defined tj). set_solver.
Qed.

End dependency_edges.

Section dependency_edges_examples.

Import dependency_analyzer.

(** The fragments of the dependency scenario parse. *)
Lemma helper_modules_parsed :
  Forall (fun m => exists t,
            scenarios.table_parse scenarios.helper_table (content m) = inr t)
         scenarios.helper_modules.
Proof. repeat constructor; eexists; reflexivity. Qed.

(** The dependency scenario: the caller depends on the module that
    defines [helper]. *)
Lemma dependency_graph_edges_witness :
  exists g,
    build_dependency_graph (scenarios.table_parse scenarios.helper_table)
      scenarios.helper_modules = inr g /\
    (py "module_0", py "helper") ∈ edges g /\
    nodes g !! py "helper"
      = Some (Some (scenarios.candidate (py "helper") scenarios.helper_content)).
Proof.
  destruct (dependency_graph_edges (scenarios.table_parse scenarios.helper_table)
              scenarios.helper_modules) as [[_ Hbuilt] Hgraph].
  destruct (Hbuilt helper_modules_parsed) as [g Hg].
  destruct (Hgraph g Hg) as [Hnodes Hedges].
  exists g. split; [exact Hg|]. split.
  - apply Hedges.
    exists 0, 1, (scenarios.candidate (py "module_0") scenarios.caller_content),
      (scenarios.candidate (py "helper") scenarios.helper_content),
      scenarios.caller_tree, scenarios.helper_tree.
    split; [discriminate|]. split; [left|]. split; [right; left|].
    split; [reflexivity|]. split; [reflexivity|]. split; [reflexivity|].
    split; [reflexivity|]. apply (bool_decide_unpack _). vm_compute. exact I.
  - rewrite Hnodes. reflexivity.
Defined.

(** The same edge in the graph of [CodeAnalyzer]. *)
Lemma analyzer_dependency_graph_edges_witness :
  exists g,
    analyzer._build_dependency_graph (scenarios.table_parse scenarios.helper_table)
      scenarios.helper_modules = inr g /\
    (py "module_0", py "helper") ∈ edges g /\
    nodes g !! py "module_0"
      = Some (Some (scenarios.candidate (py "module_0") scenarios.caller_content)).
Proof.
  destruct (analyzer_dependency_graph_edges
              (scenarios.table_parse scenarios.helper_table)
              scenarios.helper_modules) as [[_ Hbuilt] Hgraph].
  destruct (Hbuilt helper_modules_parsed) as [g Hg].
  destruct (Hgraph g Hg) as [Hnodes Hedges].
  exists g. split; [exact Hg|]. split.
  - apply Hedges.
    exists 0, 1, (scenarios.candidate (py "module_0") scenarios.caller_content),
      (scenarios.candidate (py "helper") scenarios.helper_content),
      scenarios.caller_tree, scenarios.helper_tree.
    split; [discriminate|]. split; [left|]. split; [right; left|].
    split; [reflexivity|]. split; [reflexivity|]. split; [reflexivity|].
    split; [reflexivity|]. apply (bool_decide_unpack _). vm_compute. exact I.
  - rewrite Hnodes. reflexivity.
Defined.

(** The two graphs of the dependency scenario. *)
Lemma analyzer_graph_within_package_graph_witness :
  exists g g',
    build_dependency_graph (scenarios.table_parse scenarios.helper_table)
      scenarios.helper_modules = inr g /\
    analyzer._build_dependency_graph (scenarios.table_parse scenarios.helper_table)
      scenarios.helper_modules = inr g' /\
    nodes g' = nodes g /\ edges g' ⊆ edges g.
Proof.
  destruct (analyzer_graph_within_package_graph
              (scenarios.table_parse scenarios.helper_table)
              scenarios.helper_modules) as [_ Hwithin].
  eexists _, _. split; [vm_compute; reflexivity|]. split; [vm_compute; reflexivity|].
  apply Hwithin; vm_compute; reflexivity.
Defined.

End dependency_edges_examples.

(** ** What the walk reaches *)

Lemma walk_queue_closed (fuel : nat) (todo : list node) :
  sum_list_with size todo <= fuel ->
  (forall n, n ∈ todo -> n ∈ walk_queue fuel todo) /\
  (forall n c, n ∈ walk_queue fuel todo -> c ∈ iter_child_nodes n ->
     c ∈ walk_queue fuel todo).
Proof.
  revert todo. induction fuel as [|fuel IH]; intros todo Hfuel.
  { destruct todo as [|n todo]; [split; [done|by intros ? ? ?%elem_of_nil]|].
    simpl in Hfuel. pose proof (size_children n). lia. }
  destruct todo as [|n todo]; [split; [done|by intros ? ? ?%elem_of_nil]|].
  cbn [walk_queue].
  destruct (IH (todo ++ iter_child_nodes n)) as [Htodo Hclosed].
  { simpl in Hfuel. rewrite sum_list_with_app. pose proof (size_children n). lia. }
  split.
  - intros x [->|Hx]%elem_of_cons; [left|right].
    apply Htodo, elem_of_app. by left.
  - intros x c [->|Hx]%elem_of_cons Hc; right.
    + apply Htodo, elem_of_app. by right.
    + by eapply Hclosed.
Qed.

(** [ast.walk] yields the root, and with a node its children. *)
Lemma walk_closed (tree : node) :
  tree ∈ walk tree /\
  forall n c, n ∈ walk tree -> c ∈ iter_child_nodes n -> c ∈ walk tree.
Proof.
  destruct (walk_queue_closed (size tree) [tree]) as [Htodo Hclosed]; [simpl; lia|].
  split; [apply Htodo; left|done].
Qed.

Section reported_names.

Import dependency_analyzer semantic_analyzer.

Variable ast_get_docstring : node -> option str.

Lemma defined_step_mono (names : gset str) (n : node) : names ⊆ defined_step names n.
Proof.
  destruct n; simpl; try set_solver.
  revert names. induction targets as [|t targets IH]; intros names; [done|].
  simpl. etrans; [|apply IH]. set_solver.
Qed.

Lemma elem_of_defined_steps (x : str) (names : gset str) (l : list node) :
  x ∈ names \/ (exists n, n ∈ l /\ module_detector.definition_name n = Some x) ->
  x ∈ foldl defined_step names l.
Proof.
  revert names. induction l as [|n l IH]; intros names.
  { intros [?|(n & ?%elem_of_nil & _)]; done. }
  simpl. intros [Hx|(n' & [->|Hn']%elem_of_cons & Hname)]; apply IH.
  - left. by apply defined_step_mono.
  - left. destruct n; simplify_eq/=; set_solver.
  - right. by exists n'.
Qed.

(** X10. Every function and class the semantic stage lists for a fragment,
    and every method it lists for a class, has a name that the dependency
    analyzer takes as defined by the fragment. *)
Theorem reported_names_are_defined (tree : node) :
  (forall f, f ∈ extract_functions ast_get_docstring tree ->
     fn_name f ∈ extract_defined_names tree) /\
  (forall c, c ∈ extract_classes ast_get_docstring tree ->
     cls_name c ∈ extract_defined_names tree /\
     forall method, method ∈ cls_methods c -> method ∈ extract_defined_names tree).
Proof.
  destruct (walk_closed tree) as [Hroot Hclosed].
  assert (forall n x, n ∈ walk tree -> module_detector.definition_name n = Some x ->
            x ∈ extract_defined_names tree) as Hdefined.
  { intros n x Hn Hx. apply elem_of_defined_steps. right. by exists n. }
  split.
  - intros f (n & Hn & Hf)%list_elem_of_omap.
    assert (n ∈ walk tree) as Hwalk by by eapply Hclosed.
    destruct n; try done. injection Hf as <-. by eapply Hdefined.
  - intros c (n & Hn & Hc)%list_elem_of_omap.
    destruct n as [| |class_name bases keywords body decorators params lineno
                   | | | | | | | |]; try done.
    injection Hc as <-. simpl.
    assert (ClassDef class_name bases keywords body decorators params lineno
              ∈ walk tree) as Hclass by by eapply Hclosed.
    split; [by eapply Hdefined|].
    intros method (child & Hchild & Hmethod)%list_elem_of_omap.
    assert (child ∈ walk tree) as Hwalk.
    { eapply Hclosed; [exact Hclass|]. simpl. rewrite !elem_of_app. auto. }
    destruct child; try done. injection Hmethod as <-. by eapply Hdefined.
Qed.

End reported_names.

Section reported_names_examples.

Import dependency_analyzer.

(** The function [helper] and the class [Widget]. *)
Lemma reported_names_are_defined_witness :
  py "helper" ∈ extract_defined_names scenarios.helper_tree /\
  py "Widget" ∈ extract_defined_names scenarios.widget_class_tree.
Proof.
  split.
  - apply (proj1 (reported_names_are_defined scenarios.no_docstring
                    scenarios.helper_tree)
             {| fn_name := py "helper"; fn_lineno := 1; fn_args := [py "x"];
                fn_docstring := [] |}).
    left.
  - destruct (proj2 (reported_names_are_defined scenarios.no_docstring
                       scenarios.widget_class_tree)
                {| cls_name := py "Widget"; cls_lineno := 1; cls_methods := [];
                   cls_docstring := [] |}) as [Hname _]; [left|exact Hname].
Defined.

End reported_names_examples.

Section categorize.

Import import_analyzer.

Variable stdlib_modules : gset str.




End categorize.

Section categorize_examples.

Import import_analyzer.


End categorize_examples.

(** ** Greedy runs of a character class *)
Section greedy_runs.

Import Re.

(** What [lstrip_by] drops are characters to be dropped. *)
Lemma lstrip_by_prefix (drop_it : N -> bool) (s : str) :
  exists w, s = w ++ lstrip_by drop_it s /\ forallb drop_it w = true.
Proof.
  induction s as [|c s (w & IH & Hw)]; [by exists []|]. simpl.
  destruct (drop_it c) eqn:Hc; [|by exists []].
  exists (c :: w). simpl. rewrite Hc, Hw. split; [by f_equal|done].
Qed.

(** The first way a greedy repetition of a character class matches is the
    longest one. *)
Lemma rounds_greedy_first (p : N -> bool) (n : nat) (prev : option N) (s : str)
    (g : list (nat * str)) :
  length s <= n ->
  exists prev' others,
    rounds (run (Chr p)) true n (MState prev s g)
    = MState prev' (lstrip_by p s) g :: others.
Proof.
  revert prev s. induction n as [|n IH]; intros prev s Hn.
  { destruct s; [|simpl in Hn; lia]. by exists prev, []. }
  cbn [rounds]. destruct s as [|c s]; [by exists prev, []|].
  assert (run (Chr p) (MState prev (c :: s) g)
          = if p c then [MState (Some c) s g] else []) as -> by done.
  cbn [lstrip_by]. destruct (p c); [|by exists prev, []].
  rewrite bind_singleton. unfold progress. cbn [m_rest].
  rewrite bool_decide_eq_true_2 by (simpl; lia).
  destruct (IH (Some c) s) as (prev' & others & ->); [simpl in Hn; lia|].
  by exists prev', (others ++ [MState prev (c :: s) g]).
Qed.

Lemma exec_star (p : N -> bool) (prev : option N) (s : str) :
  exec (Star true (Chr p)) prev s = Some (length s - length (lstrip_by p s), []).
Proof.
  unfold exec.
  change (run (Star true (Chr p)) (MState prev s []))
    with (rounds (run (Chr p)) true (length s) (MState prev s [])).
  by destruct (rounds_greedy_first p (length s) prev s []) as (prev' & others & ->).
Qed.

(** A run of one or more characters of a class matches where the text
    starts with one, and then takes all that follow. *)
Lemma exec_plus (p : N -> bool) (prev : option N) (c : N) (s : str) :
  exec (plus true (Chr p)) prev (c :: s)
  = if p c then Some (S (length s - length (lstrip_by p s)), []) else None.
Proof.
  unfold exec, plus.
  assert (run (Seq (Chr p) (Star true (Chr p))) (MState prev (c :: s) [])
          = (if p c then [MState (Some c) s []] else [])
              ≫= rounds (run (Chr p)) true (length s)) as ->.
  { cbn [run m_rest m_groups]. by destruct (p c). }
  destruct (p c); [|done]. rewrite bind_singleton.
  destruct (rounds_greedy_first p (length s) (Some c) s []) as (prev' & others & ->);
    [done|].
  cbn [m_rest m_groups length]. f_equal. f_equal.
  destruct (lstrip_by_prefix p s) as (w & Hw & _).
  apply (f_equal length) in Hw. rewrite length_app in Hw. lia.
Qed.

End greedy_runs.

Section indentation.

Import Re utils.

(** X12. [extract_indentation] returns the white space a line starts with:
    the line is its indentation followed by what [lstrip] leaves of it,
    and the indentation is white space only. *)
Theorem extract_indentation_lstrip (line : str) :
  extract_indentation line ++ lstrip_by isspace line = line /\
  forallb isspace (extract_indentation line) = true.
Proof.
  unfold extract_indentation, re_match, indentation_re, exec.
  change (run (Group 1 (Star true (Chr isspace))) (MState None line []))
    with (set_group 1 (MState None line [])
            <$> rounds (run (Chr isspace)) true (length line) (MState None line [])).
  destruct (rounds_greedy_first isspace (length line) None line [])
    as (prev' & others & ->); [done|].
  destruct (lstrip_by_prefix isspace line) as (w & Hw & Hspace).
  assert (consumed (MState None line []) (MState prev' (lstrip_by isspace line) []) = w)
    as Hconsumed by by apply consumed_app.
  cbn [fmap list_fmap set_group m_groups m_rest m_prev snd option_fmap option_map length].
  cbn [group]. rewrite bool_decide_eq_true_2 by done.
  rewrite Hconsumed. by rewrite <- Hw.
Qed.

End indentation.

Section collapsing.

Import Re.

Variable p : N -> bool.
Variable repl : list (nat * str) -> str.

(** The substitution for a run of characters of a class does not look at
    the character before. *)
Lemma sub_plus_prev (prev prev' : option N) (s : str) (skip : nat) :
  sub_from (plus true (Chr p)) repl prev s skip
  = sub_from (plus true (Chr p)) repl prev' s skip.
Proof.
  revert prev prev' skip. induction s as [|c s IH]; intros prev prev' skip; [done|].
  cbn [sub_from]. destruct skip as [|k]; [|apply IH].
  by rewrite !exec_plus.
Qed.

Lemma sub_plus_skip (prev : option N) (s : str) (skip : nat) :
  sub_from (plus true (Chr p)) repl prev s skip
  = sub_from (plus true (Chr p)) repl None (drop skip s) 0.
Proof.
  revert prev skip. induction s as [|c s IH]; intros prev skip.
  { by destruct skip. }
  destruct skip as [|k]; [apply sub_plus_prev|]. cbn [sub_from drop]. apply IH.
Qed.

(** It replaces a whole run at once, and copies what is in no run. *)
Lemma sub_plus_cons (c : N) (s : str) :
  sub_from (plus true (Chr p)) repl None (c :: s) 0
  = if p c
    then repl [] ++ sub_from (plus true (Chr p)) repl None (lstrip_by p s) 0
    else c :: sub_from (plus true (Chr p)) repl None s 0.
Proof.
  cbn [sub_from]. rewrite exec_plus. destruct (p c).
  - rewrite sub_plus_skip.
    assert (drop (length s - length (lstrip_by p s)) s = lstrip_by p s) as ->; [|done].
    destruct (lstrip_by_prefix p s) as (w & Hw & _).
    assert (length s - length (lstrip_by p s) = length w) as ->.
    { apply (f_equal length) in Hw. rewrite length_app in Hw. lia. }
    transitivity (drop (length w) (w ++ lstrip_by p s)); [by rewrite <- Hw|].
    by rewrite drop_app_length.
  - f_equal. apply sub_plus_prev.
Qed.

Lemma lstrip_by_length (s : str) : length (lstrip_by p s) <= length s.
Proof.
  destruct (lstrip_by_prefix p s) as (w & Hw & _).
  apply (f_equal length) in Hw. rewrite length_app in Hw. lia.
Qed.

(** What holds of the text and of the replacement holds of the result. *)
Lemma sub_plus_chars (Q : N -> bool) (s : str) :
  forallb Q (repl []) = true -> forallb Q s = true ->
  forallb Q (sub_from (plus true (Chr p)) repl None s 0) = true.
Proof.
  intros Hrepl. remember (length s) as n eqn:Hn. revert s Hn.
  induction n as [n IH] using lt_wf_ind. intros s -> Hs.
  destruct s as [|c s]; [done|]. rewrite sub_plus_cons.
  cbn [forallb] in Hs. apply andb_true_iff in Hs as [Hc Hs].
  destruct (p c).
  - rewrite forallb_app, Hrepl. simpl.
    eapply IH; [|done|by apply forallb_lstrip_by].
    pose proof (lstrip_by_length s). simpl. lia.
  - cbn [forallb]. rewrite Hc. simpl. eapply IH; [|done..]. simpl. lia.
Qed.

(** No character of the class is left when the replacement has none. *)
Lemma sub_plus_free (s : str) :
  forallb (fun c => negb (p c)) (repl []) = true ->
  forallb (fun c => negb (p c)) (sub_from (plus true (Chr p)) repl None s 0) = true.
Proof.
  intros Hrepl. remember (length s) as n eqn:Hn. revert s Hn.
  induction n as [n IH] using lt_wf_ind. intros s ->.
  destruct s as [|c s]; [done|]. rewrite sub_plus_cons.
  destruct (p c) eqn:Hc.
  - rewrite forallb_app, Hrepl. simpl.
    eapply IH; [|done]. pose proof (lstrip_by_length s). simpl. lia.
  - cbn [forallb]. rewrite Hc. simpl. eapply IH; [|done]. simpl. lia.
Qed.

End collapsing.

Section snake_case.

Import Re utils.

Lemma lstrip_underscores_head (s : str) :
  head (lstrip_by (N.eqb 95) s) <> Some 95%N.
Proof.
  destruct (lstrip_by (N.eqb 95) s) as [|c t] eqn:Hstrip; [done|].
  apply lstrip_by_head in Hstrip. simpl. intros [= ->]. done.
Qed.

Lemma sub_underscores_head (s : str) :
  head s <> Some 95%N ->
  head (sub_from underscores_re (fun _ => py "_") None s 0) <> Some 95%N.
Proof.
  destruct s as [|c s]; [done|]. simpl head. intros Hc.
  unfold underscores_re. rewrite sub_plus_cons.
  destruct (N.eqb_spec 95 c) as [<-|Hne]; [done|]. simpl. congruence.
Qed.

(** After the third substitution no underscore follows another. *)
Lemma sub_underscores_single (s : str) :
  single_underscores (sub_from underscores_re (fun _ => py "_") None s 0) = true.
Proof.
  remember (length s) as n eqn:Hn. revert s Hn.
  induction n as [n IH] using lt_wf_ind. intros s ->.
  destruct s as [|c s]; [done|]. unfold underscores_re in *. rewrite sub_plus_cons.
  destruct (N.eqb_spec 95 c) as [<-|Hne].
  - cbn [app py fmap list_fmap list_ascii_of_string]. cbn [single_underscores].
    rewrite (IH (length (lstrip_by (N.eqb 95) s))); [|pose proof (lstrip_by_length (N.eqb 95) s); simpl; lia|done].
    rewrite bool_decide_eq_false_2; [done|].
    apply sub_underscores_head, lstrip_underscores_head.
  - cbn [single_underscores]. rewrite (IH (length s)); [|simpl; lia|done].
    destruct (N.eqb_spec c 95); [congruence|done].
Qed.

(** A text without two underscores in a row is left as it is. *)
Lemma sub_underscores_fixed (s : str) :
  single_underscores s = true ->
  sub_from underscores_re (fun _ => py "_") None s 0 = s.
Proof.
  induction s as [|c s IH]; [done|]. cbn [single_underscores].
  intros [Hc Hs]%andb_true_iff. unfold underscores_re in *. rewrite sub_plus_cons.
  destruct (N.eqb_spec 95 c) as [<-|Hne].
  - rewrite N.eqb_refl, andb_true_l in Hc.
    apply negb_true_iff, bool_decide_eq_false in Hc.
    assert (lstrip_by (N.eqb 95) s = s) as ->.
    { destruct s as [|d s]; [done|]. cbn [lstrip_by head] in *.
      destruct (N.eqb_spec 95 d); [congruence|done]. }
    rewrite IH by done. done.
  - by rewrite IH.
Qed.

Lemma single_underscores_app (s t : str) :
  single_underscores (s ++ t) = true ->
  single_underscores s = true /\ single_underscores t = true.
Proof.
  induction s as [|c s IH]; [done|]. cbn [app single_underscores].
  intros [Hc Hs]%andb_true_iff. destruct (IH Hs) as [Hs' Ht]. split; [|done].
  rewrite Hs', andb_true_r. apply negb_true_iff. apply negb_true_iff in Hc.
  apply andb_false_iff in Hc as [Hc|Hc]; [by rewrite Hc|].
  apply andb_false_iff. right. apply bool_decide_eq_false in Hc.
  apply bool_decide_eq_false. intros Hhead. apply Hc. by destruct s.
Qed.

(** What [rstrip_by] drops is the end of the text. *)
Lemma rstrip_by_suffix (drop_it : N -> bool) (s : str) :
  exists w, s = rstrip_by drop_it s ++ w.
Proof.
  unfold rstrip_by. destruct (lstrip_by_suffix drop_it (reverse s)) as [w Hw].
  exists (reverse w). apply (f_equal reverse) in Hw.
  by rewrite reverse_involutive, reverse_app in Hw.
Qed.

Lemma single_underscores_strip (drop_it : N -> bool) (s : str) :
  single_underscores s = true -> single_underscores (strip_by drop_it s) = true.
Proof.
  intros Hs. unfold strip_by.
  destruct (lstrip_by_suffix drop_it s) as [w Hw]. rewrite Hw in Hs.
  apply single_underscores_app in Hs as [_ Hs].
  destruct (rstrip_by_suffix drop_it (lstrip_by drop_it s)) as [w' Hw'].
  rewrite Hw' in Hs. by apply single_underscores_app in Hs as [? _].
Qed.

Lemma strip_by_last (drop_it : N -> bool) (s : str) (c : N) :
  last (strip_by drop_it s) = Some c -> drop_it c = false.
Proof.
  unfold strip_by, rstrip_by. rewrite last_reverse.
  destruct (lstrip_by drop_it (reverse (lstrip_by drop_it s))) as [|d t] eqn:Hstrip;
    [done|].
  intros [= ->]. by eapply lstrip_by_head.
Qed.

Lemma underscore_dropped (c : N) : bool_decide (c ∈ py "_") = true -> c = 95%N.
Proof. by intros ->%bool_decide_eq_true%list_elem_of_singleton. Qed.

Lemma lower_underscore (c : N) : lower_cp c = 95%N <-> c = 95%N.
Proof. split; intros H; code_points. Qed.

Lemma lower_not_upper (c : N) : is_upper (lower_cp c) = false.
Proof. code_points. Qed.

Lemma lower_separator (c : N) :
  (lower_cp c =? 32)%N || (lower_cp c =? 45)%N = (c =? 32)%N || (c =? 45)%N.
Proof.
  destruct ((c =? 32)%N || (c =? 45)%N) eqn:Hc; code_points.
Qed.

Lemma head_lower (s : str) : head (lower s) = Some 95%N <-> head s = Some 95%N.
Proof.
  destruct s as [|c s]; [done|]. unfold lower. rewrite fmap_cons. simpl.
  split; intros [= H]; f_equal; by apply lower_underscore.
Qed.

Lemma last_lower (s : str) : last (lower s) = Some 95%N <-> last s = Some 95%N.
Proof.
  unfold lower. rewrite fmap_last. destruct (last s) as [c|]; [|done]. simpl.
  split; intros [= H]; f_equal; by apply lower_underscore.
Qed.

Lemma single_underscores_lower (s : str) :
  single_underscores (lower s) = single_underscores s.
Proof.
  induction s as [|c s IH]; [done|]. unfold lower in *. rewrite fmap_cons.
  cbn [single_underscores]. rewrite IH. f_equal. f_equal.
  assert ((lower_cp c =? 95)%N = (c =? 95)%N) as ->.
  { destruct (N.eqb_spec c 95) as [->|Hne]; [done|].
    apply N.eqb_neq. by rewrite lower_underscore. }
  f_equal. apply bool_decide_ext. apply head_lower.
Qed.

(** A text in snake case is left as it is. *)
Lemma in_snake_case_fixed (s : str) : in_snake_case s = true -> to_snake_case s = s.
Proof.
  unfold in_snake_case. rewrite !andb_true_iff, !negb_true_iff.
  intros ((((Hupper & Hsep) & Hsingle) & Hhead%bool_decide_eq_false)
          & Hlast%bool_decide_eq_false).
  unfold to_snake_case, re_sub. rewrite sub_upper, bind_plain by done.
  unfold separators_re, plus. rewrite sub_none by done.
  rewrite sub_underscores_fixed by done.
  assert (strip_chars (py "_") s = s) as ->.
  { destruct s as [|c s]; [done|].
    destruct (last (c :: s)) as [d|] eqn:Hd; [|by apply last_None in Hd].
    apply strip_words; [simpl in Hhead; congruence|].
    exists d. split; [done|]. congruence. }
  by apply lower_no_capital.
Qed.

(** What [to_snake_case] returns is in snake case. *)
Lemma to_snake_case_normal (text : str) : in_snake_case (to_snake_case text) = true.
Proof.
  unfold to_snake_case, re_sub.
  set (s1 := sub_from upper_re _ None text 0).
  set (s2 := sub_from separators_re _ None s1 0).
  set (s3 := sub_from underscores_re _ None s2 0).
  assert (forallb (fun c => negb ((c =? 32)%N || (c =? 45)%N)) s3 = true) as Hsep.
  { apply sub_plus_chars; [done|]. apply sub_plus_free. done. }
  assert (single_underscores s3 = true) as Hsingle by apply sub_underscores_single.
  unfold in_snake_case. rewrite !andb_true_iff, !negb_true_iff. repeat split.
  - unfold lower. generalize (strip_chars (py "_") s3). intros s.
    induction s as [|c s IH]; [done|]. rewrite fmap_cons. cbn [forallb].
    by rewrite lower_not_upper, IH.
  - assert (forallb (fun c => negb ((c =? 32)%N || (c =? 45)%N))
              (strip_chars (py "_") s3) = true) as Hstrip
      by by apply forallb_strip_by.
    revert Hstrip. generalize (strip_chars (py "_") s3). intros s.
    induction s as [|c s IH]; [done|]. unfold lower in *. rewrite fmap_cons.
    cbn [forallb]. intros [Hc Hs]%andb_true_iff.
    by rewrite lower_separator, Hc, IH.
  - rewrite single_underscores_lower. by apply single_underscores_strip.
  - apply bool_decide_eq_false. rewrite head_lower.
    destruct (strip_chars (py "_") s3) as [|c s] eqn:Hstrip; [done|].
    apply strip_by_head in Hstrip. simpl. intros [= ->]. done.
  - apply bool_decide_eq_false. rewrite last_lower. intros Hlast.
    apply strip_by_last in Hlast. done.
Qed.

(** X13. For every text [to_snake_case] returns a text in snake case: no
    ASCII capital, space or hyphen, no two underscores in a row and no
    underscore at either end. It leaves a text in snake case as it is,
    so that applying it twice is applying it once. *)
Theorem to_snake_case_normal_form (text : str) :
  is_ascii text = true ->
  in_snake_case (to_snake_case text) = true /\
  (in_snake_case text = true -> to_snake_case text = text) /\
  to_snake_case (to_snake_case text) = to_snake_case text.
Proof.
  intros _. split; [apply to_snake_case_normal|].
  split; [apply in_snake_case_fixed|].
  apply in_snake_case_fixed, to_snake_case_normal.
Qed.

End snake_case.

Section snake_case_examples.

Import utils.

(** The text [Hello World-x] becomes [hello_world_x]. *)
Lemma to_snake_case_normal_form_witness :
  to_snake_case (py "Hello World-x") = py "hello_world_x" /\
  in_snake_case (to_snake_case (py "Hello World-x")) = true /\
  to_snake_case (to_snake_case (py "Hello World-x")) = to_snake_case (py "Hello World-x").
Proof.
  split; [reflexivity|].
  destruct (to_snake_case_normal_form (py "Hello World-x")) as (Hnormal & _ & Hagain);
    [reflexivity|].
  split; [exact Hnormal|exact Hagain].
Defined.

End snake_case_examples.

(** ** The two semantic stages *)
Section semantic_stages.

Import Re semantic_analyzer analyzer.

Variable ast_parse : str -> result node.
Variable ast_get_docstring : node -> option str.

Lemma member_steps (tree : node) (members : list FunctionInfo * list ClassInfo) :
  foldl (member_step ast_get_docstring) members (iter_child_nodes tree)
  = (members.1 ++ extract_functions ast_get_docstring tree,
     members.2 ++ extract_classes ast_get_docstring tree).
Proof.
  unfold extract_functions, extract_classes.
  generalize (iter_child_nodes tree). intros children.
  revert members. induction children as [|n children IH]; intros [fs cs].
  { simpl. by rewrite !app_nil_r. }
  cbn [foldl]. rewrite IH. destruct n; cbn [member_step omap list_omap fst snd];
    by rewrite <- ?app_assoc.
Qed.

Lemma infer_purpose_agrees (content name : str) :
  _infer_purpose content name
  = infer_purpose analyzer.MODULE_PURPOSE_INDICATORS content name.
Proof.
  unfold _infer_purpose, infer_purpose, indicated_purpose.
  by destruct (List.find _ analyzer.MODULE_PURPOSE_INDICATORS) as [[purpose indicators]|].
Qed.

(** X14. The semantic stage of [CodeAnalyzer], which takes purpose and
    docstring before it parses the fragment and collects functions and
    classes in one loop, and the semantic stage of the package, which
    parses first, have the same outcome, the same exception or the same
    modules, on every list of modules for which the two ways to infer a
    purpose agree wherever a purpose is inferred, that is for the modules
    with neither docstring nor comment; the package infers with the table
    of [core.config] and [CodeAnalyzer] with the table of its own file.
    So the stages have the same outcome on every list when the two
    tables are the same. *)
Theorem semantic_stages_agree (table : list (str * list str))
    (modules : list ModuleInfo) :
  (Forall (fun module =>
             re_search docstring_re (content module) = None ->
             re_search comment_re (content module) = None ->
             infer_purpose table (content module) (name module)
             = _infer_purpose (content module) (name module)) modules ->
   _extract_semantic_purpose ast_parse ast_get_docstring modules
   = extract_semantic_purpose ast_parse ast_get_docstring table modules) /\
  (table = analyzer.MODULE_PURPOSE_INDICATORS ->
   _extract_semantic_purpose ast_parse ast_get_docstring modules
   = extract_semantic_purpose ast_parse ast_get_docstring table modules).
Proof.
  assert (Forall (fun module =>
             re_search docstring_re (content module) = None ->
             re_search comment_re (content module) = None ->
             infer_purpose table (content module) (name module)
             = _infer_purpose (content module) (name module)) modules ->
          _extract_semantic_purpose ast_parse ast_get_docstring modules
          = extract_semantic_purpose ast_parse ast_get_docstring table modules)
    as Hagree.
  { unfold _extract_semantic_purpose, extract_semantic_purpose.
    induction 1 as [|module modules Hmodule _ IH]; [done|].
    cbn [mapM]. rewrite IH. f_equal.
    unfold with_purpose, with_semantics.
    destruct (re_search docstring_re (content module)) as [docstring_match|];
      [|destruct (re_search comment_re (content module)) as [comment_match|]];
      (destruct (ast_parse (content module)) as [e|tree]; [done|]);
      rewrite !bind_inr, member_steps; cbn [fst snd app]; [done|done|].
    by rewrite Hmodule. }
  split; [exact Hagree|]. intros ->. apply Hagree.
  apply Forall_forall. intros module _ _ _. symmetry. apply infer_purpose_agrees.
Qed.

End semantic_stages.

Section semantic_stages_examples.

Import Re semantic_analyzer analyzer.

(** A fragment with a leading comment, for which no purpose is inferred,
    and an empty table for the package: the stages agree. The modules of
    the dependency scenario have neither docstring nor comment: the
    stages agree with the table of [CodeAnalyzer]. *)
Lemma semantic_stages_agree_witness :
  _extract_semantic_purpose
    (scenarios.table_parse [(scenarios.commented, inr scenarios.commented_tree)])
    scenarios.no_docstring [scenarios.candidate (py "module_0") scenarios.commented]
  = extract_semantic_purpose
      (scenarios.table_parse [(scenarios.commented, inr scenarios.commented_tree)])
      scenarios.no_docstring [] [scenarios.candidate (py "module_0") scenarios.commented]
  /\
  _extract_semantic_purpose (scenarios.table_parse scenarios.helper_table)
    scenarios.no_docstring scenarios.helper_modules
  = extract_semantic_purpose (scenarios.table_parse scenarios.helper_table)
      scenarios.no_docstring analyzer.MODULE_PURPOSE_INDICATORS scenarios.helper_modules.
Proof.
  split.
  - destruct (semantic_stages_agree
      (scenarios.table_parse [(scenarios.commented, inr scenarios.commented_tree)])
      scenarios.no_docstring []
      [scenarios.candidate (py "module_0") scenarios.commented]) as [Hagree _].
    apply Hagree. apply Forall_singleton.
    intros _ Hcomment. vm_compute in Hcomment. discriminate.
  - destruct (semantic_stages_agree (scenarios.table_parse scenarios.helper_table)
      scenarios.no_docstring analyzer.MODULE_PURPOSE_INDICATORS
      scenarios.helper_modules) as [_ Hsame].
    apply Hsame. reflexivity.
Defined.

End semantic_stages_examples.


(** ** The whole analysis *)
Section whole_analysis.

Import module_detector dependency_analyzer semantic_analyzer results.

Variable ast_parse : str -> result node.
Variable ast_get_docstring : node -> option str.
Variable patterns : list Re.regex.
Variable table : list (str * list str).
Variable unicode_alnum : N -> bool.

Lemma bind_mret {A B} (x : A) (k : A -> result B) : mret x ≫= k = k x.
Proof. done. Qed.

(** The scans raise at a definition with a public name. *)
Lemma scans_raise (tree n : node) :
  n ∈ walk tree -> is_public_definition n = true ->
  _find_definition_boundaries tree = inl AttributeError /\
  for_each analyzer.definition_step (walk tree) [] = inl AttributeError.
Proof.
  intros Hn Hpublic. split.
  - destruct (for_each_raises (definition_step tree) (walk tree) []) as [e He].
    { exists n. split; [done|]. intros b. eexists. by apply definition_step_public. }
    unfold _find_definition_boundaries. rewrite He.
    apply for_each_inl in He as (b & x & _ & Hx).
    destruct (is_public_definition x) eqn:Hpublic'.
    + rewrite definition_step_public in Hx by done. by injection Hx as <-.
    + by rewrite definition_step_other in Hx.
  - destruct (for_each_raises analyzer.definition_step (walk tree) []) as [e He].
    { exists n. split; [done|]. intros b. eexists. by apply parent_step_public. }
    rewrite He. apply for_each_inl in He as (b & x & _ & Hx).
    destruct (is_public_definition x) eqn:Hpublic'.
    + rewrite parent_step_public in Hx by done. by injection Hx as <-.
    + by rewrite parent_step_other in Hx.
Qed.

(** X15. The analysis of the package raises what [ast.parse] raises on a
    source that does not parse, and [AttributeError] on every source whose
    tree holds a class or function definition with a public name; so does
    the analysis of [CodeAnalyzer] on such a tree. *)
Theorem analysis_raises_on_public_definition (source_code : str)
    (file_info : FileInfo) :
  (forall e, ast_parse source_code = inl e ->
     code_analyzer.analyze ast_parse ast_get_docstring patterns table
       source_code file_info = inl e) /\
  (forall tree n,
     n ∈ walk tree -> is_public_definition n = true ->
     (ast_parse source_code = inr tree ->
      code_analyzer.analyze ast_parse ast_get_docstring patterns table
        source_code file_info = inl AttributeError) /\
     analyzer.analyze ast_parse ast_get_docstring unicode_alnum
       source_code tree file_info = inl AttributeError).
Proof.
  split.
  - intros e Hparse. unfold code_analyzer.analyze, import_analyzer.analyze_imports.
    by rewrite Hparse.
  - intros tree n Hn Hpublic. destruct (scans_raise tree n Hn Hpublic) as [Hscan Hscan'].
    split.
    + intros Hparse.
      unfold code_analyzer.analyze, import_analyzer.analyze_imports,
        detect_module_boundaries.
      by rewrite Hparse, !bind_inr, bind_mret, Hscan.
    + unfold analyzer.analyze, analyzer._detect_module_boundaries.
      by rewrite Hscan'.
Qed.

Lemma stage_returns (modules : list ModuleInfo) :
  Forall (fun m => exists t, ast_parse (content m) = inr t) modules ->
  exists modules',
    extract_semantic_purpose ast_parse ast_get_docstring table modules = inr modules' /\
    Forall2 (fun m m' => name m' = name m) modules modules'.
Proof.
  intros Hparsed. unfold extract_semantic_purpose.
  apply mapM_returns. eapply Forall_impl; [done|]. intros m [t Ht]. simpl.
  pose proof (with_semantics_outcome ast_parse ast_get_docstring table m) as Hm.
  rewrite Ht in Hm. destruct Hm as [m' Hm']. exists m'. split; [done|].
  by apply with_semantics_purpose in Hm' as [? _].
Qed.

Lemma registered_names (modules modules' : list ModuleInfo) (n : str) :
  Forall2 (fun m m' => name m' = name m) modules modules' ->
  registered modules' n = None -> registered modules n = None.
Proof.
  unfold registered. intros Hnames Hnone%last_None. apply last_None.
  induction Hnames as [|m m' ms ms' Hname _ IH]; [done|].
  simpl in *. rewrite Hname in Hnone. case_bool_decide; [done|]. by apply IH.
Qed.

(** X16. On a source that parses and holds no class or function definition
    with a public name, the analysis of the package returns exactly when
    every fragment of the modules detected parses. What it returns then is
    the symbol table of the imports, the modules as the semantic stage
    fills them, and the dependency graph of the modules, whose nodes carry
    the modules as filled. *)
Theorem analysis_returns (source_code : str) (tree : node) (file_info : FileInfo) :
  ast_parse source_code = inr tree ->
  Forall (fun n => is_public_definition n = false) (walk tree) ->
  exists modules,
    detect_module_boundaries ast_parse patterns source_code = inr modules /\
    ((exists r, code_analyzer.analyze ast_parse ast_get_docstring patterns table
                  source_code file_info = inr r) <->
     Forall (fun m => exists t, ast_parse (content m) = inr t) modules) /\
    forall r,
      code_analyzer.analyze ast_parse ast_get_docstring patterns table
        source_code file_info = inr r ->
      import_analyzer.analyze_imports ast_parse source_code = inr (result_symbols r) /\
      extract_semantic_purpose ast_parse ast_get_docstring table modules
        = inr (result_modules r) /\
      (forall n, nodes (result_dependencies r) !! n
                 = Some <$> registered (result_modules r) n) /\
      (forall u v, (u, v) ∈ edges (result_dependencies r) <->
         depends ast_parse extract_referenced_names extract_defined_names
           modules u v) /\
      result_file_info r = file_info.
Proof.
  intros Hparse Hdefs.
  destruct (definition_scan_empty tree Hdefs) as [Hscan _].
  destruct (mapM_returns
    (fun entry m => covers patterns (split nl source_code) entry.1 entry.2 m)
    (fun '(i, group) => module_definition patterns (split nl source_code) i group)
    (enumerate (_group_related_boundaries
       (sorted_set (_find_section_boundaries patterns (split nl source_code)))
       proximity_threshold_default))) as (modules & Hmodules & _).
  { apply Forall_forall. intros [i g] Hg%elem_of_enumerate.
    apply list_elem_of_lookup_2 in Hg.
    destruct (groups_of_boundaries (split nl source_code)
                (_find_section_boundaries patterns (split nl source_code))
                proximity_threshold_default g) as (Hne & Hsorted & Hrange); [|done|].
    + apply Forall_forall.
      intros z (k & line & -> & Hline & _)%elem_of_find_section_boundaries.
      apply lookup_lt_Some in Hline. lia.
    + by apply module_definition_covers. }
  assert (detect_module_boundaries ast_parse patterns source_code = inr modules)
    as Hdetect.
  { unfold detect_module_boundaries. rewrite Hparse, bind_inr, Hscan, bind_inr.
    by rewrite app_nil_r. }
  exists modules. split; [done|].
  unfold code_analyzer.analyze, import_analyzer.analyze_imports.
  rewrite Hparse, bind_inr, bind_mret, Hdetect, bind_inr.
  assert (forall g modules',
    build_dependency_graph ast_parse modules = inr g ->
    extract_semantic_purpose ast_parse ast_get_docstring table modules = inr modules' ->
    Forall (fun m => exists t, ast_parse (content m) = inr t) modules /\
    (forall n, nodes (filled modules' g) !! n = Some <$> registered modules' n) /\
    (forall u v, (u, v) ∈ edges (filled modules' g) <->
       depends ast_parse extract_referenced_names extract_defined_names modules u v))
    as Hresult.
  { intros g modules' Hg Hmodules'.
    assert (Forall (fun m => exists t, ast_parse (content m) = inr t) modules)
      as Hparsed.
    { eapply (returned_parsed ast_parse modules
                (build_dependency_graph ast_parse modules) g); [|exact Hg].
      intros m e. apply build_dependency_graph_raises. }
    split; [done|].
    destruct (graph_loops_edges ast_parse extract_referenced_names
                extract_defined_names modules (edge_step ast_parse)
                (module_step ast_parse modules))
      with (g0 := foldl (fun g module => add_node g (name module) module)
                    empty_graph modules)
      as (g' & Hg' & Hnodes & Hedges); [done|done|done|done|by rewrite add_nodes_edges|].
    unfold build_dependency_graph in Hg. rewrite Hg in Hg'. injection Hg' as <-.
    destruct (stage_returns modules Hparsed) as (modules'' & Hstage & Hnames).
    rewrite Hmodules' in Hstage. injection Hstage as <-.
    split.
    - intros n. unfold filled. rewrite add_nodes_lookup, Hnodes, registry_registered.
      destruct (registered modules' n) eqn:Hreg; [done|].
      by rewrite (registered_names modules modules' n).
    - intros u v. unfold filled. by rewrite add_nodes_edges. }
  split.
  - split.
    + intros [r Hr].
      destruct (build_dependency_graph ast_parse modules) as [e|g] eqn:Hg; [done|].
      rewrite bind_inr in Hr.
      destruct (extract_semantic_purpose ast_parse ast_get_docstring table modules)
        as [e|modules'] eqn:Hstage; [done|].
      by destruct (Hresult g modules') as [? _].
    + intros Hparsed.
      destruct (graph_loops_edges ast_parse extract_referenced_names
                  extract_defined_names modules (edge_step ast_parse)
                  (module_step ast_parse modules))
        with (g0 := foldl (fun g module => add_node g (name module) module)
                      empty_graph modules)
        as (g & Hg & _); [done|done|done|done|by rewrite add_nodes_edges|].
      unfold build_dependency_graph. rewrite Hg.
      destruct (stage_returns modules Hparsed) as (modules' & -> & _).
      rewrite !bind_inr. by eexists.
  - intros r Hr.
    destruct (build_dependency_graph ast_parse modules) as [e|g] eqn:Hg; [done|].
    rewrite bind_inr in Hr.
    destruct (extract_semantic_purpose ast_parse ast_get_docstring table modules)
      as [e|modules'] eqn:Hstage; [done|].
    rewrite bind_inr in Hr. injection Hr as <-. cbn.
    destruct (Hresult g modules') as (_ & Hnodes & Hedges); done.
Qed.

End whole_analysis.

Section whole_analysis_examples.

Import module_detector results dependency_analyzer.

(** The source of one public function: both analyses raise. *)
Lemma analysis_raises_on_public_definition_witness :
  code_analyzer.analyze
    (scenarios.table_parse [(scenarios.function_source, inr scenarios.function_tree)])
    scenarios.no_docstring (analyzer.MODULE_BOUNDARY_PATTERNS scenarios.ascii_only)
    analyzer.MODULE_PURPOSE_INDICATORS scenarios.function_source scenarios.divided_file
  = inl AttributeError /\
  analyzer.analyze
    (scenarios.table_parse [(scenarios.function_source, inr scenarios.function_tree)])
    scenarios.no_docstring scenarios.ascii_only
    scenarios.function_source scenarios.function_tree scenarios.divided_file
  = inl AttributeError.
Proof.
  destruct (analysis_raises_on_public_definition
    (scenarios.table_parse [(scenarios.function_source, inr scenarios.function_tree)])
    scenarios.no_docstring (analyzer.MODULE_BOUNDARY_PATTERNS scenarios.ascii_only)
    analyzer.MODULE_PURPOSE_INDICATORS scenarios.ascii_only
    scenarios.function_source scenarios.divided_file) as [_ Hpublic].
  destruct (Hpublic scenarios.function_tree
              (FunctionDef (py "f") [] (Other []) [Other []] [] None [] 1))
    as [Hpackage Hanalyzer].
  - right. left.
  - reflexivity.
  - split; [apply Hpackage; reflexivity|exact Hanalyzer].
Defined.

(** The divided file: one module with an inferred purpose, one node, no
    edge. *)
Lemma analysis_returns_witness :
  exists r,
    code_analyzer.analyze (scenarios.table_parse scenarios.divided_table)
      scenarios.no_docstring (analyzer.MODULE_BOUNDARY_PATTERNS scenarios.ascii_only)
      analyzer.MODULE_PURPOSE_INDICATORS scenarios.divided_source scenarios.divided_file
    = inr r /\
    purpose <$> result_modules r = [Some (py "Handles module 0 operations")] /\
    (forall n, nodes (result_dependencies r) !! n
               = Some <$> registered (result_modules r) n) /\
    edges (result_dependencies r) = ∅.
Proof.
  destruct (analysis_returns (scenarios.table_parse scenarios.divided_table)
              scenarios.no_docstring
              (analyzer.MODULE_BOUNDARY_PATTERNS scenarios.ascii_only)
              analyzer.MODULE_PURPOSE_INDICATORS scenarios.divided_source
              scenarios.divided_tree scenarios.divided_file)
    as (modules & Hmodules & [_ Hreturns] & Hresult).
  - reflexivity.
  - vm_compute. repeat constructor.
  - vm_compute in Hmodules. injection Hmodules as <-.
    destruct Hreturns as [r Hr].
    { repeat constructor. eexists. reflexivity. }
    destruct (Hresult r Hr) as (_ & _ & Hnodes & _).
    exists r. split; [exact Hr|]. split; [|split; [exact Hnodes|]];
      vm_compute in Hr; injection Hr as <-; reflexivity.
Defined.

End whole_analysis_examples.

(** ** src/transformer/import_manager.py: the import mappings *)

Lemma foldl_invariant {A B} (P : B -> Prop) (f : B -> A -> B) (l : list A) (acc : B) :
  P acc -> (forall b x, x ∈ l -> P b -> P (f b x)) -> P (foldl f acc l).
Proof.
  revert acc. induction l as [|x l IH]; intros acc Hacc Hstep; [done|].
  simpl. apply IH.
  - apply Hstep; [left|done].
  - intros b y Hy. apply Hstep. by right.
Qed.

(** A loop over options that has failed stays failed. *)
Lemma foldl_None {A B} (f : option B -> A -> option B) (l : list A) :
  (forall x, f None x = None) -> foldl f None l = None.
Proof. intros Hf. induction l as [|x l IH]; [done|]. simpl. by rewrite Hf. Qed.

(** A loop whose body returns at every element returns. *)
Lemma for_each_total {A B} (f : B -> A -> result B) (l : list A) (acc : B) :
  (forall b x, x ∈ l -> exists b', f b x = inr b') ->
  exists r, for_each f l acc = inr r.
Proof.
  revert acc. induction l as [|x l IH]; intros acc Hstep; [by eexists|].
  simpl. destruct (Hstep acc x) as [b' ->]; [left|]. rewrite bind_inr.
  apply IH. intros b y Hy. apply Hstep. by right.
Qed.

(** A relation that lowers a rank has no cycle. *)
Lemma tc_ranked {A} (R : relation A) (rank : A -> nat) (a b : A) :
  (forall x y, R x y -> rank y < rank x) -> tc R a b -> rank b < rank a.
Proof.
  intros Hrank Hab. induction Hab as [x y Hxy|x y z Hxy _ IH].
  - by apply Hrank.
  - apply Hrank in Hxy. lia.
Qed.

Lemma filter_filter_same {A} (P : A -> Prop) `{!forall x, Decision (P x)} (l : list A) :
  filter P (filter P l) = filter P l.
Proof.
  induction l as [|x l IH]; [done|]. rewrite filter_cons. case_decide; [|done].
  rewrite filter_cons, decide_True by done. by rewrite IH.
Qed.

Section dicts.

Context {V : Type}.
Implicit Types (d : dict V) (k : str) (v : V).

(** A key that is there keeps its place. *)
Lemma dict_set_keys d k v : k ∈ d.*1 -> (dict_set d k v).*1 = d.*1.
Proof.
  induction d as [|[k' v'] d IH]; intros Hk; [by apply elem_of_nil in Hk|].
  simpl. case_bool_decide as Hkk; simpl; [by subst|].
  f_equal. apply IH. apply elem_of_cons in Hk as [Hk|Hk]; [by subst|done].
Qed.

(** A new key comes last. *)
Lemma dict_set_fresh d k v : k ∉ d.*1 -> dict_set d k v = d ++ [(k, v)].
Proof.
  induction d as [|[k' v'] d IH]; intros Hk; [done|].
  simpl in *. apply not_elem_of_cons in Hk as [Hkk Hk].
  rewrite bool_decide_eq_false_2 by done. by rewrite IH.
Qed.

Lemma elem_of_dict_set_keys d k v k' :
  k' ∈ (dict_set d k v).*1 <-> k' = k \/ k' ∈ d.*1.
Proof.
  destruct (decide (k ∈ d.*1)) as [Hk|Hk].
  - rewrite dict_set_keys by done. split; [by right|]. by intros [->|?].
  - rewrite dict_set_fresh by done. rewrite fmap_app, elem_of_app. simpl.
    rewrite list_elem_of_singleton. tauto.
Qed.

Lemma dict_set_NoDup d k v : NoDup d.*1 -> NoDup (dict_set d k v).*1.
Proof.
  intros Hd. destruct (decide (k ∈ d.*1)) as [Hk|Hk].
  - by rewrite dict_set_keys.
  - rewrite dict_set_fresh by done. rewrite fmap_app. apply NoDup_app. split_and!.
    + done.
    + simpl. intros x Hx ->%list_elem_of_singleton. done.
    + simpl. apply NoDup_singleton.
Qed.

Lemma elem_of_dict_set d k v k' v' :
  (k', v') ∈ dict_set d k v -> (k' = k /\ v' = v) \/ (k', v') ∈ d.
Proof.
  induction d as [|[k0 v0] d IH]; simpl.
  { intros [= -> ->]%list_elem_of_singleton. by left. }
  case_bool_decide as Hk.
  - intros [[= -> ->]|H]%elem_of_cons; [by left|]. right. by right.
  - intros [[= -> ->]|H]%elem_of_cons; [right; left|].
    destruct (IH H) as [?|?]; [by left|]. right. by right.
Qed.

(** Setting the value of a key that is there changes the value of its
    item and nothing else. *)
Lemma dict_set_update (R : V -> V -> Prop) d k v v' :
  (forall x, R x x) -> dict_get d k = Some v -> R v' v ->
  Forall2 (fun item' item => item'.1 = item.1 /\ R item'.2 item.2) (dict_set d k v') d.
Proof.
  intros Hrefl. unfold dict_get. induction d as [|[k0 v0] d IH]; [done|].
  simpl. case_bool_decide as Hkk; simpl in *.
  - intros [= ->] HR. subst. constructor; [done|].
    apply Forall2_same_length_lookup_2; [done|]. intros i x y Hx Hy.
    rewrite Hx in Hy. injection Hy as <-. done.
  - intros Hget HR. constructor; [done|by apply IH].
Qed.

End dicts.

Lemma list_remove_sublist (x : str) (l : list str) : sublist (list_remove x l) l.
Proof.
  induction l as [|y l IH]; [done|]. simpl. case_bool_decide.
  - by apply sublist_cons.
  - by apply sublist_skip.
Qed.

Section pruning.

Import import_manager.

Lemma pruned_refl (d : dict (list str)) : pruned d d.
Proof.
  apply Forall2_same_length_lookup_2; [done|]. intros i x y Hx Hy.
  rewrite Hx in Hy. by injection Hy as <-.
Qed.

Lemma pruned_trans (d1 d2 d3 : dict (list str)) :
  pruned d1 d2 -> pruned d2 d3 -> pruned d1 d3.
Proof.
  unfold pruned. intros H12. revert d3.
  induction H12 as [|x y d1 d2 [Hxy Hs] _ IH]; intros d3 H23.
  { by apply Forall2_nil_inv_l in H23 as ->. }
  apply Forall2_cons_inv_l in H23 as (z & d3' & [Hyz Ht] & H23 & ->).
  constructor; [|by apply IH]. split; [congruence|by etrans].
Qed.

Lemma pruned_keys (d' d : dict (list str)) : pruned d' d -> d'.*1 = d.*1.
Proof.
  unfold pruned. induction 1 as [|x y d' d [Hxy _] _ IH]; [done|]. simpl. by f_equal.
Qed.

Lemma pruned_items (d' d : dict (list str)) (k : str) (v' : list str) :
  pruned d' d -> (k, v') ∈ d' -> exists v, (k, v) ∈ d /\ sublist v' v.
Proof.
  unfold pruned. induction 1 as [|x y d' d [Hxy Hs] _ IH]; [by intros ?%elem_of_nil|].
  intros [Hx|H]%elem_of_cons.
  - subst x. destruct y as [k0 v]. simpl in *. subst k0. exists v. split; [left|done].
  - destruct (IH H) as (v & Hv & Hsub). exists v. split; [by right|done].
Qed.

Lemma zeros_mark (l : list nat) (i : nat) :
  l !! i = Some 0 -> S (zeros (<[i := 1]> l)) = zeros l.
Proof.
  unfold zeros. revert i. induction l as [|x l IH]; intros [|i]; simpl; try done.
  - intros [= ->]. rewrite !filter_cons. simpl. repeat case_decide; simpl; lia.
  - intros Hi. rewrite !filter_cons. specialize (IH i Hi).
    repeat case_decide; simpl; lia.
Qed.

Lemma zeros_replicate (n : nat) : zeros (replicate n 0) = n.
Proof.
  unfold zeros. induction n as [|n IH]; [done|]. cbn [replicate].
  rewrite filter_cons_True by done. cbn [length]. by rewrite IH.
Qed.

(** The search returns, given fuel for the modules not yet visited; it
    visits [node], and the cycles it adds have two names at least. *)
Lemma dfs_returns (module_imports : dict (list str)) (fuel node : nat)
    (path : list str) (st : search) :
  path <> [] -> visited st !! node = Some 0 -> zeros (visited st) <= fuel ->
  exists st', dfs module_imports fuel node path st = Some st'
    /\ zeros (visited st') < zeros (visited st)
    /\ (Forall long (cycles st) -> Forall long (cycles st')).
Proof.
  revert node path st.
  induction fuel as [|fuel IH]; intros node path st Hpath Hnode Hfuel.
  { pose proof (zeros_mark _ _ Hnode). lia. }
  cbn [dfs].
  set (marked := {| visited := <[node:=1]> (visited st);
                    recursion_stack := <[node:=1]> (recursion_stack st);
                    cycles := cycles st |}).
  assert (zeros (visited marked) <= fuel) as Hmarked.
  { simpl. pose proof (zeros_mark _ _ Hnode). lia. }
  assert (zeros (visited marked) < zeros (visited st)) as Hless.
  { simpl. pose proof (zeros_mark _ _ Hnode). lia. }
  assert (Forall long (cycles st) -> Forall long (cycles marked)) as Hlong by done.
  revert Hless Hlong. generalize marked Hmarked. clear marked Hmarked.
  generalize (enumerate (modules module_imports)). intros l.
  induction l as [|[neighbor name] l IHl]; intros cur Hcur Hless Hlong.
  { simpl. eexists. split; [done|]. simpl. done. }
  cbn [foldl]. cbn [mbind option_bind].
  destruct (adjacent module_imports node neighbor); [|by apply IHl].
  case_bool_decide as Hstack.
  { case_bool_decide as Hseen; [by apply IHl|].
    apply IHl; simpl; [done|done|].
    intros H. apply Forall_app. split; [by apply Hlong|].
    apply Forall_singleton. unfold long. rewrite length_app. simpl.
    destruct path; [done|]. simpl. lia. }
  case_bool_decide as Hvisited; [|by apply IHl].
  destruct (IH neighbor (path ++ [name]) cur) as (st' & -> & Hst' & Hcycles).
  - by destruct path.
  - done.
  - lia.
  - apply IHl; [lia|lia|]. intros H. by apply Hcycles, Hlong.
Qed.

(** The search for cycles returns, and with cycles of two names at
    least. *)
Lemma find_cycles_returns (module_imports : dict (list str)) :
  exists found, find_cycles module_imports = Some found /\ Forall long found.
Proof.
  unfold find_cycles.
  set (n := length (modules module_imports)).
  set (start := {| visited := replicate n 0; recursion_stack := replicate n 0;
                   cycles := [] |}).
  assert (zeros (visited start) <= n) as Hstart by (simpl; by rewrite zeros_replicate).
  assert (Forall long (cycles start)) as Hlong by (simpl; constructor).
  revert Hstart Hlong. generalize start. clear start.
  generalize (enumerate (modules module_imports)). intros l.
  induction l as [|[i name] l IHl]; intros cur Hcur Hlong.
  { simpl. by eexists. }
  cbn [foldl]. cbn [mbind option_bind].
  case_bool_decide as Hvisited; [|by apply IHl].
  destruct (dfs_returns module_imports n i [name] cur) as (st' & -> & Hst' & Hcycles);
    [done..|].
  apply IHl; [lia|by apply Hcycles].
Qed.

(** One cycle of two names at least is broken without an error, and the
    mapping is pruned. *)
Lemma break_cycle_pruned (d : dict (list str)) (cycle : list str) :
  long cycle -> exists d', break_cycle d cycle = inr d' /\ pruned d' d.
Proof.
  unfold long. intros Hlong. unfold break_cycle.
  destruct cycle as [|c0 [|c1 cycle]]; simpl in Hlong; try lia.
  rewrite (getitem_head (c0 :: c1 :: cycle) c0) by done.
  assert (getitem (c0 :: c1 :: cycle) 1 = inr c1) as ->
    by exact (getitem_nat (c0 :: c1 :: cycle) 1 c1 eq_refl).
  rewrite !bind_inr.
  destruct (for_each_total (weakest_step d (c0 :: c1 :: cycle))
              (seq 0 (length (c0 :: c1 :: cycle))) (None, (c0, c1))) as [[m link] ->].
  { intros b i Hi%elem_of_seq. unfold weakest_step.
    destruct (lookup_lt_is_Some_2 (c0 :: c1 :: cycle) i) as [x Hx]; [lia|].
    destruct (lookup_lt_is_Some_2 (c0 :: c1 :: cycle)
                ((i + 1) mod length (c0 :: c1 :: cycle))) as [y Hy].
    { apply Nat.mod_upper_bound. simpl. lia. }
    rewrite (getitem_nat _ _ _ Hx), bind_inr, (getitem_nat _ _ _ Hy), bind_inr.
    destruct (b.1); [case_bool_decide|]; by eexists. }
  rewrite bind_inr. case_bool_decide as Hin; [|eexists; split; [done|apply pruned_refl]].
  eexists. split; [done|].
  destruct (dict_get d link.1) as [imports|] eqn:Hget; simpl in *;
    [|by apply elem_of_nil in Hin].
  apply (dict_set_update (fun v' v => sublist v' v) d link.1 imports); [done|done|].
  apply list_remove_sublist.
Qed.

Lemma break_cycles_pruned (d : dict (list str)) (found : list (list str)) :
  Forall long found -> exists d', for_each break_cycle found d = inr d' /\ pruned d' d.
Proof.
  revert d. induction found as [|cycle found IH]; intros d Hfound.
  { exists d. split; [done|apply pruned_refl]. }
  apply Forall_cons in Hfound as [Hcycle Hfound]. simpl.
  destruct (break_cycle_pruned d cycle Hcycle) as (d1 & -> & H1). rewrite bind_inr.
  destruct (IH d1 Hfound) as (d' & -> & H'). exists d'. split; [done|].
  by eapply pruned_trans.
Qed.

(** X17. [_resolve_circular_dependencies] returns for every mapping: the
    search for cycles ends within its fuel and the loop over the cycles
    raises nothing. The mapping it returns has the keys of the given one
    in their order, and under every key a sublist of the given imports. *)
Theorem resolve_circular_dependencies_prunes (module_imports : dict (list str)) :
  exists cleaned,
    _resolve_circular_dependencies module_imports = Some (inr cleaned)
    /\ pruned cleaned module_imports.
Proof.
  unfold _resolve_circular_dependencies.
  destruct (find_cycles_returns module_imports) as (found & -> & Hfound).
  destruct (break_cycles_pruned module_imports found Hfound) as (d' & Hd' & Hpruned).
  exists d'. split; [|done]. simpl. by rewrite Hd'.
Qed.

End pruning.

Section pruning_examples.

Import import_manager.

(** Two modules that import each other: the search records the cycle
    from the first one and back, and the import of the first, which has
    the fewest imports, goes. *)
Lemma resolve_circular_dependencies_prunes_witness :
  _resolve_circular_dependencies scenarios.mutual_imports
  = Some (inr [ (py "a", []); (py "b", [py "a"; py "c"]); (py "c", []) ])
  /\ pruned [ (py "a", []); (py "b", [py "a"; py "c"]); (py "c", []) ]
       scenarios.mutual_imports.
Proof.
  destruct (resolve_circular_dependencies_prunes scenarios.mutual_imports)
    as (cleaned & Hreturns & Hpruned).
  vm_compute in Hreturns. injection Hreturns as <-. split; [reflexivity|exact Hpruned].
Defined.

End pruning_examples.

Section acyclic.

Import import_manager.

Variable module_imports : dict (list str).

Hypothesis acyclic : forall a, ~ tc (imports_of module_imports) a a.

Lemma module_indices_lookup (name : str) (i : nat) :
  module_indices module_imports !! name = Some i ->
  modules module_imports !! i = Some name.
Proof.
  unfold module_indices. intros H. apply elem_of_enumerate.
  revert H. generalize (enumerate (modules module_imports)). intros l.
  induction l as [|[j x] l IH] using rev_ind; [done|].
  rewrite foldl_app. simpl. intros H. apply elem_of_app.
  destruct (decide (x = name)) as [->|Hx].
  - rewrite lookup_insert_eq in H. injection H as ->. right. left.
  - rewrite lookup_insert_ne in H by done. left. by apply IH.
Qed.

(** An entry of the matrix is an import of one key by another. *)
Lemma adjacent_imports (i j : nat) :
  adjacent module_imports i j = true ->
  exists a b, modules module_imports !! i = Some a
    /\ modules module_imports !! j = Some b /\ imports_of module_imports a b.
Proof.
  unfold adjacent. intros H%bool_decide_eq_true. revert i j H. unfold matrix.
  apply (foldl_invariant (fun matrix => forall i j, matrix !! i ≫= (.!! j) = Some 1 ->
           exists a b, modules module_imports !! i = Some a
             /\ modules module_imports !! j = Some b /\ imports_of module_imports a b)).
  { intros i j H. destruct (replicate _ _ !! i) as [row|] eqn:Hrow; [|done].
    apply lookup_replicate in Hrow as [-> _]. simpl in H.
    by apply lookup_replicate in H as [? _]. }
  intros matrix [module imports] Hitem IH. unfold fill_row.
  destruct (module_indices module_imports !! module) as [i0|] eqn:Hi0; [|done].
  apply module_indices_lookup in Hi0.
  apply (foldl_invariant (fun matrix => forall i j, matrix !! i ≫= (.!! j) = Some 1 ->
           exists a b, modules module_imports !! i = Some a
             /\ modules module_imports !! j = Some b /\ imports_of module_imports a b));
    [done|].
  clear matrix IH. intros matrix imp Himp IH.
  destruct (module_indices module_imports !! imp) as [j0|] eqn:Hj0; [|done].
  apply module_indices_lookup in Hj0. unfold set_entry.
  destruct (matrix !! i0) as [row|] eqn:Hrow; [|done].
  intros i j H. destruct (decide (i = i0)) as [->|Hi].
  - rewrite list_lookup_insert_eq in H by (by eapply lookup_lt_Some). simpl in H.
    destruct (decide (j = j0)) as [->|Hj].
    + exists module, imp. split_and!; [done..|]. exists imports. split_and!; [done..|].
      by eapply list_elem_of_lookup_2.
    + rewrite list_lookup_insert_ne in H by done. apply IH. by rewrite Hrow.
  - rewrite list_lookup_insert_ne in H by done. by apply IH.
Qed.

(** Without a cycle of imports the search records none, and it leaves
    the recursion stack as it found it. *)
Lemma dfs_acyclic (fuel node : nat) (b : str) (path : list str) (st st' : search) :
  modules module_imports !! node = Some b -> stack_reaches module_imports st b ->
  dfs module_imports fuel node path st = Some st' ->
  cycles st' = cycles st
  /\ forall x, recursion_stack st' !! x = Some 1 -> recursion_stack st !! x = Some 1.
Proof.
  revert node b path st st'.
  induction fuel as [|fuel IH]; intros node b path st st' Hnode Hreach; [done|].
  cbn [dfs].
  match goal with |- context [foldl ?f _ _] => set (body := f) end.
  assert (forall l cur last,
            (forall neighbor name, (neighbor, name) ∈ l ->
               modules module_imports !! neighbor = Some name) ->
            cycles cur = cycles st ->
            (forall x, recursion_stack cur !! x = Some 1 ->
               x = node \/ recursion_stack st !! x = Some 1) ->
            foldl body (Some cur) l = Some last ->
            cycles last = cycles st
            /\ forall x, recursion_stack last !! x = Some 1 ->
                 x = node \/ recursion_stack st !! x = Some 1) as Hloop.
  { induction l as [|[neighbor name] l IHl]; intros cur last Hl Hcycles Hstack.
    { simpl. by intros [= <-]. }
    assert (forall neighbor name, (neighbor, name) ∈ l ->
              modules module_imports !! neighbor = Some name) as Hl'.
    { intros ? ? ?. apply Hl. by right. }
    assert (modules module_imports !! neighbor = Some name) as Hneighbor.
    { apply Hl. left. }
    cbn [foldl]. unfold body at 2. cbn [mbind option_bind].
    destruct (adjacent module_imports node neighbor) eqn:Hadj; [|by apply IHl].
    apply adjacent_imports in Hadj as (a' & b' & Ha' & Hb' & Hedge).
    assert (a' = b) as -> by congruence. assert (b' = name) as -> by congruence.
    assert (stack_reaches module_imports cur b) as Hcur.
    { intros x Hx. destruct (Hstack x Hx) as [->|H]; [by exists b|]. by apply Hreach. }
    case_bool_decide as Hon.
    { destruct (Hcur neighbor Hon) as (a & Ha & Hab).
      assert (a = name) as -> by congruence.
      destruct (acyclic name). eapply tc_rtc_l; [exact Hab|]. by apply tc_once. }
    case_bool_decide as Hvisited; [|by apply IHl].
    destruct (dfs module_imports fuel neighbor (path ++ [name]) cur) as [next|] eqn:Hdfs.
    2:{ rewrite foldl_None; [done|]. by intros [? ?]. }
    destruct (IH neighbor name (path ++ [name]) cur next Hneighbor) as [Hc Hs]; [|done|].
    { intros x Hx. destruct (Hcur x Hx) as (a & Ha & Hab). exists a. split; [done|].
      by eapply rtc_r. }
    apply IHl; [done|congruence|]. intros x Hx. by apply Hstack, Hs. }
  destruct (foldl body _ _) as [last|] eqn:Hlast; [|done].
  apply Hloop in Hlast as [Hcycles Hstack].
  - simpl. intros [= <-]. simpl. split; [done|].
    intros x [(_ & [=] & _)|[Hx Hcur]]%list_lookup_insert_Some.
    by destruct (Hstack x Hcur) as [->|H].
  - intros neighbor name. apply elem_of_enumerate.
  - done.
  - simpl. intros x [(-> & _)|[_ Hx]]%list_lookup_insert_Some; [by left|by right].
Qed.

Lemma find_cycles_acyclic (found : list (list str)) :
  find_cycles module_imports = Some found -> found = [].
Proof.
  unfold find_cycles.
  match goal with |- context [foldl ?f _ _] => set (body := f) end.
  assert (forall l cur last,
            (forall i name, (i, name) ∈ l -> modules module_imports !! i = Some name) ->
            cycles cur = [] ->
            (forall x, recursion_stack cur !! x <> Some 1) ->
            foldl body (Some cur) l = Some last -> cycles last = []) as Hloop.
  { induction l as [|[i name] l IHl]; intros cur last Hl Hcycles Hstack.
    { simpl. by intros [= <-]. }
    assert (forall i name, (i, name) ∈ l -> modules module_imports !! i = Some name)
      as Hl'.
    { intros ? ? ?. apply Hl. by right. }
    cbn [foldl]. unfold body at 2. cbn [mbind option_bind].
    case_bool_decide as Hvisited; [|by apply IHl].
    destruct (dfs module_imports _ i [name] cur) as [next|] eqn:Hdfs.
    2:{ rewrite foldl_None; [done|]. by intros [? ?]. }
    apply dfs_acyclic with (b := name) in Hdfs as [Hc Hs].
    - apply IHl; [done|congruence|]. intros x Hx. by apply (Hstack x), Hs.
    - apply Hl. left.
    - intros x Hx. by destruct (Hstack x). }
  destruct (foldl body _ _) as [last|] eqn:Hlast; [|done].
  simpl. intros [= <-]. eapply Hloop; [|..|exact Hlast].
  - intros i name. apply elem_of_enumerate.
  - done.
  - simpl. intros x [[=] _]%lookup_replicate.
Qed.

(** X18. Where no key of the mapping imports itself, directly or through
    other keys, [_resolve_circular_dependencies] returns the mapping as
    it is. *)
Theorem resolve_keeps_acyclic :
  _resolve_circular_dependencies module_imports = Some (inr module_imports).
Proof.
  unfold _resolve_circular_dependencies.
  destruct (find_cycles_returns module_imports) as (found & Hfound & _).
  rewrite Hfound. by apply find_cycles_acyclic in Hfound as ->.
Qed.

End acyclic.

Section acyclic_examples.

Import import_manager.

(** The mapping in layers: the application imports the core. *)
Lemma resolve_keeps_acyclic_witness :
  (forall a, ~ tc (imports_of scenarios.layered_imports) a a) /\
  _resolve_circular_dependencies scenarios.layered_imports
  = Some (inr scenarios.layered_imports).
Proof.
  assert (forall a, ~ tc (imports_of scenarios.layered_imports) a a) as Hacyclic.
  { intros a Ha.
    apply (tc_ranked _ (fun k => if bool_decide (k = py "app") then 1 else 0)) in Ha;
      [lia|].
    intros x y (imports & Hitem & Hy & _).
    apply elem_of_cons in Hitem as [[= -> ->]|Hitem].
    - apply elem_of_cons in Hy as [->|Hy]; [vm_compute; lia|].
      apply list_elem_of_singleton in Hy as ->. vm_compute. lia.
    - apply list_elem_of_singleton in Hitem as [= -> ->]. by apply elem_of_nil in Hy. }
  split; [exact Hacyclic|].
  exact (resolve_keeps_acyclic scenarios.layered_imports Hacyclic).
Defined.

End acyclic_examples.

Section reorganize.

Import import_manager.

Context {E : Type}.
Variable successors : str -> graph_answer E.

Lemma required_append (dependencies : list str) (required : list str) :
  foldl (fun required dep => required ++ [dep]) required dependencies
  = required ++ dependencies.
Proof.
  revert required. induction dependencies as [|dep l IH]; intros required; simpl.
  - by rewrite app_nil_r.
  - by rewrite IH, <- app_assoc.
Qed.

Lemma reorganize_step_direct (d : dict (list str)) (module : ModuleInfo) :
  (forall e, successors (name module) <> Raised e) ->
  reorganize_step successors d module
  = inr (dict_set d (name module) (direct_imports successors (name module))).
Proof.
  intros Hmodule. unfold reorganize_step, direct_imports.
  destruct (successors (name module)) as [dependencies| |e];
    [|done|by destruct (Hmodule e)].
  by rewrite required_append.
Qed.

(** The loop of [reorganize_imports] gives every module name once, with
    the successors of the module as its imports. *)
Lemma required_imports_direct (modules : list ModuleInfo) (d : dict (list str)) :
  (forall module e, module ∈ modules -> successors (name module) <> Raised e) ->
  NoDup d.*1 ->
  (forall k v, (k, v) ∈ d -> v = direct_imports successors k) ->
  exists d', required_imports successors modules d = inr d'
    /\ NoDup d'.*1
    /\ (forall k, k ∈ d'.*1 <-> k ∈ d.*1 \/ k ∈ name <$> modules)
    /\ (forall k v, (k, v) ∈ d' -> v = direct_imports successors k).
Proof.
  revert d. induction modules as [|module modules IH]; intros d Hmodules Hd Hitems.
  { exists d. split_and!; [done|done| |done]. intros k. rewrite elem_of_nil. tauto. }
  simpl. rewrite reorganize_step_direct by (intros e; apply Hmodules; left).
  destruct (IH (dict_set d (name module) (direct_imports successors (name module))))
    as (d' & -> & Hnodup & Hkeys & Hvalues).
  - intros m e Hm. apply Hmodules. by right.
  - by apply dict_set_NoDup.
  - intros k v [[-> ->]|H]%elem_of_dict_set; [done|by apply Hitems].
  - exists d'. split_and!; [done|done| |done].
    intros k. rewrite Hkeys, elem_of_dict_set_keys, elem_of_cons. tauto.
Qed.

(** X19. Where the graph raises nothing but [KeyError] and [TypeError] at
    the names of the modules, [reorganize_imports] returns a mapping whose
    keys are the names of the modules, each once; the imports of a name
    are a sublist of its successors in the graph, and there are none
    where the graph raised. *)
Theorem reorganize_imports_direct (modules : list ModuleInfo) :
  (forall module e, module ∈ modules -> successors (name module) <> Raised e) ->
  exists module_imports,
    reorganize_imports successors modules = inr (Some (inr module_imports))
    /\ NoDup module_imports.*1
    /\ (forall k, k ∈ module_imports.*1 <-> k ∈ name <$> modules)
    /\ (forall k v, (k, v) ∈ module_imports ->
          sublist v (direct_imports successors k)).
Proof.
  intros Hmodules. unfold reorganize_imports.
  destruct (required_imports_direct modules [] Hmodules)
    as (d & -> & Hnodup & Hkeys & Hvalues).
  { constructor. } { by intros k v ?%elem_of_nil. }
  destruct (find_cycles_returns d) as (found & Hfound & Hlong).
  destruct (break_cycles_pruned d found Hlong) as (d' & Hd' & Hpruned).
  exists d'. split_and!.
  - unfold _resolve_circular_dependencies. rewrite Hfound. simpl. by rewrite Hd'.
  - by rewrite (pruned_keys _ _ Hpruned).
  - intros k. rewrite (pruned_keys _ _ Hpruned), Hkeys, elem_of_nil. tauto.
  - intros k v' (v & Hv & Hsub)%(pruned_items _ _ _ _ Hpruned).
    by rewrite <- (Hvalues k v Hv).
Qed.

(** X20. An exception of the graph other than [KeyError] and [TypeError]
    is not caught: [reorganize_imports] raises the exception of the first
    module at which the graph raises one. *)
Theorem reorganize_imports_raises (before after : list ModuleInfo)
    (module : ModuleInfo) (e : E) :
  (forall m e', m ∈ before -> successors (name m) <> Raised e') ->
  successors (name module) = Raised e ->
  reorganize_imports successors (before ++ module :: after) = inl e.
Proof.
  intros Hbefore Hmodule. unfold reorganize_imports.
  enough (forall d, required_imports successors (before ++ module :: after) d = inl e)
    as -> by done.
  induction before as [|m before IH]; intros d; simpl.
  - unfold reorganize_step. by rewrite Hmodule.
  - rewrite reorganize_step_direct by (intros e'; apply Hbefore; left).
    apply IH. intros m' e' Hm'. apply Hbefore. by right.
Qed.

End reorganize.

Section reorganize_examples.

Import import_manager.

(** The dependency scenario with a graph that knows the caller only. *)
Lemma reorganize_imports_direct_witness :
  reorganize_imports scenarios.caller_graph scenarios.helper_modules
  = inr (Some (inr [ (py "module_0", [py "helper"]); (py "helper", []) ])).
Proof.
  destruct (reorganize_imports_direct scenarios.caller_graph scenarios.helper_modules)
    as (module_imports & Hreturns & _).
  - intros module e _. unfold scenarios.caller_graph. by case_bool_decide.
  - rewrite Hreturns. vm_compute in Hreturns. by injection Hreturns as <-.
Defined.

(** The same modules with a graph that fails at the helper. *)
Lemma reorganize_imports_raises_witness :
  reorganize_imports scenarios.failing_graph scenarios.helper_modules = inl tt.
Proof.
  apply (reorganize_imports_raises scenarios.failing_graph
           [scenarios.candidate (py "module_0") scenarios.caller_content] []
           (scenarios.candidate (py "helper") scenarios.helper_content) tt).
  - intros m e' ->%list_elem_of_singleton. done.
  - reflexivity.
Defined.

End reorganize_examples.

Section optimize.

Import import_manager.

Variable ast_parse : str -> result node.
Variable unicode_alnum : N -> bool.
Variable source : str.

Lemma keep_step_found (module_symbols symbols : gset str) (kept : list str) (imp : str) :
  extract_used_symbols ast_parse unicode_alnum imp = inr symbols ->
  keep_step ast_parse unicode_alnum module_symbols kept imp
  = inr (if bool_decide (symbols ∩ module_symbols ≠ ∅) then kept ++ [imp] else kept).
Proof. unfold keep_step. intros ->. rewrite bind_inr. by destruct (bool_decide _). Qed.

Lemma optimize_step_parsed (tree : node) (optimized : dict (list str))
    (module : str) (imports : list str) :
  ast_parse source = inr tree ->
  optimize_step ast_parse unicode_alnum source optimized (module, imports)
  = match for_each (keep_step ast_parse unicode_alnum (loaded_names tree)) imports [] with
    | inl SyntaxError => inr (dict_set optimized module imports)
    | inl e => inl e
    | inr kept => inr (dict_set optimized module kept)
    end.
Proof.
  unfold optimize_step. intros ->. rewrite bind_inr.
  by destruct (for_each _ imports []) as [[]|kept].
Qed.

(** The list comprehension returns where the symbols of every import are
    found, and then with the imports that are used. *)
Lemma keep_loop (module_symbols : gset str) (imports kept : list str) :
  (forall imp, imp ∈ imports ->
     exists symbols, extract_used_symbols ast_parse unicode_alnum imp = inr symbols) ->
  for_each (keep_step ast_parse unicode_alnum module_symbols) imports kept
  = inr (kept ++ filter (fun imp => used ast_parse unicode_alnum module_symbols imp = true)
                   imports).
Proof.
  revert kept. induction imports as [|imp imports IH]; intros kept Himports.
  { simpl. by rewrite app_nil_r. }
  cbn [for_each].
  destruct (Himports imp) as [symbols Hsymbols]; [left|].
  rewrite (keep_step_found _ _ _ _ Hsymbols), bind_inr.
  rewrite IH by (intros ? ?; apply Himports; by right).
  assert (used ast_parse unicode_alnum module_symbols imp
          = bool_decide (symbols ∩ module_symbols ≠ ∅)) as Hused.
  { unfold used. by rewrite Hsymbols. }
  rewrite filter_cons.
  destruct (decide (used ast_parse unicode_alnum module_symbols imp = true)) as [H|H];
    rewrite Hused in H; destruct (bool_decide _); try done.
  by rewrite <- app_assoc.
Qed.

Lemma keep_loop_returns (module_symbols : gset str) (imports kept r : list str) :
  for_each (keep_step ast_parse unicode_alnum module_symbols) imports kept = inr r ->
  forall imp, imp ∈ imports ->
    exists symbols, extract_used_symbols ast_parse unicode_alnum imp = inr symbols.
Proof.
  revert kept. induction imports as [|imp imports IH]; intros kept Hr x Hx.
  { by apply elem_of_nil in Hx. }
  cbn [for_each] in Hr.
  destruct (extract_used_symbols ast_parse unicode_alnum imp) as [e|symbols] eqn:Himp.
  { unfold keep_step at 2 in Hr. by rewrite Himp in Hr. }
  apply elem_of_cons in Hx as [->|Hx]; [by exists symbols|].
  rewrite (keep_step_found _ _ _ _ Himp), bind_inr in Hr. by eapply IH.
Qed.

(** [extract_used_symbols] catches the [SyntaxError]. *)
Lemma extract_used_symbols_caught (content : str) :
  extract_used_symbols ast_parse unicode_alnum content <> inl SyntaxError.
Proof.
  unfold extract_used_symbols. by destruct (ast_parse content) as [[]|tree].
Qed.

Lemma keep_loop_caught (module_symbols : gset str) (imports kept : list str) :
  for_each (keep_step ast_parse unicode_alnum module_symbols) imports kept
  <> inl SyntaxError.
Proof.
  intros (b & imp & _ & H)%for_each_inl. unfold keep_step in H.
  destruct (extract_used_symbols ast_parse unicode_alnum imp) as [e|symbols] eqn:Himp.
  - injection H as ->. by apply extract_used_symbols_caught in Himp.
  - rewrite bind_inr in H. by destruct (bool_decide _).
Qed.

Lemma optimize_loop (tree : node) (items optimized : dict (list str)) :
  ast_parse source = inr tree ->
  NoDup (optimized.*1 ++ items.*1) ->
  (forall k imports imp, (k, imports) ∈ items -> imp ∈ imports ->
     exists symbols, extract_used_symbols ast_parse unicode_alnum imp = inr symbols) ->
  for_each (optimize_step ast_parse unicode_alnum source) items optimized
  = inr (optimized ++ filtered ast_parse unicode_alnum (loaded_names tree) items).
Proof.
  intros Htree. revert optimized.
  induction items as [|[k imports] items IH]; intros optimized Hnodup Hitems.
  { simpl. by rewrite app_nil_r. }
  cbn [for_each]. rewrite (optimize_step_parsed tree) by done.
  rewrite keep_loop by (intros imp; apply (Hitems k imports); left).
  rewrite bind_inr. cbn [app].
  apply NoDup_app in Hnodup as (Hoptimized & Hfresh & Hnodup). simpl in *.
  apply NoDup_cons in Hnodup as [Hk Hnodup].
  rewrite dict_set_fresh.
  2:{ intros Hin. apply (Hfresh k Hin). left. }
  rewrite IH.
  - by rewrite <- app_assoc.
  - rewrite fmap_app. simpl. rewrite <- app_assoc. simpl.
    apply NoDup_app. split_and!; [done| |by apply NoDup_cons].
    intros x Hx. apply Hfresh in Hx. done.
  - intros k' imports' imp H. apply (Hitems k' imports' imp). by right.
Qed.

Lemma optimize_loop_returns (tree : node) (items optimized r : dict (list str)) :
  ast_parse source = inr tree ->
  for_each (optimize_step ast_parse unicode_alnum source) items optimized = inr r ->
  forall k imports imp, (k, imports) ∈ items -> imp ∈ imports ->
    exists symbols, extract_used_symbols ast_parse unicode_alnum imp = inr symbols.
Proof.
  intros Htree. revert optimized.
  induction items as [|[k imports] items IH]; intros optimized Hr k' imports' imp Hk' Himp.
  { by apply elem_of_nil in Hk'. }
  cbn [for_each] in Hr. rewrite (optimize_step_parsed tree) in Hr by done.
  destruct (for_each (keep_step _ _ _) imports []) as [e|kept] eqn:Hkept.
  { destruct e; [|done..]. by apply keep_loop_caught in Hkept. }
  apply elem_of_cons in Hk' as [[= -> ->]|Hk'].
  - by eapply keep_loop_returns.
  - rewrite bind_inr in Hr. by eapply IH.
Qed.

Lemma optimize_loop_unparsable (items optimized : dict (list str)) :
  ast_parse source = inl SyntaxError ->
  NoDup (optimized.*1 ++ items.*1) ->
  for_each (optimize_step ast_parse unicode_alnum source) items optimized
  = inr (optimized ++ items).
Proof.
  intros Hsource. revert optimized.
  induction items as [|[k imports] items IH]; intros optimized Hnodup.
  { simpl. by rewrite app_nil_r. }
  cbn [for_each]. unfold optimize_step at 2. rewrite Hsource.
  cbn [mbind result_bind raise]. rewrite bind_mret.
  apply NoDup_app in Hnodup as (Hoptimized & Hfresh & Hnodup). simpl in *.
  apply NoDup_cons in Hnodup as [Hk Hnodup].
  rewrite dict_set_fresh.
  2:{ intros Hin. apply (Hfresh k Hin). left. }
  rewrite IH; [by rewrite <- app_assoc|].
  rewrite fmap_app. simpl. rewrite <- app_assoc. simpl.
  apply NoDup_app. split_and!; [done| |by apply NoDup_cons].
  intros x Hx. apply Hfresh in Hx. done.
Qed.

(** X21. For a source that parses and imports whose symbols
    [extract_used_symbols] finds, [optimize_imports] returns the mapping
    with the same keys and, under every key, the imports one of whose
    symbols the source loads, in their order. The names are those of the
    whole source, so that which imports stay does not depend on the
    module. *)
Theorem optimize_imports_keeps_used (module_imports : dict (list str)) (tree : node) :
  NoDup module_imports.*1 ->
  ast_parse source = inr tree ->
  (forall k imports imp, (k, imports) ∈ module_imports -> imp ∈ imports ->
     exists symbols, extract_used_symbols ast_parse unicode_alnum imp = inr symbols) ->
  optimize_imports ast_parse unicode_alnum source module_imports
  = inr (filtered ast_parse unicode_alnum (loaded_names tree) module_imports).
Proof.
  intros Hnodup Htree Hitems. unfold optimize_imports.
  by rewrite (optimize_loop tree).
Qed.

(** X22. For a source that [ast.parse] rejects with [SyntaxError],
    [optimize_imports] returns the mapping as it is. *)
Theorem optimize_imports_unparsable (module_imports : dict (list str)) :
  NoDup module_imports.*1 ->
  ast_parse source = inl SyntaxError ->
  optimize_imports ast_parse unicode_alnum source module_imports = inr module_imports.
Proof.
  intros Hnodup Hsource. unfold optimize_imports.
  by rewrite optimize_loop_unparsable.
Qed.

(** X23. What [optimize_imports] returns it leaves as it is: for the same
    source, optimizing twice is optimizing once. *)
Theorem optimize_imports_idempotent (module_imports optimized : dict (list str)) :
  NoDup module_imports.*1 ->
  optimize_imports ast_parse unicode_alnum source module_imports = inr optimized ->
  optimize_imports ast_parse unicode_alnum source optimized = inr optimized.
Proof.
  intros Hnodup Hr. unfold optimize_imports in *.
  destruct (ast_parse source) as [e|tree] eqn:Hsource.
  - assert (e = SyntaxError \/ e <> SyntaxError) as [->|He]
      by (destruct e; (by left) || by right).
    + rewrite optimize_loop_unparsable in Hr by done. injection Hr as <-.
      by rewrite optimize_loop_unparsable.
    + destruct module_imports as [|[k imports] items].
      * by injection Hr as <-.
      * cbn [for_each] in Hr. unfold optimize_step at 2 in Hr. rewrite Hsource in Hr.
        by destruct e.
  - pose proof (optimize_loop_returns tree _ _ _ Hsource Hr) as Hitems.
    rewrite (optimize_loop tree) in Hr by done. injection Hr as <-. cbn [app].
    rewrite (optimize_loop tree); [| done | |].
    + cbn [app]. f_equal. unfold filtered. rewrite <- list_fmap_compose.
      apply list_fmap_ext. intros i [k imports] _. simpl. f_equal.
      apply filter_filter_same.
    + simpl. unfold filtered. rewrite <- list_fmap_compose.
      erewrite list_fmap_ext; [exact Hnodup|]. by intros i [k imports] _.
    + intros k imports imp. unfold filtered.
      intros ([k' imports'] & [= -> ->] & Hin)%list_elem_of_fmap.
      intros [_ Himp]%list_elem_of_filter. by eapply Hitems.
Qed.

End optimize.

Section optimize_examples.

Import import_manager.

(** The plain file loads [x] and [print]: of the imports [x] and [os] the
    first stays. *)
Lemma optimize_imports_keeps_used_witness :
  optimize_imports
    (scenarios.table_parse [(scenarios.plain_source, inr scenarios.plain_tree)])
    scenarios.ascii_only scenarios.plain_source scenarios.plain_imports
  = inr [ (py "module_0", [py "x"]) ].
Proof.
  rewrite (optimize_imports_keeps_used
             (scenarios.table_parse [(scenarios.plain_source, inr scenarios.plain_tree)])
             scenarios.ascii_only scenarios.plain_source scenarios.plain_imports
             scenarios.plain_tree).
  - vm_compute. reflexivity.
  - apply NoDup_singleton.
  - reflexivity.
  - intros k imports imp [= -> ->]%list_elem_of_singleton Himp.
    apply elem_of_cons in Himp as [->|Himp]; [eexists; vm_compute; reflexivity|].
    apply list_elem_of_singleton in Himp as ->. eexists. vm_compute. reflexivity.
Defined.

(** A source that does not parse: the mapping in layers stays. *)
Lemma optimize_imports_unparsable_witness :
  optimize_imports (scenarios.table_parse []) scenarios.ascii_only
    scenarios.dangling_else scenarios.layered_imports
  = inr scenarios.layered_imports.
Proof.
  apply optimize_imports_unparsable.
  - apply (bool_decide_unpack _). vm_compute. reflexivity.
  - reflexivity.
Defined.

(** What is left of the imports of the plain file stays. *)
Lemma optimize_imports_idempotent_witness :
  optimize_imports
    (scenarios.table_parse [(scenarios.plain_source, inr scenarios.plain_tree)])
    scenarios.ascii_only scenarios.plain_source [ (py "module_0", [py "x"]) ]
  = inr [ (py "module_0", [py "x"]) ].
Proof.
  apply (optimize_imports_idempotent
           (scenarios.table_parse [(scenarios.plain_source, inr scenarios.plain_tree)])
           scenarios.ascii_only scenarios.plain_source scenarios.plain_imports).
  - apply NoDup_singleton.
  - vm_compute. reflexivity.
Defined.

End optimize_examples.

(** ** src/core/utils.py: Pascal case *)

Section pascal_case.

Import Re utils.

Ltac cases_of_code_points :=
  unfold lower_cp, upper_cp in *;
  repeat match goal with
         | H : context [if ?b then _ else _] |- _ => destruct b eqn:?
         | |- context [if ?b then _ else _] => destruct b eqn:?
         end;
  unfold is_letter, is_upper, is_lower, is_digit, in_range in *;
  cbv beta in *;
  repeat (progress rewrite ?orb_true_iff, ?andb_true_iff, ?orb_false_iff,
            ?andb_false_iff, ?negb_true_iff, ?negb_false_iff, ?N.leb_le, ?N.leb_gt,
            ?N.eqb_eq, ?N.eqb_neq in *);
  try lia.

(** After the first substitution no underscore is followed by another. *)
Lemma capitals_single (s : str) :
  no_underscore s = true ->
  single_underscores (s ≫= (fun c => if is_upper c then [95%N; c] else [c])) = true.
Proof.
  unfold no_underscore. induction s as [|c s IH]; [done|].
  cbn [forallb]. intros [Hc Hs]%andb_true_iff. specialize (IH Hs).
  change ((c :: s) ≫= ?f) with (f c ++ (s ≫= f)). cbv beta.
  destruct (is_upper c) eqn:Hupper; cbn [app single_underscores head].
  - rewrite IH. rewrite (bool_decide_eq_false_2 (Some c = Some 95%N)).
    + rewrite andb_false_r. simpl. apply negb_true_iff in Hc.
      rewrite N.eqb_sym in Hc. by rewrite Hc.
    + intros [= ->]. done.
  - rewrite IH. apply negb_true_iff in Hc. rewrite N.eqb_sym in Hc. by rewrite Hc.
Qed.

Lemma capitals_chars (Q : N -> bool) (s : str) :
  Q 95%N = true -> forallb Q s = true ->
  forallb Q (s ≫= (fun c => if is_upper c then [95%N; c] else [c])) = true.
Proof.
  intros HQ. induction s as [|c s IH]; [done|].
  cbn [forallb]. intros [Hc Hs]%andb_true_iff.
  change ((c :: s) ≫= ?f) with (f c ++ (s ≫= f)). cbv beta.
  rewrite forallb_app, IH by done.
  destruct (is_upper c); cbn [forallb]; by rewrite ?HQ, Hc.
Qed.

Lemma capitals_last (c : N) (s : str) :
  c <> 95%N -> no_underscore s = true ->
  exists d, last (c :: (s ≫= (fun c => if is_upper c then [95%N; c] else [c])))
            = Some d /\ d <> 95%N.
Proof.
  unfold no_underscore. revert c. induction s as [|c' s IH]; intros c Hc; [by exists c|].
  cbn [forallb]. intros [Hc'%negb_true_iff Hs]%andb_true_iff.
  apply N.eqb_neq in Hc'.
  change ((c' :: s) ≫= ?f) with (f c' ++ (s ≫= f)). cbv beta.
  destruct (IH c') as (d & Hd & Hd95); [congruence|done|].
  exists d. split; [|done].
  destruct (is_upper c'); cbn [app]; by rewrite !last_cons_cons.
Qed.

(** Lowering after the first substitution. *)
Lemma lower_capitals (s : str) :
  lower (s ≫= (fun c => if is_upper c then [95%N; c] else [c]))
  = s ≫= (fun c => if is_upper c then [95%N; lower_cp c] else [c]).
Proof.
  induction s as [|c s IH]; [done|].
  change ((c :: s) ≫= ?f) with (f c ++ (s ≫= f)). cbv beta.
  unfold lower in *. rewrite fmap_app, IH. f_equal.
  destruct (is_upper c) eqn:Hupper; [done|]. simpl. unfold lower_cp. by rewrite Hupper.
Qed.

Lemma capitalize_snoc (g : str) (c : N) :
  g <> [] -> capitalize (g ++ [c]) = capitalize g ++ [lower_cp c].
Proof.
  destruct g as [|c0 g]; [done|]. intros _. simpl. unfold lower.
  by rewrite fmap_app.
Qed.

(** The words of a text in which an underscore and a small letter stand
    for every capital are capitalized back to the text. *)
Lemma pascal_words (g s : str) :
  g <> [] -> no_underscore g = true -> no_underscore s = true ->
  mjoin (capitalize <$>
           split 95 (g ++ (s ≫= (fun c => if is_upper c then [95%N; lower_cp c]
                                          else [c]))))
  = capitalize g ++ s.
Proof.
  revert g. induction s as [|c s IH]; intros g Hg Hplain Hs.
  { simpl. rewrite app_nil_r, split_plain by done. simpl. by rewrite app_nil_r. }
  unfold no_underscore in Hs. cbn [forallb] in Hs.
  apply andb_true_iff in Hs as [Hc Hs].
  change ((c :: s) ≫= ?f) with (f c ++ (s ≫= f)). cbv beta.
  destruct (is_upper c) eqn:Hupper.
  - cbn [app]. rewrite split_after by done. rewrite fmap_cons.
    change (mjoin (?x :: ?l)) with (x ++ mjoin l).
    change (lower_cp c :: ?t) with ([lower_cp c] ++ t).
    rewrite IH; [| done | | done].
    + simpl. f_equal. f_equal. cases_of_code_points.
    + unfold no_underscore. cbn [forallb]. rewrite andb_true_r. cases_of_code_points.
  - rewrite app_assoc. rewrite IH; [| by destruct g | | done].
    + rewrite capitalize_snoc by done. rewrite <- app_assoc. simpl.
      unfold lower_cp. by rewrite Hupper.
    + unfold no_underscore in *. rewrite forallb_app, Hplain. cbn [forallb].
      by rewrite Hc.
Qed.

(** A text in Pascal case is left as it is. *)
Lemma in_pascal_case_fixed (s : str) : in_pascal_case s = true -> to_pascal_case s = s.
Proof.
  destruct s as [|c s]; [done|]. unfold in_pascal_case.
  intros [Hsep Hhead%negb_true_iff]%andb_true_iff.
  assert (no_underscore (c :: s) = true) as Hplain.
  { unfold no_underscore. eapply forallb_weaken; [|exact Hsep].
    intros x Hx. cases_of_code_points. }
  assert (forallb (fun c => negb ((c =? 32)%N || (c =? 45)%N)) (c :: s) = true) as Hsep2.
  { eapply forallb_weaken; [|exact Hsep]. intros x Hx. cases_of_code_points. }
  assert (c <> 95%N) as Hc.
  { cbn [forallb] in Hsep. apply andb_true_iff in Hsep as [Hx _]. cases_of_code_points. }
  assert (no_underscore s = true) as Hs.
  { unfold no_underscore in *. cbn [forallb] in Hplain.
    by apply andb_true_iff in Hplain as [_ ?]. }
  unfold to_pascal_case, to_snake_case, re_sub. rewrite sub_upper.
  unfold separators_re, plus. rewrite sub_none by by apply capitals_chars.
  rewrite sub_underscores_fixed by by apply capitals_single.
  rewrite join_concat.
  change ((c :: s) ≫= ?f) with (f c ++ (s ≫= f)). cbv beta.
  destruct (capitals_last c s Hc Hs) as (d & Hd & Hd95).
  destruct (strip_words c (s ≫= (fun c => if is_upper c then [95%N; c] else [c])) Hc)
    as [Hstrip Hstrip']; [by exists d|].
  destruct (is_upper c) eqn:Hupper; cbn [app].
  - rewrite Hstrip'. unfold lower. rewrite fmap_cons. fold (lower (s ≫= (fun c => if is_upper c then [95%N; c] else [c]))).
    rewrite lower_capitals.
    change (lower_cp c :: ?t) with ([lower_cp c] ++ t).
    rewrite pascal_words; [| done | | done].
    + simpl. f_equal. cases_of_code_points.
    + unfold no_underscore. cbn [forallb]. rewrite andb_true_r. cases_of_code_points.
  - rewrite Hstrip. unfold lower. rewrite fmap_cons. fold (lower (s ≫= (fun c => if is_upper c then [95%N; c] else [c]))).
    rewrite lower_capitals.
    assert (lower_cp c = c) as -> by (unfold lower_cp; by rewrite Hupper).
    change (c :: ?t) with ([c] ++ t) at 1.
    rewrite pascal_words; [| done | | done].
    + simpl. f_equal. unfold upper_cp. by rewrite Hhead.
    + unfold no_underscore. cbn [forallb]. rewrite andb_true_r. cases_of_code_points.
Qed.

(** The words between the underscores hold the other characters. *)
Lemma split_chars (Q : N -> bool) (s : str) :
  forallb Q s = true ->
  Forall (fun w => forallb (fun c => Q c && negb (c =? 95)%N) w = true) (split 95 s).
Proof.
  induction s as [|c s IH]; [by repeat constructor|].
  cbn [forallb split]. intros [Hc Hs]%andb_true_iff. specialize (IH Hs).
  destruct (c =? 95)%N eqn:Hc95; [by constructor|].
  destruct (split 95 s) as [|w ws]; [by repeat constructor; simpl; rewrite Hc, Hc95|].
  apply Forall_cons in IH as [Hw Hws]. constructor; [|done].
  simpl. by rewrite Hc, Hc95, Hw.
Qed.

Lemma split_first_word (c : N) (s : str) :
  c <> 95%N -> exists w ws, split 95 (c :: s) = (c :: w) :: ws.
Proof.
  intros Hc%N.eqb_neq. cbn [split]. rewrite Hc.
  destruct (split 95 s) as [|w ws]; by eexists _, _.
Qed.

(** [capitalize] makes no separator. *)
Lemma capitalize_chars (w : str) :
  forallb (fun c => negb ((c =? 32)%N || (c =? 45)%N) && negb (c =? 95)%N) w = true ->
  forallb (fun c => negb ((c =? 95)%N || (c =? 32)%N || (c =? 45)%N)) (capitalize w)
  = true.
Proof.
  destruct w as [|c w]; [done|]. cbn [capitalize forallb].
  intros [Hc Hw]%andb_true_iff. apply andb_true_iff. split.
  - cases_of_code_points.
  - unfold lower. clear Hc. induction w as [|x w IH]; [done|].
    cbn [forallb] in *. apply andb_true_iff in Hw as [Hx Hw].
    rewrite fmap_cons. cbn [forallb]. rewrite IH by done. rewrite andb_true_r.
    cases_of_code_points.
Qed.

(** What [to_pascal_case] returns is in Pascal case. *)
Lemma to_pascal_case_normal (text : str) : in_pascal_case (to_pascal_case text) = true.
Proof.
  unfold to_pascal_case. pose proof (to_snake_case_normal text) as Hsnake.
  revert Hsnake. generalize (to_snake_case text). intros s.
  unfold in_snake_case. rewrite !andb_true_iff, !negb_true_iff.
  intros ((((Hupper & Hsep) & _) & Hhead%bool_decide_eq_false) & _).
  rewrite join_concat. unfold in_pascal_case. apply andb_true_iff. split.
  - pose proof (split_chars _ s Hsep) as Hwords. revert Hwords.
    generalize (split 95 s). intros ws Hws.
    induction Hws as [|w ws Hw _ IH]; [done|].
    rewrite fmap_cons. change (mjoin (?x :: ?l)) with (x ++ mjoin l).
    rewrite forallb_app, IH, andb_true_r. by apply capitalize_chars.
  - destruct s as [|c s]; [done|].
    destruct (split_first_word c s) as (w & ws & ->); [simpl in Hhead; congruence|].
    simpl. apply negb_true_iff. cbn [forallb] in Hupper.
    apply andb_true_iff in Hupper as [Hc _]. cases_of_code_points.
Qed.

(** X24. For every text [to_pascal_case] returns a text in Pascal case:
    no underscore, space or hyphen, and no small letter in front. It
    leaves a text in Pascal case as it is, so that applying it twice is
    applying it once, and it gives the same for a text and for the text
    in snake case. *)
Theorem to_pascal_case_normal_form (text : str) :
  is_ascii text = true ->
  in_pascal_case (to_pascal_case text) = true /\
  (in_pascal_case text = true -> to_pascal_case text = text) /\
  to_pascal_case (to_pascal_case text) = to_pascal_case text /\
  to_pascal_case (to_snake_case text) = to_pascal_case text.
Proof.
  intros _. split; [apply to_pascal_case_normal|].
  split; [apply in_pascal_case_fixed|].
  split; [apply in_pascal_case_fixed, to_pascal_case_normal|].
  unfold to_pascal_case. by rewrite (in_snake_case_fixed _ (to_snake_case_normal text)).
Qed.

End pascal_case.

Section pascal_case_examples.

Import utils.

(** Words parted by a hyphen and a space. *)
Lemma to_pascal_case_normal_form_witness :
  to_pascal_case (py "load-user data") = py "LoadUserData" /\
  in_pascal_case (py "LoadUserData") = true /\
  to_pascal_case (py "LoadUserData") = py "LoadUserData" /\
  to_pascal_case (py "load_user_data") = py "LoadUserData".
Proof.
  destruct (to_pascal_case_normal_form (py "load-user data") eq_refl)
    as (Hnormal & _ & Htwice & Hsnake).
  assert (to_pascal_case (py "load-user data") = py "LoadUserData") as Hpascal
    by (vm_compute; reflexivity).
  assert (to_snake_case (py "load-user data") = py "load_user_data") as Hword
    by (vm_compute; reflexivity).
  rewrite Hpascal in Hnormal, Htwice. rewrite Hword, Hpascal in Hsnake.
  repeat split; assumption.
Defined.

End pascal_case_examples.
